(** * stream-prelude: a shallow embedding and its checked properties

    The development follows the layout of the TypeScript sources:
    [errors.ts], [constants.ts], [utils.ts], the buffer and stream API
    ([frameStream], [parsePrelude], [encodePrelude], [decodePrelude],
    [getPreludeSize], [isFramedStream]) and the push-mode adapter
    [parsePreludeTransform].  Node's [Buffer], [JSON] and [Readable] are
    modelled next to the code that calls them. *)

From Stdlib Require Import ZArith List String Ascii Bool Lia Arith.
From Stdlib Require Import Strings.Byte Numbers.DecimalString.
Import ListNotations.

Local Open Scope Z_scope.

(* ------------------------------------------------------------------ *)
(** ** Errors ([errors.ts]) and the result of a call that may throw     *)
(* ------------------------------------------------------------------ *)

Inductive ErrorClass : Type :=
| TypeError
| RangeError
| PreludeMagicMismatchError
| PreludeTruncatedError
| PreludeJsonTooLargeError
| PreludeJsonParseError
| PreludeInvalidTypeError
| PreludeFlowingModeError
| SyntaxError             (* thrown by [JSON.parse] *)
| SourceError.            (* an error emitted by the source stream itself *)

Record Error : Type := mkError { name : ErrorClass; message : string }.

(** The constructors of [errors.ts] with their default messages. *)
Definition newPreludeMagicMismatchError (msg : option string) : Error :=
  mkError PreludeMagicMismatchError
          (match msg with Some m => m | None => "Prelude magic mismatch" end).
Definition newPreludeTruncatedError : Error :=
  mkError PreludeTruncatedError "Unexpected end of stream while reading prelude".
Definition newPreludeJsonTooLargeError : Error :=
  mkError PreludeJsonTooLargeError "JSON payload exceeds maximum length".
Definition newPreludeJsonParseError (msg : option string) : Error :=
  mkError PreludeJsonParseError
          (match msg with Some m => m | None => "Failed to parse JSON payload" end).
Definition newPreludeInvalidTypeError : Error :=
  mkError PreludeInvalidTypeError "Parsed headers must be a JSON object".
Definition newPreludeFlowingModeError : Error :=
  mkError PreludeFlowingModeError
    "Stream is in flowing mode with active data listeners. Pass { autoPause: true } or detach listeners.".
Definition newTypeError (msg : string) : Error := mkError TypeError msg.

(** A synchronous call either returns or throws. *)
Inductive result (A : Type) : Type :=
| Ok (value : A)
| Throw (e : Error).
Arguments Ok {A} value.
Arguments Throw {A} e.

Definition bind {A B} (r : result A) (k : A -> result B) : result B :=
  match r with
  | Ok a => k a
  | Throw e => Throw e
  end.

Declare Scope js_scope.
Delimit Scope js_scope with js.
Notation "x <- c1 ;; c2" := (bind c1 (fun x => c2))
  (at level 61, c1 at next level, right associativity) : js_scope.
Notation "c1 ;; c2" := (bind c1 (fun _ => c2))
  (at level 61, right associativity) : js_scope.
Local Open Scope js_scope.

Definition is_ok {A} (r : result A) : bool :=
  match r with Ok _ => true | Throw _ => false end.

Definition map_result {A B} (f : A -> B) (r : result A) : result B :=
  match r with Ok a => Ok (f a) | Throw e => Throw e end.

(* ------------------------------------------------------------------ *)
(** ** Node's [Buffer]: a sequence of bytes                             *)
(* ------------------------------------------------------------------ *)

Module Buffer.

Definition t : Type := list byte.

Definition length (b : t) : Z := Z.of_nat (List.length b).

(** [buf.subarray(start, end)] and [buf.subarray(start)], offsets in range
    or clamped to the length as Node does. *)
Definition subarray (b : t) (start stop : Z) : t :=
  firstn (Z.to_nat (stop - start)) (skipn (Z.to_nat start) b).
Definition subarray_from (b : t) (start : Z) : t :=
  skipn (Z.to_nat start) b.

Definition equals (a b : t) : bool :=
  if list_eq_dec Byte.byte_eq_dec a b then true else false.

Definition concat (bs : list t) : t := List.concat bs.

Definition to_Z (x : byte) : Z := Z.of_N (Byte.to_N x).
Definition of_Z (z : Z) : byte :=
  match Byte.of_N (Z.to_N (Z.land z 255)) with
  | Some x => x
  | None => x00
  end.

(** [buf.readUInt32BE(offset)]: RangeError unless four bytes are there. *)
Definition readUInt32BE (b : t) (offset : Z) : result Z :=
  match skipn (Z.to_nat offset) b with
  | b0 :: b1 :: b2 :: b3 :: _ =>
      Ok (to_Z b0 * 2 ^ 24 + to_Z b1 * 2 ^ 16 + to_Z b2 * 2 ^ 8 + to_Z b3)
  | _ => Throw (mkError RangeError "Attempt to access memory outside buffer bounds")
  end.

(** [Buffer.alloc(size)]; [Buffer.allocUnsafe(size)] differs by leaving
    the bytes unspecified until they are written. *)
Definition alloc (size : Z) : t := repeat x00 (Z.to_nat size).

(** [src.copy(target, targetStart)]: the bytes of [src] that fit. *)
Definition copy (src target : t) (targetStart : Z) : t :=
  let off := Z.to_nat targetStart in
  firstn off target
    ++ firstn (List.length target - off) src
    ++ skipn (off + List.length src) target.

(** The big-endian bytes of a 32-bit value. *)
Definition uint32BE (value : Z) : t :=
  [ of_Z (Z.shiftr value 24); of_Z (Z.shiftr value 16);
    of_Z (Z.shiftr value 8); of_Z value ].

(** [buf.writeUInt32BE(value, offset)]: RangeError when [value] is not in
    [0, 2^32 - 1] or the four bytes do not fit. *)
Definition writeUInt32BE (b : t) (value offset : Z) : result t :=
  if negb ((0 <=? value) && (value <=? 4294967295)) then
    Throw (mkError RangeError "The value is out of range")
  else if negb ((0 <=? offset) && (offset + 4 <=? length b)) then
    Throw (mkError RangeError "Attempt to access memory outside buffer bounds")
  else Ok (copy (uint32BE value) b offset).

(** [Buffer.from(str, 'utf8')] and [buf.toString('utf8')]: a string is kept
    as the bytes of its UTF-8 encoding, so both are the change of
    representation. *)
Definition from_string (s : string) : t := list_byte_of_string s.
Definition toString (b : t) : string := string_of_list_byte b.
Definition byteLength (s : string) : Z := length (from_string s).

End Buffer.

(* ------------------------------------------------------------------ *)
(** ** JavaScript values that can reach the header argument             *)
(* ------------------------------------------------------------------ *)

(** A number is either non-finite or finite; a finite number is kept as the
    decimal text ECMAScript's [Number::toString] gives it ([12], [-3.5],
    [1e+21]).  Binary64 arithmetic is not part of the model: the code under
    study never computes with header numbers. *)
Inductive JsNumber : Type :=
| Finite (literal : string)
| NaN
| Infinity (negative : bool).

Local Unset Elimination Schemes.
Inductive JsValue : Type :=
| JUndefined
| JNull
| JBool (b : bool)
| JNumber (n : JsNumber)
| JString (s : string)
| JBigInt (z : Z)
| JSymbol
| JFunction
| JArray (items : list JsValue)
| JObject (props : list (string * JsValue))
    (* a plain object, own enumerable properties in property order *)
| JHostObject.
    (* an object whose prototype is not [Object.prototype] (a [Map], a class
       instance, [Object.create(null)]), without own enumerable properties
       and without [toJSON] *)
Local Set Elimination Schemes.

(** Induction that reaches the values inside arrays and objects. *)
Section JsValue_induction.
Variable P : JsValue -> Prop.
Hypothesis P_undefined : P JUndefined.
Hypothesis P_null : P JNull.
Hypothesis P_bool : forall b, P (JBool b).
Hypothesis P_number : forall n, P (JNumber n).
Hypothesis P_string : forall s, P (JString s).
Hypothesis P_bigint : forall z, P (JBigInt z).
Hypothesis P_symbol : P JSymbol.
Hypothesis P_function : P JFunction.
Hypothesis P_array : forall items, Forall P items -> P (JArray items).
Hypothesis P_object :
  forall props, Forall (fun kv => P (snd kv)) props -> P (JObject props).
Hypothesis P_host : P JHostObject.

Fixpoint JsValue_deep_ind (v : JsValue) : P v :=
  match v with
  | JUndefined => P_undefined
  | JNull => P_null
  | JBool b => P_bool b
  | JNumber n => P_number n
  | JString s => P_string s
  | JBigInt z => P_bigint z
  | JSymbol => P_symbol
  | JFunction => P_function
  | JArray items =>
      P_array items
        ((fix all (l : list JsValue) : Forall P l :=
            match l with
            | [] => Forall_nil P
            | x :: rest => Forall_cons x (JsValue_deep_ind x) (all rest)
            end) items)
  | JObject props =>
      P_object props
        ((fix all (l : list (string * JsValue))
            : Forall (fun kv => P (snd kv)) l :=
            match l with
            | [] => Forall_nil _
            | kv :: rest =>
                Forall_cons kv (JsValue_deep_ind (snd kv)) (all rest)
            end) props)
  | JHostObject => P_host
  end.
End JsValue_induction.

(** Own properties of a plain object. *)
Module Obj.
Definition keys (props : list (string * JsValue)) : list string :=
  map fst props.

Fixpoint hasOwn (key : string) (props : list (string * JsValue)) : bool :=
  match props with
  | [] => false
  | (k, _) :: rest => String.eqb k key || hasOwn key rest
  end.

(** [obj[key] = value]: an existing property keeps its place. *)
Fixpoint set (key : string) (value : JsValue)
         (props : list (string * JsValue)) : list (string * JsValue) :=
  match props with
  | [] => [(key, value)]
  | (k, x) :: rest =>
      if String.eqb k key then (k, value) :: rest
      else (k, x) :: set key value rest
  end.

(** [{ ...target, ...source }] *)
Definition spread (target source : list (string * JsValue))
  : list (string * JsValue) :=
  fold_left (fun acc kv => set (fst kv) (snd kv) acc) source target.

Fixpoint distinct (ks : list string) : bool :=
  match ks with
  | [] => true
  | k :: rest => negb (existsb (String.eqb k) rest) && distinct rest
  end.
End Obj.

(* ------------------------------------------------------------------ *)
(** ** [JSON.stringify] and [JSON.parse] (ECMA-262, 25.5)               *)
(* ------------------------------------------------------------------ *)

Module JSON.

Definition text : Type := list ascii.

Definition code (c : ascii) : N := N_of_ascii c.
Definition dquote : ascii := ascii_of_N 34.

(** *** Strings: QuoteJSONString *)

Definition hex_digit (n : N) : ascii :=
  if N.ltb n 10 then ascii_of_N (48 + n) else ascii_of_N (87 + n).

Definition escape_char (c : ascii) : text :=
  let n := code c in
  if N.eqb n 34 then ["\"%char; dquote]
  else if N.eqb n 92 then ["\"; "\"]%char
  else if N.eqb n 8 then ["\"; "b"]%char
  else if N.eqb n 9 then ["\"; "t"]%char
  else if N.eqb n 10 then ["\"; "n"]%char
  else if N.eqb n 12 then ["\"; "f"]%char
  else if N.eqb n 13 then ["\"; "r"]%char
  else if N.ltb n 32 then
    ["\"; "u"; "0"; "0"]%char ++ [hex_digit (N.div n 16); hex_digit (N.modulo n 16)]
  else [c].

Definition escape (l : text) : text := flat_map escape_char l.

Definition quote (s : string) : text :=
  (dquote :: escape (list_ascii_of_string s)) ++ [dquote].

(** *** Values: SerializeJSONProperty *)

(** [undefined], symbols and functions have no JSON text: a property
    holding one is left out, an array element is written [null]. *)
Definition omitted (v : JsValue) : bool :=
  match v with
  | JUndefined | JSymbol | JFunction => true
  | _ => false
  end.

Definition tnull : text := ["n"; "u"; "l"; "l"]%char.
Definition ttrue : text := ["t"; "r"; "u"; "e"]%char.
Definition tfalse : text := ["f"; "a"; "l"; "s"; "e"]%char.
Definition comma (first : bool) : text := if first then [] else [","%char].

Fixpoint render (v : JsValue) : text :=
  match v with
  | JNull => tnull
  | JBool true => ttrue
  | JBool false => tfalse
  | JNumber (Finite lit) => list_ascii_of_string lit
  | JNumber _ => tnull
  | JString s => quote s
  | JArray items =>
      "["%char ::
        (fix elements (l : list JsValue) (first : bool) : text :=
           match l with
           | [] => ["]"%char]
           | x :: rest => comma first ++ render x ++ elements rest false
           end) items true
  | JObject props =>
      "{"%char ::
        (fix members (l : list (string * JsValue)) (first : bool) : text :=
           match l with
           | [] => ["}"%char]
           | (k, x) :: rest =>
               if omitted x then members rest first
               else comma first ++ quote k ++ ":"%char :: render x
                      ++ members rest false
           end) props true
  | JHostObject => ["{"; "}"]%char
  | JUndefined | JSymbol | JFunction | JBigInt _ => tnull
  end.

Fixpoint has_bigint (v : JsValue) : bool :=
  match v with
  | JBigInt _ => true
  | JArray items => existsb has_bigint items
  | JObject props =>
      (fix any (l : list (string * JsValue)) : bool :=
         match l with
         | [] => false
         | (_, x) :: rest => has_bigint x || any rest
         end) props
  | _ => false
  end.

(** [JSON.stringify(value)]: a string, [undefined], or a TypeError. *)
Definition stringify (v : JsValue) : result (option string) :=
  if has_bigint v then
    Throw (newTypeError "Do not know how to serialize a BigInt")
  else if omitted v then Ok None
  else Ok (Some (string_of_list_ascii (render v))).

(** *** Number literals: the JSON grammar (an optional minus, an integer
    part without leading zero, an optional fraction, an optional exponent),
    recognised by its automaton. *)

Inductive NumChar : Type :=
| Digit0 | Digit19 | Minus | Plus | Dot | Exponent | NotNumeric.

Definition classify (c : ascii) : NumChar :=
  let n := code c in
  if N.eqb n 48 then Digit0
  else if N.leb 49 n && N.leb n 57 then Digit19
  else if N.eqb n 45 then Minus
  else if N.eqb n 43 then Plus
  else if N.eqb n 46 then Dot
  else if N.eqb n 101 || N.eqb n 69 then Exponent
  else NotNumeric.

Inductive NumState : Type :=
| NStart | NMinus | NZero | NInt | NDot | NFrac | NExpMark | NExpSign | NExp.

Definition num_step (s : NumState) (k : NumChar) : option NumState :=
  match s, k with
  | NStart, Minus => Some NMinus
  | (NStart | NMinus), Digit0 => Some NZero
  | (NStart | NMinus), Digit19 => Some NInt
  | NInt, (Digit0 | Digit19) => Some NInt
  | (NZero | NInt), Dot => Some NDot
  | (NDot | NFrac), (Digit0 | Digit19) => Some NFrac
  | (NZero | NInt | NFrac), Exponent => Some NExpMark
  | NExpMark, (Plus | Minus) => Some NExpSign
  | (NExpMark | NExpSign | NExp), (Digit0 | Digit19) => Some NExp
  | _, _ => None
  end.

Fixpoint num_run (s : NumState) (l : text) : option NumState :=
  match l with
  | [] => Some s
  | c :: rest =>
      match num_step s (classify c) with
      | Some s' => num_run s' rest
      | None => None
      end
  end.

Definition num_accepting (s : NumState) : bool :=
  match s with
  | NZero | NInt | NFrac | NExp => true
  | _ => false
  end.

Definition is_number_literal (l : text) : bool :=
  match num_run NStart l with
  | Some s => num_accepting s
  | None => false
  end.

Definition is_number_char (c : ascii) : bool :=
  match classify c with NotNumeric => false | _ => true end.

Definition is_number_start (c : ascii) : bool :=
  match classify c with Minus | Digit0 | Digit19 => true | _ => false end.

Fixpoint span_number (t : text) : text * text :=
  match t with
  | [] => ([], [])
  | c :: rest =>
      if is_number_char c then
        let (tok, r) := span_number rest in (c :: tok, r)
      else ([], t)
  end.

Definition parse_number (t : text) : option (JsValue * text) :=
  let (tok, r) := span_number t in
  if is_number_literal tok
  then Some (JNumber (Finite (string_of_list_ascii tok)), r)
  else None.

(** *** String literals *)

Definition hex_value (c : ascii) : option N :=
  let n := code c in
  if N.leb 48 n && N.leb n 57 then Some (n - 48)%N
  else if N.leb 97 n && N.leb n 102 then Some (n - 87)%N
  else if N.leb 65 n && N.leb n 70 then Some (n - 55)%N
  else None.

Definition hex4 (a b c d : ascii) : option N :=
  match hex_value a, hex_value b, hex_value c, hex_value d with
  | Some x, Some y, Some z, Some w => Some (((x * 16 + y) * 16 + z) * 16 + w)%N
  | _, _, _, _ => None
  end.

(** The UTF-8 bytes of the code unit a [\uXXXX] escape names (a surrogate
    is written as a three-byte sequence of its own). *)
Definition code_unit_bytes (n : N) : text :=
  if N.ltb n 128 then [ascii_of_N n]
  else if N.ltb n 2048 then
    [ascii_of_N (192 + N.div n 64); ascii_of_N (128 + N.modulo n 64)]
  else
    [ascii_of_N (224 + N.div n 4096);
     ascii_of_N (128 + N.modulo (N.div n 64) 64);
     ascii_of_N (128 + N.modulo n 64)].

Definition unescape (e : ascii) : option ascii :=
  let n := code e in
  if N.eqb n 34 || N.eqb n 92 || N.eqb n 47 then Some e
  else if N.eqb n 98 then Some (ascii_of_N 8)
  else if N.eqb n 116 then Some (ascii_of_N 9)
  else if N.eqb n 110 then Some (ascii_of_N 10)
  else if N.eqb n 102 then Some (ascii_of_N 12)
  else if N.eqb n 114 then Some (ascii_of_N 13)
  else None.

Definition prepend (p : text) (r : option (text * text)) : option (text * text) :=
  match r with
  | Some (s, rest) => Some (p ++ s, rest)
  | None => None
  end.

(** The characters after an opening quote, up to the closing one. *)
Fixpoint parse_string_body (t : text) : option (text * text) :=
  match t with
  | [] => None
  | c :: r =>
      if N.eqb (code c) 34 then Some ([], r)
      else if N.eqb (code c) 92 then
        match r with
        | [] => None
        | e :: r1 =>
            if N.eqb (code e) 117 then
              match r1 with
              | h1 :: h2 :: h3 :: h4 :: r2 =>
                  match hex4 h1 h2 h3 h4 with
                  | Some n => prepend (code_unit_bytes n) (parse_string_body r2)
                  | None => None
                  end
              | _ => None
              end
            else
              match unescape e with
              | Some x => prepend [x] (parse_string_body r1)
              | None => None
              end
        end
      else if N.ltb (code c) 32 then None
      else prepend [c] (parse_string_body r)
  end.

(** *** Values *)

Definition is_ws (c : ascii) : bool :=
  let n := code c in
  N.eqb n 32 || N.eqb n 9 || N.eqb n 10 || N.eqb n 13.

Fixpoint skip_ws (t : text) : text :=
  match t with
  | c :: rest => if is_ws c then skip_ws rest else t
  | [] => []
  end.

Fixpoint strip (prefix t : text) : option text :=
  match prefix, t with
  | [], _ => Some t
  | a :: prefix', b :: t' => if Ascii.eqb a b then strip prefix' t' else None
  | _ :: _, [] => None
  end.

Definition literal (word : text) (v : JsValue) (t : text)
  : option (JsValue * text) :=
  match strip word t with
  | Some rest => Some (v, rest)
  | None => None
  end.

(** Recursive descent; [fuel] bounds the nesting of calls. *)
Fixpoint parse_value (fuel : nat) (t : text) {struct fuel}
  : option (JsValue * text) :=
  match fuel with
  | O => None
  | S fuel' =>
      match skip_ws t with
      | [] => None
      | c :: r =>
          if is_number_start c then parse_number (c :: r)
          else if N.eqb (code c) 34 then
            match parse_string_body r with
            | Some (s, rest) => Some (JString (string_of_list_ascii s), rest)
            | None => None
            end
          else if N.eqb (code c) 91 then
            match skip_ws r with
            | [] => None
            | c' :: r' =>
                if N.eqb (code c') 93 then Some (JArray [], r')
                else
                  match parse_elements fuel' r with
                  | Some (items, rest) => Some (JArray items, rest)
                  | None => None
                  end
            end
          else if N.eqb (code c) 123 then
            match skip_ws r with
            | [] => None
            | c' :: r' =>
                if N.eqb (code c') 125 then Some (JObject [], r')
                else
                  match parse_members fuel' r with
                  | Some (members, rest) =>
                      Some (JObject (Obj.spread [] members), rest)
                  | None => None
                  end
            end
          else if N.eqb (code c) 110 then literal tnull JNull (c :: r)
          else if N.eqb (code c) 116 then literal ttrue (JBool true) (c :: r)
          else if N.eqb (code c) 102 then literal tfalse (JBool false) (c :: r)
          else None
      end
  end

with parse_elements (fuel : nat) (t : text) {struct fuel}
  : option (list JsValue * text) :=
  match fuel with
  | O => None
  | S fuel' =>
      match parse_value fuel' t with
      | None => None
      | Some (v, r) =>
          match skip_ws r with
          | [] => None
          | c :: r' =>
              if N.eqb (code c) 44 then
                match parse_elements fuel' r' with
                | Some (vs, rest) => Some (v :: vs, rest)
                | None => None
                end
              else if N.eqb (code c) 93 then Some ([v], r')
              else None
          end
      end
  end

with parse_members (fuel : nat) (t : text) {struct fuel}
  : option (list (string * JsValue) * text) :=
  match fuel with
  | O => None
  | S fuel' =>
      match skip_ws t with
      | [] => None
      | q :: r =>
          if negb (N.eqb (code q) 34) then None
          else
            match parse_string_body r with
            | None => None
            | Some (k, r1) =>
                match skip_ws r1 with
                | [] => None
                | colon :: r2 =>
                    if negb (N.eqb (code colon) 58) then None
                    else
                      match parse_value fuel' r2 with
                      | None => None
                      | Some (v, r3) =>
                          let key := string_of_list_ascii k in
                          match skip_ws r3 with
                          | [] => None
                          | c :: r4 =>
                              if N.eqb (code c) 44 then
                                match parse_members fuel' r4 with
                                | Some (ms, rest) => Some ((key, v) :: ms, rest)
                                | None => None
                                end
                              else if N.eqb (code c) 125
                                   then Some ([(key, v)], r4)
                                   else None
                          end
                      end
                end
            end
      end
  end.

Definition syntaxError : Error := mkError SyntaxError "Unexpected token in JSON".

(** [JSON.parse(text)] *)
Definition parse (s : string) : result JsValue :=
  let t := list_ascii_of_string s in
  match parse_value (2 * List.length t + 2) t with
  | Some (v, rest) =>
      match skip_ws rest with
      | [] => Ok v
      | _ :: _ => Throw syntaxError
      end
  | None => Throw syntaxError
  end.

End JSON.

(** Test texts are written with apostrophes standing for double quotes. *)
Fixpoint dq (s : string) : string :=
  match s with
  | EmptyString => EmptyString
  | String c rest =>
      String (if Ascii.eqb c "'" then JSON.dquote else c) (dq rest)
  end.

(* ------------------------------------------------------------------ *)
(** ** [constants.ts]                                                   *)
(* ------------------------------------------------------------------ *)

(** Modelled from the spec: [constants.ts] is not among the sources.  The
    wire format (section 6) fixes a 4-byte marker and a 4-byte length, the
    default maximum payload size 16384 and the default marker, a fixed 4-byte
    ASCII token, which the API documentation names as PRE1. *)
Definition MAGIC_LENGTH : Z := 4.
Definition LENGTH_BYTES : Z := 4.
Definition DEFAULT_MAX_JSON_BYTES : Z := 16384.
Definition DEFAULT_MAGIC : string := "PRE1".

(* ------------------------------------------------------------------ *)
(** ** [types.ts]                                                       *)
(* ------------------------------------------------------------------ *)

(** [string | Buffer] *)
Inductive Magic : Type :=
| MagicString (s : string)
| MagicBuffer (b : Buffer.t).

(** [MultipleMagic = string | Buffer | (string | Buffer)[]] *)
Inductive MultipleMagic : Type :=
| One (m : Magic)
| Many (ms : list Magic).

Module EncodeOptions.
Record t : Type := make
  { magic : option Magic; version : option JsNumber; maxJsonBytes : option Z }.
Definition default : t := make None None None.
End EncodeOptions.

Module DecodeOptions.
Record t : Type := make
  { magic : option MultipleMagic; maxJsonBytes : option Z }.
Definition default : t := make None None.
End DecodeOptions.

Module FrameStreamOptions.
Record t : Type := make
  { magic : option MultipleMagic; version : option JsNumber;
    maxJsonBytes : option Z }.
Definition default : t := make None None None.
End FrameStreamOptions.

Module ParsePreludeOptions.
Record t : Type := make
  { magic : option MultipleMagic;
    maxJsonBytes : option Z;
    requirePrelude : bool;
    (** the observer; [true] stands for a call that throws *)
    onHeaders : option (JsValue -> bool);
    autoPause : bool }.
Definition default : t := make None None false None false.
End ParsePreludeOptions.

(** [a ?? b] *)
Definition nullish {A} (a : option A) (b : A) : A :=
  match a with Some x => x | None => b end.
Infix "??" := nullish (at level 45, left associativity) : js_scope.

(* ------------------------------------------------------------------ *)
(** ** [utils.ts]                                                       *)
(* ------------------------------------------------------------------ *)

Definition assertMagic (magic : Magic) : result Buffer.t :=
  let buffer :=
    match magic with
    | MagicBuffer b => b
    | MagicString s => Buffer.from_string s
    end in
  if negb (Buffer.length buffer =? MAGIC_LENGTH) then
    Throw (newTypeError "magic must be exactly 4 bytes")
  else Ok buffer.

Fixpoint map_throwing {A B} (f : A -> result B) (l : list A) : result (list B) :=
  match l with
  | [] => Ok []
  | x :: rest => y <- f x ;; ys <- map_throwing f rest ;; Ok (y :: ys)
  end.

Definition assertMagicList (magic : option MultipleMagic) : result (list Buffer.t) :=
  let items :=
    match magic with
    | None => [MagicString DEFAULT_MAGIC]
    | Some (Many ms) => ms
    | Some (One m) => [m]
    end in
  map_throwing assertMagic items.

Definition isPlainObject (value : JsValue) : bool :=
  match value with
  | JObject _ => true
  | _ => false
  end.

Definition string_of_nat (n : nat) : string :=
  NilEmpty.string_of_uint (Nat.to_uint n).

Fixpoint assertSerializable (value : JsValue) (path : string) : result unit :=
  match value with
  | JString _ | JNumber _ | JBool _ | JNull => Ok tt
  | JArray items =>
      (fix forEach (entries : list JsValue) (index : nat) : result unit :=
         match entries with
         | [] => Ok tt
         | entry :: rest =>
             assertSerializable entry
               (path ++ "[" ++ string_of_nat index ++ "]") ;;
             forEach rest (S index)
         end) items O
  | JObject props =>
      (fix entries (l : list (string * JsValue)) : result unit :=
         match l with
         | [] => Ok tt
         | (key, entry) :: rest =>
             assertSerializable entry (path ++ "." ++ key) ;;
             entries rest
         end) props
  | _ => Throw (newTypeError (path ++ " contains a non-serializable value"))
  end.

Definition is_undefined (v : JsValue) : bool :=
  match v with JUndefined => true | _ => false end.

Fixpoint validatePrelude_entries (l : list (string * JsValue)) : result unit :=
  match l with
  | [] => Ok tt
  | (key, value) :: rest =>
      if is_undefined value then
        Throw (newTypeError ("prelude." ++ key ++ " is undefined"))
      else
        assertSerializable value ("prelude." ++ key) ;;
        validatePrelude_entries rest
  end.

Definition validatePrelude (prelude : JsValue) : result unit :=
  match prelude with
  | JObject props =>
      if Obj.hasOwn "v" props then
        Throw (newTypeError (dq "prelude must not declare the reserved key 'v'"))
      else validatePrelude_entries props
  | _ => Throw (newTypeError "prelude must be a plain object")
  end.

Definition makePreludeBuffer (magic json : Buffer.t) : result Buffer.t :=
  let buffer := Buffer.alloc (MAGIC_LENGTH + LENGTH_BYTES + Buffer.length json) in
  let buffer := Buffer.copy magic buffer 0 in
  buffer <- Buffer.writeUInt32BE buffer (Buffer.length json) MAGIC_LENGTH ;;
  Ok (Buffer.copy json buffer (MAGIC_LENGTH + LENGTH_BYTES)).

(** [length] is an integer here, so [!Number.isInteger(length)] is false. *)
Definition validateJsonLength (length max : Z) : result unit :=
  if length <? 0 then
    Throw (newTypeError "JSON length must be a non-negative integer")
  else if length >? max then Throw newPreludeJsonTooLargeError
  else if length =? 0 then
    Throw (newPreludeJsonParseError (Some "JSON payload must be non-empty"%string))
  else Ok tt.

(* ------------------------------------------------------------------ *)
(** ** The buffer API: [encodePrelude], [decodePrelude], [getPreludeSize] *)
(* ------------------------------------------------------------------ *)

(** The API file imports the header validation under the name
    [validateHeaders]; [utils.ts] exports it as [validatePrelude]. *)
Definition validateHeaders : JsValue -> result unit := validatePrelude.

(** The own enumerable properties an object spread copies.  Only plain
    objects get as far as the spread: [validateHeaders] has thrown for every
    other value. *)
Definition ownProps (v : JsValue) : list (string * JsValue) :=
  match v with
  | JObject props => props
  | _ => []
  end.

Definition DEFAULT_VERSION : JsNumber := Finite "1".

(** [{ v: version, ...headers }] *)
Definition withVersion (version : JsNumber) (headers : JsValue) : JsValue :=
  JObject (Obj.spread [("v"%string, JNumber version)] (ownProps headers)).

(** [magics[0]!], at the place that uses the marker *)
Definition firstMagic (magics : list Buffer.t) : result Buffer.t :=
  match magics with
  | m :: _ => Ok m
  | [] => Throw (newTypeError "Cannot read properties of undefined")
  end.

(** [JSON.stringify(payload)] used as a string. *)
Definition stringifyPayload (payload : JsValue) : result string :=
  r <- JSON.stringify payload ;;
  match r with
  | Some s => Ok s
  | None => Throw (newTypeError "The first argument must be of type string")
  end.

Definition encodePrelude (headers : JsValue) (opts : EncodeOptions.t)
  : result Buffer.t :=
  magics <- assertMagicList (option_map One (EncodeOptions.magic opts)) ;;
  let version := EncodeOptions.version opts ?? DEFAULT_VERSION in
  let maxJsonBytes := EncodeOptions.maxJsonBytes opts ?? DEFAULT_MAX_JSON_BYTES in
  validateHeaders headers ;;
  jsonString <- stringifyPayload (withVersion version headers) ;;
  let jsonBuffer := Buffer.from_string jsonString in
  validateJsonLength (Buffer.length jsonBuffer) maxJsonBytes ;;
  magic <- firstMagic magics ;;
  makePreludeBuffer magic jsonBuffer.

Record Decoded : Type := mkDecoded { headers : JsValue; offset : Z }.

(** [JSON.parse] inside [try { } catch { throw new PreludeJsonParseError() }] *)
Definition parsePayload (jsonBuffer : Buffer.t) : result JsValue :=
  match JSON.parse (Buffer.toString jsonBuffer) with
  | Ok parsed => Ok parsed
  | Throw _ => Throw (newPreludeJsonParseError None)
  end.

Definition matchesAny (magics : list Buffer.t) (slice : Buffer.t) : bool :=
  existsb (fun m => Buffer.equals slice m) magics.

Definition decodePrelude (buffer : Buffer.t) (opts : DecodeOptions.t)
  : result Decoded :=
  magics <- assertMagicList (DecodeOptions.magic opts) ;;
  let maxJsonBytes := DecodeOptions.maxJsonBytes opts ?? DEFAULT_MAX_JSON_BYTES in
  if Buffer.length buffer <? MAGIC_LENGTH + LENGTH_BYTES then
    Throw newPreludeTruncatedError
  else
    let sliceMagic := Buffer.subarray buffer 0 MAGIC_LENGTH in
    if negb (matchesAny magics sliceMagic) then
      Throw (newPreludeMagicMismatchError None)
    else
      jsonLength <- Buffer.readUInt32BE buffer MAGIC_LENGTH ;;
      validateJsonLength jsonLength maxJsonBytes ;;
      let start := MAGIC_LENGTH + LENGTH_BYTES in
      let stop := start + jsonLength in
      if Buffer.length buffer <? stop then Throw newPreludeTruncatedError
      else
        parsed <- parsePayload (Buffer.subarray buffer start stop) ;;
        if negb (isPlainObject parsed) then Throw newPreludeInvalidTypeError
        else Ok (mkDecoded parsed stop).

Definition getPreludeSize (headers : JsValue) (opts : EncodeOptions.t)
  : result Z :=
  magics <- assertMagicList (option_map One (EncodeOptions.magic opts)) ;;
  let version := EncodeOptions.version opts ?? DEFAULT_VERSION in
  let maxJsonBytes := EncodeOptions.maxJsonBytes opts ?? DEFAULT_MAX_JSON_BYTES in
  validateHeaders headers ;;
  jsonString <- stringifyPayload (withVersion version headers) ;;
  let jsonLength := Buffer.byteLength jsonString in
  validateJsonLength jsonLength maxJsonBytes ;;
  magic <- firstMagic magics ;;
  Ok (Buffer.length magic + LENGTH_BYTES + jsonLength).

(* ------------------------------------------------------------------ *)
(** ** Node's [Readable], as far as the API uses it                     *)
(* ------------------------------------------------------------------ *)

Module Readable.

(** What the producer behind a stream does next. *)
Inductive Event : Type :=
| Data (chunk : Buffer.t)     (* a chunk arrives in the internal buffer *)
| End                         (* end of input *)
| Failure (e : Error).           (* the stream errors *)

Record t : Type := make
  { buffered : Buffer.t;             (* the internal buffer *)
    ended : bool;                    (* end of input has been signalled *)
    readableEnded : bool;            (* 'end' has been emitted *)
    readableFlowing : option bool;   (* null, false or true *)
    dataListeners : nat;             (* listenerCount('data') *)
    destroyed : bool;
    errored : option Error;
    hasUnshift : bool;               (* typeof unshift === 'function' *)
    upcoming : list Event }.         (* the producer's script *)

Definition readableLength (s : t) : Z := Buffer.length (buffered s).

Definition with_buffered (b : Buffer.t) (s : t) : t :=
  make b (ended s) (readableEnded s) (readableFlowing s) (dataListeners s)
       (destroyed s) (errored s) (hasUnshift s) (upcoming s).
Definition with_ended (e : bool) (s : t) : t :=
  make (buffered s) e (readableEnded s) (readableFlowing s) (dataListeners s)
       (destroyed s) (errored s) (hasUnshift s) (upcoming s).
Definition with_readableEnded (e : bool) (s : t) : t :=
  make (buffered s) (ended s) e (readableFlowing s) (dataListeners s)
       (destroyed s) (errored s) (hasUnshift s) (upcoming s).
Definition with_flowing (f : option bool) (s : t) : t :=
  make (buffered s) (ended s) (readableEnded s) f (dataListeners s)
       (destroyed s) (errored s) (hasUnshift s) (upcoming s).
Definition with_upcoming (u : list Event) (s : t) : t :=
  make (buffered s) (ended s) (readableEnded s) (readableFlowing s)
       (dataListeners s) (destroyed s) (errored s) (hasUnshift s) u.

(** [stream.pause()] *)
Definition pause (s : t) : t := with_flowing (Some false) s.

(** [stream.read(n)] for [n > 0] in byte mode: [n] bytes when the buffer
    holds them; after end of input whatever is left; otherwise [null]. *)
Definition read (s : t) (n : Z) : option Buffer.t * t :=
  let len := readableLength s in
  if n <=? 0 then (None, s)
  else if n <=? len then
    (Some (firstn (Z.to_nat n) (buffered s)),
     with_buffered (skipn (Z.to_nat n) (buffered s)) s)
  else if ended s && (0 <? len) then
    (Some (buffered s), with_buffered [] s)
  else (None, s).

(** [stream.unshift(chunk)] *)
Definition unshift (chunk : Buffer.t) (s : t) : t :=
  if readableEnded s then
    if destroyed s then s
    else make (buffered s) (ended s) true (readableFlowing s)
              (dataListeners s) true
              (Some (mkError SourceError "stream.unshift() after end event"))
              (hasUnshift s) (upcoming s)
  else if destroyed s then s
  else with_buffered (chunk ++ buffered s) s.

(** [stream.destroy(error)]: a destroyed stream stays as it is. *)
Definition destroy (e : Error) (s : t) : t :=
  if destroyed s then s
  else make (buffered s) (ended s) (readableEnded s) (readableFlowing s)
            (dataListeners s) true (Some e) (hasUnshift s) (upcoming s).

(** [source.pipe(dest)] on the side of the source: a 'data' listener is
    attached and the source resumes. *)
Definition piped (s : t) : t :=
  make (buffered s) (ended s) (readableEnded s) (Some true)
       (S (dataListeners s)) (destroyed s) (errored s) (hasUnshift s)
       (upcoming s).

(** The bytes the producer still delivers before end of input or failure. *)
Fixpoint future (events : list Event) : Buffer.t :=
  match events with
  | Data chunk :: rest => chunk ++ future rest
  | _ => []
  end.

(** Every byte a consumer of the stream can still obtain, in order. *)
Definition content (s : t) : Buffer.t :=
  buffered s ++ (if ended s then [] else future (upcoming s)).

(** A stream that 'end' was emitted on has ended and is drained. *)
Definition consistent (s : t) : Prop :=
  readableEnded s = true -> ended s = true /\ buffered s = [].

(** [stream.destroy()] without an error, as Node calls it on a stream that
    has emitted 'end' ([autoDestroy], the default). *)
Definition autoDestroy (s : t) : t :=
  if destroyed s then s
  else make (buffered s) (ended s) (readableEnded s) (readableFlowing s)
            (dataListeners s) true (errored s) (hasUnshift s) (upcoming s).

(** The last 'readable' listener is removed: a stream that has 'data'
    listeners resumes and hands them what it holds; a stream without them
    is left in no mode. *)
Definition released (s : t) : t :=
  if (0 <? dataListeners s)%nat then
    make [] (ended s) (readableEnded s) (Some true) (dataListeners s)
         (destroyed s) (errored s) (hasUnshift s) (upcoming s)
  else with_flowing None s.

(** Whether the stream hands what it receives to 'data' listeners. *)
Definition delivering (s : t) : bool :=
  match readableFlowing s with
  | Some true => (0 <? dataListeners s)%nat
  | _ => false
  end.

(** What a consumer sees next that has attached one-time listeners for
    'readable', 'end' and 'error' and removes them at the first event.  A
    destroyed stream emits nothing.  A stream that holds bytes emits
    'readable' at once, with nothing new; an empty one emits it when the
    producer delivers or ends the input.  An ended and drained stream
    emits 'end' and is destroyed.  Whatever the event, the 'readable'
    listener is removed. *)
Inductive Wake : Type :=
| OnReadable (s : t)
| OnEnd (s : t)
| OnError (e : Error) (s : t)
| Never.

Definition await (s : t) : Wake :=
  if destroyed s then Never
  else
    match buffered s with
    | _ :: _ => OnReadable (released s)
    | [] =>
        if ended s then
          OnEnd (released (autoDestroy (with_readableEnded true s)))
        else
          match upcoming s with
          | [] => Never
          | Data chunk :: rest =>
              OnReadable (released (with_upcoming rest (with_buffered chunk s)))
          | End :: rest =>
              OnReadable (released (with_upcoming rest (with_ended true s)))
          | Failure e :: rest =>
              OnError e (released (with_upcoming rest (destroy e s)))
          end
    end.

(** The test helper [createReadableFromChunks]: every chunk written, then
    [end()]. *)
Definition fromChunks (chunks : list Buffer.t) : t :=
  make (Buffer.concat chunks) true false None O false None true [].

(** A source in no mode that receives [chunks] one by one, each at a later
    time than the one before, and then ends. *)
Definition arriving (chunks : list Buffer.t) : t :=
  make [] false false None O false None true (map Data chunks ++ [End]).

End Readable.

(** An [async] function settles or stays pending. *)
Inductive Promise (A : Type) : Type :=
| Resolved (value : A)
| Rejected (e : Error)
| Pending.
Arguments Resolved {A} value.
Arguments Rejected {A} e.
Arguments Pending {A}.

(** An [async] function over one source: it runs from a state of the
    source and leaves it in another. *)
Definition Async (A : Type) : Type := Readable.t -> Promise A * Readable.t.

Definition resolve {A} (a : A) : Async A := fun s => (Resolved a, s).
Definition reject {A} (e : Error) : Async A := fun s => (Rejected e, s).

Definition bindA {A B} (m : Async A) (k : A -> Async B) : Async B :=
  fun s =>
    match m s with
    | (Resolved a, s') => k a s'
    | (Rejected e, s') => (Rejected e, s')
    | (Pending, s') => (Pending, s')
    end.

(** A synchronous call inside an [async] function. *)
Definition sync {A} (r : result A) : Async A :=
  match r with
  | Ok a => resolve a
  | Throw e => reject e
  end.

(** A method call on the source. *)
Definition call (method : Readable.t -> Readable.t) : Async unit :=
  fun s => (Resolved tt, method s).
Definition inspect {A} (property : Readable.t -> A) : Async A :=
  fun s => (Resolved (property s), s).

(** [try { body } catch (error) { handler }] *)
Definition tryCatch {A} (body : Async A) (handler : Error -> Async A) : Async A :=
  fun s =>
    match body s with
    | (Rejected e, s') => handler e s'
    | settled => settled
    end.

Declare Scope async_scope.
Delimit Scope async_scope with async.
Notation "x <~ c1 ;; c2" := (bindA c1 (fun x => c2))
  (at level 61, c1 at next level, right associativity) : async_scope.
Notation "c1 ~;; c2" := (bindA c1 (fun _ => c2))
  (at level 61, right associativity) : async_scope.

(** *** [readExactly] ([utils.ts]) *)

(** The [while (collected < size)] loop; [None] when [fuel] iterations were
    not enough. *)
Fixpoint readExactly_loop (fuel : nat) (stream : Readable.t) (size : Z)
         (buffers : list Buffer.t) (collected : Z)
  : option (Promise Buffer.t * Readable.t) :=
  match fuel with
  | O => None
  | S fuel' =>
      if collected <? size then
        let (chunk, stream) := Readable.read stream (size - collected) in
        match chunk with
        | Some buf =>
            readExactly_loop fuel' stream size (buffers ++ [buf])
                             (collected + Buffer.length buf)
        | None =>
            if Readable.readableEnded stream then
              Some (Rejected newPreludeTruncatedError, stream)
            else
              match Readable.await stream with
              | Readable.OnReadable stream' =>
                  readExactly_loop fuel' stream' size buffers collected
              | Readable.OnEnd stream' =>
                  Some (Rejected newPreludeTruncatedError, stream')
              | Readable.OnError e stream' => Some (Rejected e, stream')
              | Readable.Never => Some (Pending, stream)
              end
        end
      else
        Some (Resolved (match buffers with
                        | [only] => only
                        | _ => Buffer.concat buffers
                        end), stream)
  end.

(** A loop that stops does so within this many iterations: each one
    returns, uses up an event of the producer, is one of the at most two
    reads that yield bytes, or is the one wake that hands the buffer to
    'data' listeners.  A loop that does not stop by then never does: it is
    woken again and again by a 'readable' event that brings nothing new,
    and the promise is never settled. *)
Definition readExactly_fuel (stream : Readable.t) : nat :=
  List.length (Readable.upcoming stream) + 4.

Definition readExactly (size : Z) : Async Buffer.t :=
  fun stream =>
    match readExactly_loop (readExactly_fuel stream) stream size [] 0 with
    | Some outcome => outcome
    | None => (Pending, stream)
    end.

(** *** The remainder stream *)

Inductive Remainder : Type :=
| TheSource                   (* the source object itself *)
| Relay (written : Buffer.t). (* a new [PassThrough] holding [written], with
                                 the source piped into it *)

(** The bytes a consumer of the remainder obtains, given the source: a
    relay delivers what was written to it and then what the source hands it,
    which is nothing unless the source is piped into it. *)
Definition remainderBytes (r : Remainder) (source : Readable.t) : Buffer.t :=
  match r with
  | TheSource => Readable.content source
  | Relay written =>
      written ++ (if Readable.delivering source then Readable.content source
                  else [])
  end.

Definition truthy (flowing : option bool) : bool :=
  match flowing with Some true => true | _ => false end.

Definition _tryUnshiftRemainder (source : Readable.t) : option Remainder :=
  if negb (Readable.hasUnshift source) then None
  else if truthy (Readable.readableFlowing source) then None
  else if Readable.readableLength source >? 0 then None
  else Some TheSource.

Definition _createPassThroughRemainder : Async Remainder :=
  fun source => (Resolved (Relay []), Readable.piped source).

Definition _tryUnshiftRemainderWithBytes (bytes : Buffer.t)
  : Readable.t -> option Remainder * Readable.t :=
  fun source =>
    if negb (Readable.hasUnshift source) then (None, source)
    else if truthy (Readable.readableFlowing source) then (None, source)
    else if Readable.readableLength source >? 0 then (None, source)
    else (Some TheSource, Readable.unshift bytes source).

Definition _createPassThroughRemainderWithBytes (bytes : Buffer.t)
  : Async Remainder :=
  fun source => (Resolved (Relay bytes), Readable.piped source).

(** [a || b] over the two ways to build the remainder. *)
Definition orElse (first : Readable.t -> option Remainder * Readable.t)
           (second : Async Remainder) : Async Remainder :=
  fun source =>
    match first source with
    | (Some r, source') => (Resolved r, source')
    | (None, source') => second source'
    end.

(* ------------------------------------------------------------------ *)
(** ** The stream API: [frameStream], [parsePrelude], [isFramedStream]  *)
(* ------------------------------------------------------------------ *)

Local Open Scope async_scope.

Module ParsePreludeResult.
Record t : Type := make { headers : JsValue; remainder : Remainder }.
End ParsePreludeResult.

(** [source.readableFlowing === true && source.listenerCount('data') > 0] *)
Definition activelyFlowing (source : Readable.t) : bool :=
  match Readable.readableFlowing source with
  | Some true => (0 <? Readable.dataListeners source)%nat
  | _ => false
  end.

(** The call of the observer inside [try { } catch { }]: whatever happens in
    it is dropped. *)
Definition notify (observer : option (JsValue -> bool)) (headers : JsValue)
  : Async unit :=
  match observer with
  | Some callback => let _ := callback headers in resolve tt
  | None => resolve tt
  end.

(** [parsePrelude] from the first read on. *)
Definition parsePrelude_read (magics : list Buffer.t) (maxJsonBytes : Z)
           (opts : ParsePreludeOptions.t) : Async ParsePreludeResult.t :=
  receivedMagic <~ readExactly MAGIC_LENGTH ;;
  if negb (matchesAny magics receivedMagic) then
    if ParsePreludeOptions.requirePrelude opts then
      reject (newPreludeMagicMismatchError
                (Some "Missing or invalid prelude. Remove requirePrelude or pass correct magic."%string))
    else
      remainder <~ orElse (_tryUnshiftRemainderWithBytes receivedMagic)
                          (_createPassThroughRemainderWithBytes receivedMagic) ;;
      resolve (ParsePreludeResult.make (JObject []) remainder)
  else
    lengthBuffer <~ readExactly LENGTH_BYTES ;;
    jsonLength <~ sync (Buffer.readUInt32BE lengthBuffer 0) ;;
    sync (validateJsonLength jsonLength maxJsonBytes) ~;;
    jsonBuffer <~ readExactly jsonLength ;;
    parsed <~ sync (parsePayload jsonBuffer) ;;
    if negb (isPlainObject parsed) then reject newPreludeInvalidTypeError
    else
      notify (ParsePreludeOptions.onHeaders opts) parsed ~;;
      remainder <~ orElse (fun source => (_tryUnshiftRemainder source, source))
                          _createPassThroughRemainder ;;
      resolve (ParsePreludeResult.make parsed remainder).

(** The flow guard: the check on the consumption mode of the source. *)
Definition flowGuard (opts : ParsePreludeOptions.t) : Async unit :=
  flowing <~ inspect activelyFlowing ;;
  if flowing then
    if ParsePreludeOptions.autoPause opts then call Readable.pause
    else reject newPreludeFlowingModeError
  else resolve tt.

(** The body of the [try] block of [parsePrelude]. *)
Definition parsePrelude_try (magics : list Buffer.t) (maxJsonBytes : Z)
           (opts : ParsePreludeOptions.t) : Async ParsePreludeResult.t :=
  flowGuard opts ~;;
  call Readable.pause ~;;
  parsePrelude_read magics maxJsonBytes opts.

(** [catch (error) { source.destroy(error); throw error; }] *)
Definition destroyAndRethrow {A} (error : Error) : Async A :=
  call (Readable.destroy error) ~;; reject error.

Definition parsePrelude (opts : ParsePreludeOptions.t)
  : Async ParsePreludeResult.t :=
  magics <~ sync (assertMagicList (ParsePreludeOptions.magic opts)) ;;
  let maxJsonBytes :=
    (ParsePreludeOptions.maxJsonBytes opts ?? DEFAULT_MAX_JSON_BYTES)%js in
  tryCatch (parsePrelude_try magics maxJsonBytes opts) destroyAndRethrow.

Definition isFramedStream (magic : option MultipleMagic) : Async bool :=
  magics <~ sync (assertMagicList magic) ;;
  flowing <~ inspect activelyFlowing ;;
  if flowing then resolve false
  else
    call Readable.pause ~;;
    tryCatch (probe <~ readExactly MAGIC_LENGTH ;;
              resolve (matchesAny magics probe))
             (fun _ => resolve false).

(** [frameStream]: the checks of [encodePrelude], with [JSON.stringify]
    inside [try { } catch { throw new TypeError(...) }]; the framed stream is
    a new [PassThrough] that holds the prelude and has the source piped into
    it. *)
Definition stringifyOrTypeError (payload : JsValue) : result string :=
  match JSON.stringify payload with
  | Ok (Some s) => Ok s
  | Ok None => Throw (newTypeError "The first argument must be of type string")
  | Throw _ => Throw (newTypeError "headers must be JSON serializable")
  end.

Definition frameStream (source : Readable.t) (headers : JsValue)
           (opts : FrameStreamOptions.t) : result Readable.t :=
  (magics <- assertMagicList (FrameStreamOptions.magic opts) ;;
   let version := FrameStreamOptions.version opts ?? DEFAULT_VERSION in
   let maxJsonBytes :=
     FrameStreamOptions.maxJsonBytes opts ?? DEFAULT_MAX_JSON_BYTES in
   validateHeaders headers ;;
   jsonString <- stringifyOrTypeError (withVersion version headers) ;;
   let jsonBuffer := Buffer.from_string jsonString in
   validateJsonLength (Buffer.length jsonBuffer) maxJsonBytes ;;
   magic <- firstMagic magics ;;
   prelude <- makePreludeBuffer magic jsonBuffer ;;
   Ok (Readable.make (prelude ++ Readable.buffered source)
                     (Readable.ended source) false None O false None true
                     (Readable.upcoming source)))%js.

(* ------------------------------------------------------------------ *)
(** ** The push-mode adapter: [parsePreludeTransform]                   *)
(* ------------------------------------------------------------------ *)

Module Transform.

Inductive Stage : Type := magic | length | json | body.

(** The variables the [transform] callback closes over. *)
Record State : Type := mkState
  { stage : Stage; needed : Z; buffer : Buffer.t; jsonLength : Z }.

Record Config : Type := mkConfig
  { magics : list Buffer.t; maxJsonBytes : Z }.

(** What the stream does towards its consumers, in program order. *)
Inductive Output : Type :=
| Emit (prelude : JsValue)    (* [this.emit('prelude', ...)] *)
| Push (bytes : Buffer.t).    (* [this.push(...)] *)

Definition initial : State := mkState magic MAGIC_LENGTH [] 0.

Definition is_body (s : Stage) : bool :=
  match s with body => true | _ => false end.

Definition pushNonEmpty (b : Buffer.t) : list Output :=
  if Buffer.length b =? 0 then [] else [Push b].

(** One pass through the [switch (stage)]: the outputs made and the new
    state, or the error thrown. *)
Definition switch (cfg : Config) (st : State) : list Output * result State :=
  match stage st with
  | magic =>
      let slice := Buffer.subarray (buffer st) 0 MAGIC_LENGTH in
      let buffer' := Buffer.subarray_from (buffer st) MAGIC_LENGTH in
      if negb (matchesAny (magics cfg) slice) then
        ([Emit (JObject []); Push slice] ++ pushNonEmpty buffer',
         Ok (mkState body 0 [] (jsonLength st)))
      else ([], Ok (mkState length LENGTH_BYTES buffer' (jsonLength st)))
  | length =>
      ([],
       (jsonLength' <- Buffer.readUInt32BE (buffer st) 0 ;;
        validateJsonLength jsonLength' (maxJsonBytes cfg) ;;
        Ok (mkState json jsonLength'
                    (Buffer.subarray_from (buffer st) LENGTH_BYTES)
                    jsonLength'))%js)
  | json =>
      let jsonBuffer := Buffer.subarray (buffer st) 0 (jsonLength st) in
      let buffer' := Buffer.subarray_from (buffer st) (jsonLength st) in
      match parsePayload jsonBuffer with
      | Throw e => ([], Throw e)
      | Ok parsed =>
          if negb (isPlainObject parsed) then
            ([], Throw newPreludeInvalidTypeError)
          else ([Emit parsed], Ok (mkState body 0 buffer' (jsonLength st)))
      end
  | body => ([], Ok st)
  end.

(** [while (buffer.length >= needed) { switch ...; if (stage === 'body')
    break; }]; [None] when [fuel] iterations were not enough. *)
Fixpoint while (fuel : nat) (cfg : Config) (st : State)
  : option (list Output * result State) :=
  match fuel with
  | O => None
  | S fuel' =>
      if needed st <=? Buffer.length (buffer st) then
        match switch cfg st with
        | (out, Ok st') =>
            if is_body (stage st') then Some (out, Ok st')
            else
              match while fuel' cfg st' with
              | Some (out', r) => Some (out ++ out', r)
              | None => None
              end
        | (out, Throw e) => Some (out, Throw e)
        end
      else Some ([], Ok st)
  end.

(** [if (stage === 'body' && buffer.length) { this.push(buffer); buffer =
    Buffer.alloc(0); }] *)
Definition forwardBody (st : State) : list Output * State :=
  if is_body (stage st) && negb (Buffer.length (buffer st) =? 0) then
    ([Push (buffer st)], mkState (stage st) (needed st) [] (jsonLength st))
  else ([], st).

(** The [transform(chunk, _enc, cb)] callback: the outputs made, and the
    state for the next chunk or the error handed to [cb].  A pass leaves
    the stage it is in, so the loop runs at most three times before the
    body stage ends it. *)
Definition transform (cfg : Config) (st : State) (chunk : Buffer.t)
  : list Output * result State :=
  let st := mkState (stage st) (needed st) (buffer st ++ chunk) (jsonLength st) in
  match while 4 cfg st with
  | None => ([], Ok st)
  | Some (out, Throw e) => (out, Throw e)
  | Some (out, Ok st') =>
      let (out', st'') := forwardBody st' in (out ++ out', Ok st'')
  end.

(** The chunks written to the stream, one [transform] call each; an error
    handed to [cb] destroys the stream and nothing runs after it.  The
    stream has no [flush]: the end of input makes no output. *)
Fixpoint feed (cfg : Config) (st : State) (chunks : list Buffer.t)
  : list Output * result State :=
  match chunks with
  | [] => ([], Ok st)
  | chunk :: rest =>
      match transform cfg st chunk with
      | (out, Ok st') =>
          let (out', r) := feed cfg st' rest in (out ++ out', r)
      | (out, Throw e) => (out, Throw e)
      end
  end.

Definition emitted (out : list Output) : list JsValue :=
  flat_map (fun o => match o with Emit h => [h] | Push _ => [] end) out.

Definition pushed (out : list Output) : Buffer.t :=
  flat_map (fun o => match o with Emit _ => [] | Push b => b end) out.

End Transform.

(** [parsePreludeTransform(opts)] and the chunks then written to it. *)
Definition parsePreludeTransform (opts : ParsePreludeOptions.t)
  : result Transform.Config :=
  (magics <- assertMagicList (ParsePreludeOptions.magic opts) ;;
   let maxJsonBytes :=
     ParsePreludeOptions.maxJsonBytes opts ?? DEFAULT_MAX_JSON_BYTES in
   Ok (Transform.mkConfig magics maxJsonBytes))%js.

Definition runTransform (opts : ParsePreludeOptions.t) (chunks : list Buffer.t)
  : result (list Transform.Output * result Transform.State) :=
  (cfg <- parsePreludeTransform opts ;;
   Ok (Transform.feed cfg Transform.initial chunks))%js.

(* ------------------------------------------------------------------ *)
(** ** Predicates the properties are stated with                        *)
(* ------------------------------------------------------------------ *)

(** The values JSON represents: null, booleans, finite numbers (a literal
    of the JSON grammar), strings, arrays and plain objects of such values.
    An object holds each key once. *)
Fixpoint representable (v : JsValue) : bool :=
  match v with
  | JNull | JBool _ | JString _ => true
  | JNumber (Finite lit) => JSON.is_number_literal (list_ascii_of_string lit)
  | JNumber _ => false
  | JArray items => forallb representable items
  | JObject props =>
      Obj.distinct (Obj.keys props)
      && forallb (fun kv => representable (snd kv)) props
  | _ => false
  end.

(** A valid header: a plain object of representable values that does not
    declare the reserved key. *)
Definition validHeader (h : JsValue) : bool :=
  isPlainObject h && representable h && negb (Obj.hasOwn "v" (ownProps h)).

(** The header a decoder sees: the version first, then the caller's
    entries. *)
Definition versioned (version : JsNumber) (h : JsValue) : JsValue :=
  JObject (("v"%string, JNumber version) :: ownProps h).

(** The texts [JSON.render] nests: the elements of an array after the
    bracket, the members of an object after the brace. *)
Fixpoint render_elements (l : list JsValue) (first : bool) : JSON.text :=
  match l with
  | [] => ["]"%char]
  | x :: rest => JSON.comma first ++ JSON.render x ++ render_elements rest false
  end.

Fixpoint render_members (l : list (string * JsValue)) (first : bool) : JSON.text :=
  match l with
  | [] => ["}"%char]
  | (k, x) :: rest =>
      if JSON.omitted x then render_members rest first
      else JSON.comma first ++ JSON.quote k ++ ":"%char :: JSON.render x
             ++ render_members rest false
  end.

(** Calls of the parser the text of a value needs at most. *)
Fixpoint weight (v : JsValue) : nat :=
  match v with
  | JArray items => S (list_sum (map (fun x => S (weight x)) items))
  | JObject props => S (list_sum (map (fun kv => S (weight (snd kv))) props))
  | _ => 1
  end.

(** No character that could continue a number literal comes next. *)
Definition number_end (rest : JSON.text) : bool :=
  match rest with
  | [] => true
  | c :: _ => negb (JSON.is_number_char c)
  end.

(** [x] parses back from its text, whatever follows it. *)
Definition parses (x : JsValue) : Prop :=
  representable x = true ->
  forall fuel rest, (weight x <= fuel)%nat -> number_end rest = true ->
  JSON.parse_value fuel (JSON.render x ++ rest) = Some (x, rest).

(** One member of an object: the quoted key, a colon, the value. *)
Definition member_text (k : string) (x : JsValue) (tail : JSON.text) : JSON.text :=
  JSON.quote k ++ ":"%char :: JSON.render x ++ tail.

(** A value that [assertSerializable] cannot accept is somewhere inside. *)
Fixpoint unserializable (v : JsValue) : bool :=
  match v with
  | JNull | JBool _ | JNumber _ | JString _ => false
  | JArray items => existsb unserializable items
  | JObject props => existsb (fun kv => unserializable (snd kv)) props
  | _ => true
  end.

(** A non-finite number is somewhere inside. *)
Fixpoint hasNonFinite (v : JsValue) : bool :=
  match v with
  | JNumber (Finite _) => false
  | JNumber _ => true
  | JArray items => existsb hasNonFinite items
  | JObject props => existsb (fun kv => hasNonFinite (snd kv)) props
  | _ => false
  end.

(** A version number the payload can carry as it is. *)
Definition numberOk (n : JsNumber) : bool := representable (JNumber n).

(** The text of the payload of a valid header. *)
Definition payloadText (version : JsNumber) (h : JsValue) : string :=
  string_of_list_ascii (JSON.render (versioned version h)).


(** How the producer closes the stream: [Some None] by ending it,
    [Some (Some e)] by failing with [e], [None] never. *)
Fixpoint closingEvent (events : list Readable.Event) : option (option Error) :=
  match events with
  | [] => None
  | Readable.Data _ :: rest => closingEvent rest
  | Readable.End :: _ => Some None
  | Readable.Failure e :: _ => Some (Some e)
  end.

Definition closing (s : Readable.t) : option (option Error) :=
  if Readable.ended s then Some None else closingEvent (Readable.upcoming s).

(** What a read that waits for the stream to close settles with. *)
Definition closingOutcome (c : option (option Error)) : Promise Buffer.t :=
  match c with
  | Some None => Rejected newPreludeTruncatedError
  | Some (Some e) => Rejected e
  | None => Pending
  end.

(** A settled or pending call that did not leave a stream destroyed for
    another reason than the error it rejects with, or than the end of the
    stream when it rejects with the truncation error: a stream that has
    emitted 'end' is destroyed by Node, without an error. *)
Definition accountsFor {A} (outcome : Promise A * Readable.t) : Prop :=
  match outcome with
  | (Rejected e, s') =>
      Readable.destroyed s' = false
      \/ Readable.errored s' = Some e
      \/ (e = newPreludeTruncatedError /\ Readable.readableEnded s' = true)
  | (Resolved _, s') => Readable.destroyed s' = false
  | (Pending, _) => True
  end.

(** An [async] step that keeps a live source live unless it rejects and
    accounts for it. *)
Definition keepsLive {A} (m : Async A) : Prop :=
  forall s, Readable.destroyed s = false -> accountsFor (m s).

(** The same for the last steps of a function, which may resolve however
    they leave the source. *)
Definition rejectsLive {A} (m : Async A) : Prop :=
  forall s e s',
    Readable.destroyed s = false -> m s = (Rejected e, s') ->
    accountsFor (@Rejected A e, s').

(* ------------------------------------------------------------------ *)
(** ** Inputs of the scenarios and of the concrete checks               *)
(* ------------------------------------------------------------------ *)

(** Scenario A: [{ contentType: 'text/plain' }] *)
Definition textPlain : JsValue :=
  JObject [("contentType", JString "text/plain")]%string.

(** A valid header whose payload exceeds the default maximum. *)
Definition bigHeader : JsValue :=
  JObject [("data"%string,
            JString (string_of_list_ascii (repeat "x"%char (Z.to_nat 16385))))].

(** A header holding [NaN]. *)
Definition nanHeader : JsValue := JObject [("x"%string, JNumber NaN)].


(** Scenario A on the wire: the frame of [textPlain] under the default
    options, and the body. *)
Definition helloFrame : Buffer.t :=
  Buffer.from_string "PRE1"
    ++ [x00; x00; x00; x22]
    ++ Buffer.from_string (dq "{'v':1,'contentType':'text/plain'}").

Definition helloBody : Buffer.t := Buffer.from_string "Hello world!".

(** A buffer split at every byte offset. *)
Definition everyByte (b : Buffer.t) : list Buffer.t := map (fun x => [x]) b.

(** Scenario D: a stream that starts with XXXX. *)
Definition noPrelude : Buffer.t := Buffer.from_string "XXXXno prelude data".

(** Scenario D with the input arriving in three chunks. *)
Definition noPreludeSource : Readable.t :=
  Readable.arriving [Buffer.from_string "XX"; Buffer.from_string "XXno prelude";
                     Buffer.from_string " data"].


(** A source that ends after two bytes. *)
Definition truncatedSource : Readable.t :=
  Readable.fromChunks [Buffer.from_string "PR"].

(** A source that fails after two bytes. *)
Definition failingSource : Readable.t :=
  Readable.make [] false false None O false None true
                [Readable.Data (Buffer.from_string "PR");
                 Readable.Failure (mkError SourceError "connection reset")].

(** A source holding a frame and a body. *)
Definition helloSource : Readable.t :=
  Readable.arriving [helloFrame; helloBody].

(** The frame of [textPlain] encoded with the version [NaN]. *)
Definition nullVersionFrame : Buffer.t :=
  Buffer.from_string "PRE1"
    ++ [x00; x00; x00; x25]
    ++ Buffer.from_string (dq "{'v':null,'contentType':'text/plain'}").

(** The frame of scenario A arriving field by field, then the body. *)
Definition alignedSource : Readable.t :=
  Readable.arriving
    [Buffer.from_string "PRE1"; [x00; x00; x00; x22];
     Buffer.from_string (dq "{'v':1,'contentType':'text/plain'}"); helloBody].

(** A source in flowing mode with a 'data' listener that holds nothing yet
    and receives the frame and the body later. *)
Definition lateFlowingSource : Readable.t :=
  Readable.make [] false false (Some true) 1 false None true
                [Readable.Data helloFrame; Readable.Data helloBody; Readable.End].

(** Scenario D held by a stream that was written to and ended, as the
    tests of the repository build their sources. *)
Definition noPreludeWritten : Readable.t := Readable.fromChunks [noPrelude].

(* ------------------------------------------------------------------ *)
(** ** What one [transform] call does, stage by stage                   *)
(* ------------------------------------------------------------------ *)

(** The outcome of a call that enters a stage with [d] in the accumulation
    buffer; [jl] is the stored payload length.  These are the paths through
    the loop of [Transform.transform], written out. *)
Definition after_json (n : Z) (d : Buffer.t)
  : list Transform.Output * result Transform.State :=
  if n <=? Buffer.length d then
    match parsePayload (Buffer.subarray d 0 n) with
    | Throw e => ([], Throw e)
    | Ok parsed =>
        if negb (isPlainObject parsed) then ([], Throw newPreludeInvalidTypeError)
        else ([Transform.Emit parsed]
                ++ Transform.pushNonEmpty (Buffer.subarray_from d n),
              Ok (Transform.mkState Transform.body 0 [] n))
    end
  else ([], Ok (Transform.mkState Transform.json n d n)).

Definition after_length (cfg : Transform.Config) (jl : Z) (d : Buffer.t)
  : list Transform.Output * result Transform.State :=
  if LENGTH_BYTES <=? Buffer.length d then
    match (n <- Buffer.readUInt32BE d 0 ;;
           validateJsonLength n (Transform.maxJsonBytes cfg) ;; Ok n)%js with
    | Throw e => ([], Throw e)
    | Ok n => after_json n (Buffer.subarray_from d LENGTH_BYTES)
    end
  else ([], Ok (Transform.mkState Transform.length LENGTH_BYTES d jl)).

Definition after_magic (cfg : Transform.Config) (jl : Z) (d : Buffer.t)
  : list Transform.Output * result Transform.State :=
  if MAGIC_LENGTH <=? Buffer.length d then
    if negb (matchesAny (Transform.magics cfg) (Buffer.subarray d 0 MAGIC_LENGTH)) then
      ([Transform.Emit (JObject []);
        Transform.Push (Buffer.subarray d 0 MAGIC_LENGTH)]
         ++ Transform.pushNonEmpty (Buffer.subarray_from d MAGIC_LENGTH),
       Ok (Transform.mkState Transform.body 0 [] jl))
    else after_length cfg jl (Buffer.subarray_from d MAGIC_LENGTH)
  else ([], Ok (Transform.mkState Transform.magic MAGIC_LENGTH d jl)).

Definition after (cfg : Transform.Config) (st : Transform.State) (d : Buffer.t)
  : list Transform.Output * result Transform.State :=
  match Transform.stage st with
  | Transform.magic => after_magic cfg (Transform.jsonLength st) d
  | Transform.length => after_length cfg (Transform.jsonLength st) d
  | Transform.json => after_json (Transform.jsonLength st) d
  | Transform.body =>
      (Transform.pushNonEmpty d,
       Ok (Transform.mkState Transform.body 0 [] (Transform.jsonLength st)))
  end.

(** The states between two calls: the stage waits for more bytes than the
    buffer holds, or the body stage has forwarded everything. *)
Definition resting (st : Transform.State) : Prop :=
  match Transform.stage st with
  | Transform.magic =>
      Transform.needed st = MAGIC_LENGTH
      /\ Buffer.length (Transform.buffer st) < MAGIC_LENGTH
  | Transform.length =>
      Transform.needed st = LENGTH_BYTES
      /\ Buffer.length (Transform.buffer st) < LENGTH_BYTES
  | Transform.json =>
      Transform.needed st = Transform.jsonLength st
      /\ Buffer.length (Transform.buffer st) < Transform.jsonLength st
  | Transform.body => Transform.needed st = 0 /\ Transform.buffer st = []
  end.

(** Two outcomes a consumer cannot tell apart: the same header events, the
    same bytes, the same state or error. *)
Definition sameOutcome (x y : list Transform.Output * result Transform.State)
  : Prop :=
  snd x = snd y
  /\ Transform.emitted (fst x) = Transform.emitted (fst y)
  /\ Transform.pushed (fst x) = Transform.pushed (fst y).

(** The outcome [x] of a call, followed by a call with [c]. *)
Definition thenFeed (cfg : Transform.Config)
           (x : list Transform.Output * result Transform.State) (c : Buffer.t)
  : list Transform.Output * result Transform.State :=
  match x with
  | (out, Throw e) => (out, Throw e)
  | (out, Ok st) =>
      let (out', r) := after cfg st (Transform.buffer st ++ c) in
      (out ++ out', r)
  end.

(** The part of [Transform.transform] after the loop. *)
Definition settle (r : option (list Transform.Output * result Transform.State))
           (st : Transform.State)
  : list Transform.Output * result Transform.State :=
  match r with
  | None => ([], Ok st)
  | Some (out, Throw e) => (out, Throw e)
  | Some (out, Ok st') =>
      let (out', st'') := Transform.forwardBody st' in (out ++ out', Ok st'')
  end.

(** What the consumers have seen when a stream stands at [r] after the
    outputs [out]: in the body stage the header event and then pushes only;
    before it, and after an error, nothing. *)
Definition headerThenBody (out : list Transform.Output)
           (r : result Transform.State) : Prop :=
  match r with
  | Ok st =>
      if Transform.is_body (Transform.stage st) then
        exists h pushes, out = Transform.Emit h :: map Transform.Push pushes
      else out = []
  | Throw _ => out = []
  end.
(* ------------------------------------------------------------------ *)
(** ** Further predicates                                               *)
(* ------------------------------------------------------------------ *)

(** The bytes of a marker as it is given, and the markers an option
    stands for. *)
Definition magicBytes (m : Magic) : Buffer.t :=
  match m with
  | MagicBuffer b => b
  | MagicString s => Buffer.from_string s
  end.

Definition magicItems (magic : option MultipleMagic) : list Magic :=
  match magic with
  | None => [MagicString DEFAULT_MAGIC]
  | Some (Many ms) => ms
  | Some (One m) => [m]
  end.

(** What [validateHeaders] asks of a header. *)
Definition acceptedHeader (h : JsValue) : bool :=
  isPlainObject h && negb (Obj.hasOwn "v" (ownProps h)) && negb (unserializable h).

(** [parsePrelude] from the point where the four length bytes have been
    read. *)
Definition parsePrelude_payload (maxJsonBytes : Z) (opts : ParsePreludeOptions.t)
           (lengthBuffer : Buffer.t) : Async ParsePreludeResult.t :=
  jsonLength <~ sync (Buffer.readUInt32BE lengthBuffer 0) ;;
  sync (validateJsonLength jsonLength maxJsonBytes) ~;;
  jsonBuffer <~ readExactly jsonLength ;;
  parsed <~ sync (parsePayload jsonBuffer) ;;
  if negb (isPlainObject parsed) then reject newPreludeInvalidTypeError
  else
    notify (ParsePreludeOptions.onHeaders opts) parsed ~;;
    remainder <~ orElse (fun source => (_tryUnshiftRemainder source, source))
                        _createPassThroughRemainder ;;
    resolve (ParsePreludeResult.make parsed remainder).

(** How a call that waits for bytes that never come settles: rejected with
    the truncation error when the stream ends, with the error of the stream
    when it fails, and not at all when the producer goes silent. *)
Definition settledBy {A} (c : option (option Error)) : Promise A :=
  match c with
  | Some None => Rejected newPreludeTruncatedError
  | Some (Some e) => Rejected e
  | None => Pending
  end.

(** The decoder options that correspond to parser options. *)
Definition decodeOptionsOf (opts : ParsePreludeOptions.t) : DecodeOptions.t :=
  DecodeOptions.make (ParsePreludeOptions.magic opts)
                     (ParsePreludeOptions.maxJsonBytes opts).

(** The source at the moment a reader that waits on it is first woken
    with bytes in the buffer: as it is when it holds bytes (or has ended,
    is destroyed, or has 'data' listeners, which take what arrives); with
    the next chunk of the producer in the buffer otherwise, the wait having
    left it in no mode. *)
Definition arrived (s : Readable.t) : Readable.t :=
  match Readable.buffered s with
  | _ :: _ => s
  | [] =>
      if Readable.ended s || Readable.destroyed s
         || (0 <? Readable.dataListeners s)%nat then s
      else
        match Readable.upcoming s with
        | Readable.Data chunk :: rest =>
            Readable.with_flowing None
              (Readable.with_upcoming rest (Readable.with_buffered chunk s))
        | _ => s
        end
  end.

(** The bytes at hand: what the buffer holds then.  They are what a reader
    can take without waiting for a second delivery. *)
Definition atHand (s : Readable.t) : Buffer.t := Readable.buffered (arrived s).

(** A source that brings a waiting reader no further bytes: it has ended;
    or it has 'data' listeners, which are handed whatever it holds and
    receives while the reader waits; or it holds nothing and the producer's
    next act is not a delivery. *)
Definition closedOff (s : Readable.t) : bool :=
  Readable.ended s
  || (0 <? Readable.dataListeners s)%nat
  || match Readable.buffered s, Readable.upcoming s with
     | [], Readable.Data _ :: _ => false
     | [], _ => true
     | _ :: _, _ => false
     end.

(** A source on which a reader of [size] bytes is woken without end: it
    is live, has not ended and has no 'data' listener, and the bytes at
    hand are some but fewer than [size]. *)
Definition starving (size : Z) (s : Readable.t) : Prop :=
  Readable.destroyed s = false
  /\ Readable.ended s = false
  /\ Readable.readableEnded s = false
  /\ Readable.dataListeners s = O
  /\ 0 < Buffer.length (atHand s) < size.

(** What [JSON.stringify] writes for a number and [JSON.parse] reads back:
    the number itself when it is finite, [null] otherwise. *)
Definition writtenNumber (n : JsNumber) : JsValue :=
  match n with
  | Finite _ => JNumber n
  | _ => JNull
  end.

(** The header a decoder returns for a frame encoded with [version]. *)
Definition decodedHeader (version : JsNumber) (h : JsValue) : JsValue :=
  JObject (("v"%string, writtenNumber version) :: ownProps h).

(** A number of the model that stands for a JavaScript number: its
    literal, when it has one, is a literal of the JSON grammar. *)
Definition wellFormedNumber (n : JsNumber) : bool :=
  match n with
  | Finite lit => JSON.is_number_literal (list_ascii_of_string lit)
  | _ => true
  end.

(** A source a parse may read: live, not handed to another consumer (or
    [autoPause] is set), and in a state Node can leave it in. *)
Definition readable (opts : ParsePreludeOptions.t) (source : Readable.t) : Prop :=
  Readable.consistent source
  /\ Readable.destroyed source = false
  /\ (activelyFlowing source = false \/ ParsePreludeOptions.autoPause opts = true).

(** A source whose prelude declares a payload of 16385 bytes. *)
Definition oversizedSource : Readable.t :=
  Readable.arriving [Buffer.from_string "PRE1"; [x00; x00; x40; x01];
                     Buffer.from_string "{}"].
(* ------------------------------------------------------------------ *)
(** * Properties                                                       *)
(* ------------------------------------------------------------------ *)

(** ** The model of [JSON] on examples *)

Example JSON_stringify_example :
  JSON.stringify
    (JObject [("v", JNumber (Finite "1")); ("contentType", JString "text/plain");
              ("x", JUndefined); ("tags", JArray [JNull; JBool true; JNumber NaN])]%string)
  = Ok (Some (dq "{'v':1,'contentType':'text/plain','tags':[null,true,null]}")).
Proof. reflexivity. Qed.

Example JSON_parse_example :
  JSON.parse (dq " { 'v' : 1, 'a':[1.5e+3, 'x\nA'], 'v': {} } ")
  = Ok (JObject [("v", JObject []);
                 ("a", JArray [JNumber (Finite "1.5e+3");
                               JString (String (ascii_of_N 120)
                                          (String (ascii_of_N 10) "A"))])]%string).
Proof. reflexivity. Qed.


(** ** Scenarios of the specification on the buffer API *)

Example scenario_A_encode :
  map_result Buffer.toString (encodePrelude textPlain EncodeOptions.default)
  = Ok (String.append "PRE1"
          (String (ascii_of_N 0) (String (ascii_of_N 0) (String (ascii_of_N 0)
             (String (ascii_of_N 34)
                (dq "{'v':1,'contentType':'text/plain'}")))))).
Proof. reflexivity. Qed.

Example scenario_A_decode :
  (frame <- encodePrelude textPlain EncodeOptions.default ;;
   decodePrelude (frame ++ Buffer.from_string "Hello world!") DecodeOptions.default)
  = Ok (mkDecoded
          (JObject [("v", JNumber (Finite "1"));
                    ("contentType", JString "text/plain")]%string) 42).
Proof. reflexivity. Qed.

Example scenario_C_truncated :
  (frame <- encodePrelude textPlain EncodeOptions.default ;;
   decodePrelude (Buffer.subarray frame 0 6) DecodeOptions.default)
  = Throw newPreludeTruncatedError.
Proof. reflexivity. Qed.

Example getPreludeSize_example :
  getPreludeSize textPlain EncodeOptions.default = Ok 42.
Proof. reflexivity. Qed.

(** Scenario D: a stream that starts with XXXX, written and ended before
    it is parsed with the default options. *)
Example scenario_D_fallback :
  exists r s',
    parsePrelude ParsePreludeOptions.default noPreludeWritten
    = (Resolved (ParsePreludeResult.make (JObject []) r), s')
    /\ remainderBytes r s' = noPrelude.
Proof. eexists _, _. split; [vm_compute; reflexivity|reflexivity]. Qed.

(** A frame arriving in one chunk on a paused source: the header is
    returned and the remainder is the body. *)
Example parsePrelude_example :
  exists r s',
    parsePrelude ParsePreludeOptions.default helloSource
    = (Resolved (ParsePreludeResult.make (versioned DEFAULT_VERSION textPlain) r), s')
    /\ remainderBytes r s' = helloBody.
Proof. eexists _, _. split; [vm_compute; reflexivity|reflexivity]. Qed.

(** The same frame arriving field by field: every read finds its bytes in
    one delivery. *)
Example parsePrelude_aligned :
  exists r s',
    parsePrelude ParsePreludeOptions.default alignedSource
    = (Resolved (ParsePreludeResult.make (versioned DEFAULT_VERSION textPlain) r), s')
    /\ remainderBytes r s' = helloBody.
Proof. eexists _, _. split; [vm_compute; reflexivity|reflexivity]. Qed.

(** The same frame arriving byte by byte: the first read is never
    served. *)
Example parsePrelude_byte_by_byte :
  fst (parsePrelude ParsePreludeOptions.default
         (Readable.arriving (everyByte helloFrame)))
  = Pending.
Proof. vm_compute. reflexivity. Qed.

(** A source that fails before it delivers anything. *)
Example parsePrelude_failing_source :
  exists s',
    parsePrelude ParsePreludeOptions.default
      (Readable.make [] false false None O false None true
         [Readable.Failure (mkError SourceError "connection reset")])
    = (Rejected (mkError SourceError "connection reset"), s')
    /\ Readable.destroyed s' = true
    /\ Readable.errored s' = Some (mkError SourceError "connection reset").
Proof. eexists. split; [vm_compute; reflexivity|split; reflexivity]. Qed.

(** [autoPause] on a flowing source with a 'data' listener that receives
    the frame while the parse waits: the bytes go to the listener, and the
    parse sees the end of the source. *)
Example parsePrelude_autoPause_late_delivery :
  exists s',
    parsePrelude (ParsePreludeOptions.make None None false None true)
                 lateFlowingSource
    = (Rejected newPreludeTruncatedError, s')
    /\ Readable.content s' = [].
Proof. eexists. split; [vm_compute; reflexivity|reflexivity]. Qed.

Example isFramedStream_example :
  exists s',
    isFramedStream None helloSource = (Resolved true, s')
    /\ Readable.content s' = skipn 4 (helloFrame ++ helloBody).
Proof. eexists. split; [vm_compute; reflexivity|reflexivity]. Qed.

Example isFramedStream_truncated :
  fst (isFramedStream None truncatedSource) = Resolved false.
Proof. reflexivity. Qed.

(* ------------------------------------------------------------------ *)
(** ** Bytes, offsets and the frame layout                              *)
(* ------------------------------------------------------------------ *)

Lemma to_Z_of_Z z : Buffer.to_Z (Buffer.of_Z z) = z mod 256.
Proof.
  unfold Buffer.to_Z, Buffer.of_Z.
  assert (Hl : Z.land z 255 = z mod 256).
  { change 255 with (Z.ones 8). rewrite Z.land_ones by lia. reflexivity. }
  rewrite Hl.
  assert (Hr : 0 <= z mod 256 < 256) by (apply Z.mod_pos_bound; lia).
  destruct (Byte.of_N (Z.to_N (z mod 256))) eqn:E.
  - apply Byte.to_of_N in E. rewrite E. lia.
  - apply Byte.of_N_None_iff in E. lia.
Qed.

Lemma to_Z_range b : 0 <= Buffer.to_Z b < 256.
Proof.
  unfold Buffer.to_Z. pose proof (Byte.to_N_bounded b). lia.
Qed.

Lemma uint32BE_value v :
  0 <= v <= 4294967295 ->
  match Buffer.uint32BE v with
  | [b0; b1; b2; b3] =>
      Buffer.to_Z b0 * 2 ^ 24 + Buffer.to_Z b1 * 2 ^ 16 + Buffer.to_Z b2 * 2 ^ 8 + Buffer.to_Z b3 = v
  | _ => False
  end.
Proof.
  intros Hv. unfold Buffer.uint32BE.
  rewrite !to_Z_of_Z, !Z.shiftr_div_pow2 by lia.
  change (2 ^ 24) with 16777216. change (2 ^ 16) with 65536. change (2 ^ 8) with 256.
  Z.div_mod_to_equations. lia.
Qed.

Lemma Buffer_length_nonneg (b : Buffer.t) : 0 <= Buffer.length b.
Proof. unfold Buffer.length. lia. Qed.

Lemma Buffer_length_app (a b : Buffer.t) :
  Buffer.length (a ++ b) = Buffer.length a + Buffer.length b.
Proof. unfold Buffer.length. rewrite List.length_app. lia. Qed.

Lemma uint32BE_length v : Buffer.length (Buffer.uint32BE v) = 4.
Proof. reflexivity. Qed.

Lemma copy_at_start (src target : Buffer.t) :
  (List.length src <= List.length target)%nat ->
  Buffer.copy src target 0 = src ++ skipn (List.length src) target.
Proof.
  intros H. unfold Buffer.copy. simpl.
  rewrite Nat.sub_0_r, firstn_all2 by lia. reflexivity.
Qed.

Lemma copy_after (prefix src old rest : Buffer.t) :
  List.length old = List.length src ->
  Buffer.copy src (prefix ++ old ++ rest) (Buffer.length prefix)
  = prefix ++ src ++ rest.
Proof.
  intros H. unfold Buffer.copy, Buffer.length.
  rewrite Nat2Z.id.
  rewrite firstn_app, firstn_all, Nat.sub_diag, firstn_O, app_nil_r.
  rewrite !List.length_app.
  rewrite firstn_all2 by lia.
  rewrite skipn_app.
  rewrite (skipn_all2 prefix) by lia.
  replace (List.length prefix + List.length src - List.length prefix)%nat
    with (List.length old) by lia.
  rewrite skipn_app, skipn_all, Nat.sub_diag. reflexivity.
Qed.

Lemma makePreludeBuffer_layout (magic json : Buffer.t) :
  Buffer.length magic = MAGIC_LENGTH ->
  Buffer.length json <= 4294967295 ->
  makePreludeBuffer magic json
  = Ok (magic ++ Buffer.uint32BE (Buffer.length json) ++ json).
Proof.
  intros Hm Hj. unfold makePreludeBuffer, Buffer.writeUInt32BE.
  pose proof (Buffer_length_nonneg json) as Hn.
  assert (Hlen : List.length magic = 4%nat).
  { unfold Buffer.length, MAGIC_LENGTH in Hm. lia. }
  remember (repeat x00 4) as z4 eqn:Ez4.
  remember (repeat x00 (List.length json)) as zn eqn:Ezn.
  assert (Hz4 : List.length z4 = 4%nat) by (subst z4; apply repeat_length).
  assert (Hzn : List.length zn = List.length json) by (subst zn; apply repeat_length).
  assert (Halloc : Buffer.alloc (MAGIC_LENGTH + LENGTH_BYTES + Buffer.length json)
                   = z4 ++ z4 ++ zn).
  { unfold Buffer.alloc, Buffer.length, MAGIC_LENGTH, LENGTH_BYTES.
    replace (Z.to_nat (4 + 4 + Z.of_nat (List.length json)))
      with (4 + (4 + List.length json))%nat by lia.
    rewrite !repeat_app. subst; reflexivity. }
  rewrite Halloc.
  rewrite copy_at_start by (rewrite !List.length_app; lia).
  rewrite Hlen, skipn_app, Hz4, Nat.sub_diag, skipn_O.
  rewrite skipn_all2 by lia. rewrite app_nil_l.
  assert (Hv : (0 <=? Buffer.length json) && (Buffer.length json <=? 4294967295) = true)
    by (apply andb_true_intro; split; apply Z.leb_le; lia).
  rewrite Hv.
  assert (Ho : (0 <=? MAGIC_LENGTH)
               && (MAGIC_LENGTH + 4 <=? Buffer.length (magic ++ z4 ++ zn)) = true).
  { apply andb_true_intro; split; apply Z.leb_le.
    - unfold MAGIC_LENGTH; lia.
    - rewrite !Buffer_length_app, Hm. unfold MAGIC_LENGTH.
      pose proof (Buffer_length_nonneg zn). unfold Buffer.length at 1. lia. }
  rewrite Ho. cbn [negb bind].
  rewrite <- Hm at 1.
  rewrite (copy_after magic (Buffer.uint32BE (Buffer.length json)) z4 zn)
    by (rewrite Hz4; reflexivity).
  replace (MAGIC_LENGTH + LENGTH_BYTES)
    with (Buffer.length (magic ++ Buffer.uint32BE (Buffer.length json))).
  2:{ rewrite Buffer_length_app, Hm. reflexivity. }
  rewrite (app_assoc magic).
  rewrite <- (app_nil_r zn).
  rewrite (copy_after _ json zn []) by exact Hzn.
  rewrite app_nil_r, <- app_assoc. reflexivity.
Qed.

Lemma makePreludeBuffer_too_long (magic json : Buffer.t) :
  4294967295 < Buffer.length json ->
  makePreludeBuffer magic json = Throw (mkError RangeError "The value is out of range").
Proof.
  intros H. unfold makePreludeBuffer, Buffer.writeUInt32BE.
  replace (Buffer.length json <=? 4294967295) with false
    by (symmetry; apply Z.leb_gt; lia).
  rewrite andb_false_r. reflexivity.
Qed.

(* ------------------------------------------------------------------ *)
(** ** [JSON.parse] undoes [JSON.stringify]                             *)
(* ------------------------------------------------------------------ *)

(** *** String literals *)

Lemma parse_escape_char c r :
  JSON.parse_string_body (JSON.escape_char c ++ r)
  = JSON.prepend [c] (JSON.parse_string_body r).
Proof.
  destruct c as [[] [] [] [] [] [] [] []]; reflexivity.
Qed.

Lemma parse_string_body_escape l rest :
  JSON.parse_string_body (JSON.escape l ++ JSON.dquote :: rest) = Some (l, rest).
Proof.
  induction l as [|c l IH].
  - reflexivity.
  - unfold JSON.escape in *. cbn [flat_map]. rewrite <- app_assoc.
    rewrite parse_escape_char, IH. reflexivity.
Qed.

(** *** Number literals *)

Lemma num_step_numeric s k s' :
  JSON.num_step s k = Some s' -> k <> JSON.NotNumeric.
Proof. destruct s, k; simpl; congruence. Qed.

Lemma num_run_chars l : forall s s',
  JSON.num_run s l = Some s' -> forallb JSON.is_number_char l = true.
Proof.
  induction l as [|c l IH]; intros s s' H.
  - reflexivity.
  - cbn [JSON.num_run] in H.
    destruct (JSON.num_step s (JSON.classify c)) as [s1|] eqn:E; [|discriminate].
    cbn [forallb]. rewrite (IH _ _ H), andb_true_r.
    apply num_step_numeric in E. unfold JSON.is_number_char.
    destruct (JSON.classify c); congruence.
Qed.

Lemma number_literal_chars l :
  JSON.is_number_literal l = true -> forallb JSON.is_number_char l = true.
Proof.
  unfold JSON.is_number_literal. intros H.
  destruct (JSON.num_run JSON.NStart l) eqn:E; [|discriminate].
  eapply num_run_chars; eauto.
Qed.

Lemma number_literal_head l :
  JSON.is_number_literal l = true ->
  exists c l', l = c :: l' /\ JSON.is_number_start c = true.
Proof.
  unfold JSON.is_number_literal. destruct l as [|c l'].
  - discriminate.
  - intros H. exists c, l'. split; [reflexivity|].
    cbn [JSON.num_run] in H. unfold JSON.is_number_start.
    destruct (JSON.classify c); try reflexivity; discriminate.
Qed.

Lemma span_number_app l rest :
  forallb JSON.is_number_char l = true -> number_end rest = true ->
  JSON.span_number (l ++ rest) = (l, rest).
Proof.
  intros Hl Hr. induction l as [|c l IH].
  - destruct rest as [|c r]; [reflexivity|].
    cbn in Hr |- *. apply negb_true_iff in Hr. rewrite Hr. reflexivity.
  - cbn [forallb] in Hl. apply andb_true_iff in Hl as [Hc Hl].
    cbn [app JSON.span_number]. rewrite Hc, (IH Hl). reflexivity.
Qed.

Lemma parse_number_literal l rest :
  JSON.is_number_literal l = true -> number_end rest = true ->
  JSON.parse_number (l ++ rest)
  = Some (JNumber (Finite (string_of_list_ascii l)), rest).
Proof.
  intros Hl Hr. unfold JSON.parse_number.
  rewrite span_number_app by auto using number_literal_chars.
  rewrite Hl. reflexivity.
Qed.

Lemma number_start_not_ws c :
  JSON.is_number_start c = true -> JSON.is_ws c = false.
Proof.
  destruct c as [[] [] [] [] [] [] [] []]; cbv; congruence.
Qed.

(** *** Values *)

Lemma render_array items :
  JSON.render (JArray items) = "["%char :: render_elements items true.
Proof. reflexivity. Qed.

Lemma render_object props :
  JSON.render (JObject props) = "{"%char :: render_members props true.
Proof. reflexivity. Qed.

Lemma representable_not_omitted v :
  representable v = true -> JSON.omitted v = false.
Proof. destruct v; simpl; congruence. Qed.

Lemma number_start_not_bracket c :
  JSON.is_number_start c = true -> N.eqb (JSON.code c) 93 = false.
Proof.
  destruct c as [[] [] [] [] [] [] [] []]; cbv; congruence.
Qed.

(** The first character of the text of a value: no white space, no closing
    bracket. *)
Lemma render_head v :
  representable v = true ->
  exists c r, JSON.render v = c :: r /\ JSON.is_ws c = false
              /\ N.eqb (JSON.code c) 93 = false.
Proof.
  destruct v as [| |b|n|s|z| | |items|props|]; try discriminate; intros H.
  - eexists _, _; repeat split; reflexivity.
  - destruct b; eexists _, _; repeat split; reflexivity.
  - destruct n as [lit| |neg]; try discriminate. cbn in H.
    destruct (number_literal_head _ H) as (c & l' & E & Hc).
    exists c, l'. cbn [JSON.render]. rewrite E.
    auto using number_start_not_ws, number_start_not_bracket.
  - eexists _, _; repeat split; reflexivity.
  - rewrite render_array. eexists _, _; repeat split; reflexivity.
  - rewrite render_object. eexists _, _; repeat split; reflexivity.
Qed.

Lemma skip_ws_head c r : JSON.is_ws c = false -> JSON.skip_ws (c :: r) = c :: r.
Proof. intros H. cbn [JSON.skip_ws]. rewrite H. reflexivity. Qed.

Lemma number_end_elements l tail : number_end (render_elements l false ++ tail) = true.
Proof. destruct l; reflexivity. Qed.

Lemma parse_elements_render more : forall x fuel tail,
  Forall parses (x :: more) ->
  forallb representable (x :: more) = true ->
  (list_sum (map (fun y => S (weight y)) (x :: more)) <= fuel)%nat ->
  JSON.parse_elements fuel (JSON.render x ++ render_elements more false ++ tail)
  = Some (x :: more, tail).
Proof.
  induction more as [|y more IH]; intros x fuel tail HP HR HF;
    inversion HP as [|? ? Px HP']; subst;
    cbn [forallb] in HR; apply andb_true_iff in HR as [Rx HR];
    cbn [map list_sum fold_right] in HF;
    (destruct fuel as [|fuel]; [lia|]); cbn [JSON.parse_elements].
  - rewrite (Px Rx fuel (render_elements [] false ++ tail)); [reflexivity|lia|reflexivity].
  - rewrite (Px Rx fuel (render_elements (y :: more) false ++ tail));
      [|cbn [map list_sum fold_right] in HF; lia|apply number_end_elements].
    cbn [render_elements JSON.comma app].
    rewrite skip_ws_head by reflexivity.
    change (N.eqb (JSON.code ","%char) 44) with true. cbv iota.
    rewrite <- app_assoc.
    rewrite (IH y fuel tail HP' HR) by (cbn [map list_sum fold_right]; lia).
    reflexivity.
Qed.

Lemma number_end_members l tail first :
  number_end (render_members l first ++ tail) = true
  \/ exists k x l', l = (k, x) :: l' /\ JSON.omitted x = true.
Proof.
  destruct l as [|[k x] l']; [left; reflexivity|].
  destruct (JSON.omitted x) eqn:E; [right; eauto|left].
  cbn [render_members]. rewrite E. destruct first; reflexivity.
Qed.

Lemma quote_app k tail :
  JSON.quote k ++ tail
  = JSON.dquote :: JSON.escape (list_ascii_of_string k) ++ JSON.dquote :: tail.
Proof.
  unfold JSON.quote. cbn [app]. rewrite <- app_assoc. reflexivity.
Qed.

Lemma member_text_head k x tail :
  exists r, member_text k x tail = JSON.dquote :: r.
Proof. unfold member_text. rewrite quote_app. eauto. Qed.

Lemma render_members_cons k x more first tail :
  JSON.omitted x = false ->
  render_members ((k, x) :: more) first ++ tail
  = JSON.comma first ++ member_text k x (render_members more false ++ tail).
Proof.
  intros H. cbn [render_members]. rewrite H. unfold member_text.
  rewrite <- !app_assoc. cbn [app]. rewrite <- !app_assoc. reflexivity.
Qed.

Lemma parse_members_render more : forall k x fuel tail,
  Forall (fun kv => parses (snd kv)) ((k, x) :: more) ->
  forallb (fun kv => representable (snd kv)) ((k, x) :: more) = true ->
  (list_sum (map (fun kv => S (weight (snd kv))) ((k, x) :: more)) <= fuel)%nat ->
  JSON.parse_members fuel (member_text k x (render_members more false ++ tail))
  = Some ((k, x) :: more, tail).
Proof.
  induction more as [|[k' y] more IH]; intros k x fuel tail HP HR HF;
    inversion HP as [|? ? Px HP']; subst; cbn [snd] in Px;
    cbn [forallb snd] in HR; apply andb_true_iff in HR as [Rx HR];
    cbn [map list_sum fold_right snd] in HF;
    (destruct fuel as [|fuel]; [lia|]); cbn [JSON.parse_members];
    unfold member_text; rewrite quote_app;
    rewrite skip_ws_head by reflexivity;
    change (negb (N.eqb (JSON.code JSON.dquote) 34)) with false; cbv iota;
    rewrite parse_string_body_escape;
    rewrite skip_ws_head by reflexivity;
    change (negb (N.eqb (JSON.code ":"%char) 58)) with false; cbv iota;
    rewrite string_of_list_ascii_of_string.
  - rewrite (Px Rx fuel (render_members [] false ++ tail)); [reflexivity|lia|reflexivity].
  - assert (Oy : JSON.omitted y = false).
    { cbn [forallb snd] in HR. apply andb_true_iff in HR as [Ry _].
      now apply representable_not_omitted. }
    rewrite (render_members_cons k' y more false tail Oy).
    rewrite (Px Rx fuel); [|lia|reflexivity].
    cbn [JSON.comma app].
    rewrite skip_ws_head by reflexivity.
    change (N.eqb (JSON.code ","%char) 44) with true. cbv iota.
    rewrite (IH k' y fuel tail HP' HR) by (cbn [map list_sum fold_right snd]; lia).
    reflexivity.
Qed.

(** Keys that are pairwise distinct are set in their order. *)
Lemma hasOwn_existsb key props :
  Obj.hasOwn key props = existsb (fun k => String.eqb k key) (Obj.keys props).
Proof.
  induction props as [|[k x] props IH]; [reflexivity|].
  cbn [Obj.hasOwn Obj.keys map fst existsb]. unfold Obj.keys in IH.
  rewrite IH. reflexivity.
Qed.

Lemma existsb_eqb_sym key ks :
  existsb (fun k => String.eqb k key) ks = existsb (String.eqb key) ks.
Proof.
  induction ks as [|k ks IH]; [reflexivity|].
  cbn [existsb]. now rewrite IH, String.eqb_sym.
Qed.

Lemma set_fresh key value props :
  Obj.hasOwn key props = false -> Obj.set key value props = props ++ [(key, value)].
Proof.
  induction props as [|[k x] props IH]; intros H; [reflexivity|].
  cbn [Obj.hasOwn] in H. apply orb_false_iff in H as [Hk H].
  cbn [Obj.set app]. rewrite Hk, (IH H). reflexivity.
Qed.

Lemma hasOwn_app key a b :
  Obj.hasOwn key (a ++ b) = Obj.hasOwn key a || Obj.hasOwn key b.
Proof.
  induction a as [|[k x] a IH]; [reflexivity|].
  cbn [app Obj.hasOwn]. rewrite IH, orb_assoc. reflexivity.
Qed.

Lemma spread_distinct source : forall target,
  Obj.distinct (Obj.keys source) = true ->
  (forall key, Obj.hasOwn key target = true -> Obj.hasOwn key source = false) ->
  Obj.spread target source = target ++ source.
Proof.
  unfold Obj.spread.
  induction source as [|[k x] source IH]; intros target HD HT.
  - cbn. now rewrite app_nil_r.
  - cbn [fold_left fst snd]. cbn [Obj.keys map fst Obj.distinct] in HD.
    apply andb_true_iff in HD as [Hk HD]. apply negb_true_iff in Hk.
    assert (Hfresh : Obj.hasOwn k target = false).
    { destruct (Obj.hasOwn k target) eqn:E; [|reflexivity].
      apply HT in E. cbn [Obj.hasOwn] in E. now rewrite String.eqb_refl in E. }
    rewrite (set_fresh _ _ _ Hfresh).
    rewrite IH; [now rewrite <- app_assoc|exact HD|].
    intros key H. rewrite hasOwn_app in H. apply orb_true_iff in H as [H|H].
    + apply HT in H. cbn [Obj.hasOwn] in H. now apply orb_false_iff in H.
    + cbn [Obj.hasOwn] in H. rewrite orb_false_r in H.
      apply String.eqb_eq in H. subst key.
      rewrite hasOwn_existsb, existsb_eqb_sym. exact Hk.
Qed.

Lemma spread_nil_distinct props :
  Obj.distinct (Obj.keys props) = true -> Obj.spread [] props = props.
Proof.
  intros H. rewrite spread_distinct; [reflexivity|exact H|discriminate].
Qed.

(** Parsing the text of a representable value gives the value back. *)
Lemma parse_value_render v : parses v.
Proof.
  induction v as [| |b|n|s|z| | |items IH|props IH|] using JsValue_deep_ind;
    intros R fuel rest HF HE; try discriminate;
    (destruct fuel as [|fuel]; [cbn [weight] in HF; lia|]).
  - reflexivity.
  - destruct b; reflexivity.
  - destruct n as [lit| |neg]; try discriminate. cbn in R.
    destruct (number_literal_head _ R) as (c & l' & E & Hc).
    cbn [JSON.render JSON.parse_value]. rewrite E. cbn [app].
    rewrite skip_ws_head by auto using number_start_not_ws.
    rewrite Hc. change (c :: l' ++ rest) with ((c :: l') ++ rest).
    rewrite <- E, parse_number_literal by assumption.
    now rewrite string_of_list_ascii_of_string.
  - cbn [JSON.render]. rewrite quote_app. cbn [JSON.parse_value].
    rewrite skip_ws_head by reflexivity.
    change (JSON.is_number_start JSON.dquote) with false.
    change (N.eqb (JSON.code JSON.dquote) 34) with true. cbv iota.
    now rewrite parse_string_body_escape, string_of_list_ascii_of_string.
  - rewrite render_array. cbn [app JSON.parse_value].
    rewrite skip_ws_head by reflexivity.
    change (JSON.is_number_start "["%char) with false.
    change (N.eqb (JSON.code "["%char) 34) with false.
    change (N.eqb (JSON.code "["%char) 91) with true. cbv iota.
    destruct items as [|x more]; [reflexivity|].
    cbn [render_elements JSON.comma app]. rewrite <- app_assoc.
    cbn [representable] in R.
    assert (Rx : representable x = true)
      by (cbn [forallb] in R; now apply andb_true_iff in R).
    destruct (render_head x Rx) as (c & r & E & Hws & Hc).
    rewrite E. cbn [app]. rewrite skip_ws_head by assumption. rewrite Hc.
    change (c :: r ++ render_elements more false ++ rest)
      with ((c :: r) ++ render_elements more false ++ rest).
    rewrite <- E, parse_elements_render; [reflexivity|exact IH|exact R|].
    cbn [weight] in HF. lia.
  - rewrite render_object. cbn [app JSON.parse_value].
    rewrite skip_ws_head by reflexivity.
    change (JSON.is_number_start "{"%char) with false.
    change (N.eqb (JSON.code "{"%char) 34) with false.
    change (N.eqb (JSON.code "{"%char) 91) with false.
    change (N.eqb (JSON.code "{"%char) 123) with true. cbv iota.
    destruct props as [|[k x] more]; [reflexivity|].
    cbn [representable] in R. apply andb_true_iff in R as [HD R].
    assert (Ox : JSON.omitted x = false).
    { cbn [forallb snd] in R. apply andb_true_iff in R as [Rx _].
      now apply representable_not_omitted. }
    rewrite (render_members_cons k x more true rest Ox).
    cbn [JSON.comma app].
    destruct (member_text_head k x (render_members more false ++ rest)) as [r E].
    rewrite E, skip_ws_head by reflexivity.
    change (N.eqb (JSON.code JSON.dquote) 125) with false. cbv iota.
    rewrite <- E, parse_members_render; [|exact IH|exact R|cbn [weight] in HF; lia].
    now rewrite spread_nil_distinct.
Qed.

(** *** The fuel [JSON.parse] takes is enough *)

Lemma weight_elements items :
  Forall (fun x => representable x = true ->
                   (weight x <= List.length (JSON.render x))%nat) items ->
  forallb representable items = true ->
  (list_sum (map (fun y => S (weight y)) items)
   < List.length (render_elements items false))%nat.
Proof.
  induction items as [|x items IH]; intros HP HR.
  - cbn. lia.
  - inversion HP as [|? ? Px HP']; subst.
    cbn [forallb] in HR. apply andb_true_iff in HR as [Rx HR].
    specialize (IH HP' HR). specialize (Px Rx).
    cbn [map list_sum fold_right render_elements JSON.comma].
    rewrite !List.length_app. cbn [List.length]. 
    change (fold_right Nat.add 0%nat (map (fun y => S (weight y)) items))
      with (list_sum (map (fun y => S (weight y)) items)).
    lia.
Qed.

Lemma weight_members props :
  Forall (fun kv => representable (snd kv) = true ->
                    (weight (snd kv) <= List.length (JSON.render (snd kv)))%nat) props ->
  forallb (fun kv => representable (snd kv)) props = true ->
  (list_sum (map (fun kv => S (weight (snd kv))) props)
   < List.length (render_members props false))%nat.
Proof.
  induction props as [|[k x] props IH]; intros HP HR.
  - cbn. lia.
  - inversion HP as [|? ? Px HP']; subst. cbn [snd] in Px.
    cbn [forallb snd] in HR. apply andb_true_iff in HR as [Rx HR].
    specialize (IH HP' HR). specialize (Px Rx).
    cbn [map list_sum fold_right render_members snd].
    rewrite (representable_not_omitted x Rx).
    cbn [JSON.comma]. rewrite !List.length_app. cbn [List.length].
    rewrite List.length_app.
    change (fold_right Nat.add 0%nat (map (fun kv => S (weight (snd kv))) props))
      with (list_sum (map (fun kv => S (weight (snd kv))) props)).
    lia.
Qed.

Lemma weight_le_length v :
  representable v = true -> (weight v <= List.length (JSON.render v))%nat.
Proof.
  induction v as [| |b|n|s|z| | |items IH|props IH|] using JsValue_deep_ind;
    intros R; try discriminate.
  - cbn. lia.
  - destruct b; cbn; lia.
  - destruct n as [lit| |neg]; try discriminate. cbn in R.
    destruct (number_literal_head _ R) as (c & l' & E & _).
    cbn [weight JSON.render]. rewrite E. cbn. lia.
  - cbn [weight JSON.render]. unfold JSON.quote. cbn. lia.
  - rewrite render_array. cbn [weight List.length]. cbn [representable] in R.
    destruct items as [|x more]; [cbn; lia|].
    inversion IH as [|? ? Px IH']; subst.
    cbn [forallb] in R. apply andb_true_iff in R as [Rx R].
    pose proof (weight_elements more IH' R). specialize (Px Rx).
    cbn [map list_sum fold_right render_elements JSON.comma app].
    rewrite List.length_app.
    change (fold_right Nat.add 0%nat (map (fun y => S (weight y)) more))
      with (list_sum (map (fun y => S (weight y)) more)).
    lia.
  - rewrite render_object. cbn [weight List.length]. cbn [representable] in R.
    apply andb_true_iff in R as [_ R].
    destruct props as [|[k x] more]; [cbn; lia|].
    inversion IH as [|? ? Px IH']; subst. cbn [snd] in Px.
    cbn [forallb snd] in R. apply andb_true_iff in R as [Rx R].
    pose proof (weight_members more IH' R). specialize (Px Rx).
    cbn [map list_sum fold_right render_members snd].
    rewrite (representable_not_omitted x Rx).
    cbn [JSON.comma app]. rewrite !List.length_app. cbn [List.length].
    rewrite List.length_app.
    change (fold_right Nat.add 0%nat (map (fun kv => S (weight (snd kv))) more))
      with (list_sum (map (fun kv => S (weight (snd kv))) more)).
    lia.
Qed.

Lemma representable_no_bigint v :
  representable v = true -> JSON.has_bigint v = false.
Proof.
  induction v as [| |b|n|s|z| | |items IH|props IH|] using JsValue_deep_ind;
    intros R; try discriminate; try reflexivity.
  - cbn [representable] in R. cbn [JSON.has_bigint].
    induction items as [|x more IHm]; [reflexivity|].
    inversion IH as [|? ? Px IH']; subst.
    cbn [forallb] in R. apply andb_true_iff in R as [Rx R].
    cbn [existsb]. rewrite (Px Rx), (IHm IH' R). reflexivity.
  - cbn [representable] in R. apply andb_true_iff in R as [_ R].
    cbn [JSON.has_bigint].
    induction props as [|[k x] more IHm]; [reflexivity|].
    inversion IH as [|? ? Px IH']; subst. cbn [snd] in Px.
    cbn [forallb snd] in R. apply andb_true_iff in R as [Rx R].
    rewrite (Px Rx), (IHm IH' R). reflexivity.
Qed.

(** [JSON.parse(JSON.stringify(v))] is [v] for every representable [v]. *)
Lemma JSON_stringify_representable v :
  representable v = true ->
  JSON.stringify v = Ok (Some (string_of_list_ascii (JSON.render v))).
Proof.
  intros R. unfold JSON.stringify.
  now rewrite representable_no_bigint, representable_not_omitted.
Qed.

Lemma JSON_parse_render v :
  representable v = true ->
  JSON.parse (string_of_list_ascii (JSON.render v)) = Ok v.
Proof.
  intros R. unfold JSON.parse.
  rewrite list_ascii_of_string_of_list_ascii.
  rewrite <- (app_nil_r (JSON.render v)) at 2.
  rewrite (parse_value_render v R); [reflexivity| |reflexivity].
  pose proof (weight_le_length v R). lia.
Qed.

Lemma parsePayload_from_string s :
  parsePayload (Buffer.from_string s)
  = match JSON.parse s with
    | Ok parsed => Ok parsed
    | Throw _ => Throw (newPreludeJsonParseError None)
    end.
Proof.
  unfold parsePayload, Buffer.toString, Buffer.from_string.
  now rewrite string_of_list_byte_of_string.
Qed.

(* ------------------------------------------------------------------ *)
(** ** The buffer API                                                   *)
(* ------------------------------------------------------------------ *)

(** *** Markers *)

Lemma assertMagic_length m b : assertMagic m = Ok b -> Buffer.length b = MAGIC_LENGTH.
Proof.
  unfold assertMagic. intros H.
  destruct m as [s|b']; cbn in H;
    match type of H with
    | (if negb (?x =? ?y) then _ else _) = _ =>
        destruct (x =? y) eqn:E; cbn in H; [|discriminate];
        apply Z.eqb_eq in E; inversion H; subst; exact E
    end.
Qed.

Lemma map_throwing_Forall {A B} (f : A -> result B) (P : B -> Prop) l : forall l',
  (forall a b, f a = Ok b -> P b) ->
  map_throwing f l = Ok l' -> Forall P l'.
Proof.
  induction l as [|a l IH]; intros l' Hf H; cbn in H.
  - inversion H. constructor.
  - destruct (f a) as [b|] eqn:Ea; cbn in H; [|discriminate].
    destruct (map_throwing f l) as [bs|] eqn:El; cbn in H; [|discriminate].
    inversion H; subst. constructor; eauto.
Qed.

Lemma assertMagicList_lengths magic magics :
  assertMagicList magic = Ok magics ->
  Forall (fun b => Buffer.length b = MAGIC_LENGTH) magics.
Proof.
  unfold assertMagicList. apply map_throwing_Forall. apply assertMagic_length.
Qed.

Lemma assertMagicList_one m :
  assertMagicList (option_map One m) = Throw (newTypeError "magic must be exactly 4 bytes")
  \/ exists b, assertMagicList (option_map One m) = Ok [b]
               /\ Buffer.length b = MAGIC_LENGTH.
Proof.
  destruct m as [m|]; cbn [option_map assertMagicList map_throwing].
  - destruct (assertMagic m) as [b|e] eqn:E.
    + right. exists b. split; [reflexivity|]. eapply assertMagic_length; eauto.
    + left. cbn. unfold assertMagic in E.
      destruct (negb _) in E; [inversion E; reflexivity|discriminate].
  - right. eexists. split; reflexivity.
Qed.

Lemma matchesAny_In magics slice :
  matchesAny magics slice = true <-> In slice magics.
Proof.
  unfold matchesAny. rewrite existsb_exists. split.
  - intros (m & Hin & E). unfold Buffer.equals in E.
    destruct (list_eq_dec _ slice m); [subst; assumption|discriminate].
  - intros Hin. exists slice. split; [assumption|].
    unfold Buffer.equals. destruct (list_eq_dec _ slice slice); congruence.
Qed.

(** *** Validation of the header *)

Lemma assertSerializable_ok v : forall path,
  unserializable v = false -> assertSerializable v path = Ok tt.
Proof.
  induction v as [| |b|n|s|z| | |items IH|props IH|] using JsValue_deep_ind;
    intros path U; try discriminate; try reflexivity.
  - cbn [assertSerializable]. cbn [unserializable] in U.
    generalize 0%nat as index.
    induction items as [|x more IHm]; intros index; [reflexivity|].
    inversion IH as [|? ? Px IH']; subst.
    cbn [existsb] in U. apply orb_false_iff in U as [Ux U].
    rewrite (Px _ Ux). cbn [bind]. apply (IHm IH' U).
  - cbn [assertSerializable]. cbn [unserializable] in U.
    induction props as [|[k x] more IHm]; [reflexivity|].
    inversion IH as [|? ? Px IH']; subst. cbn [snd] in Px.
    cbn [existsb snd] in U. apply orb_false_iff in U as [Ux U].
    rewrite (Px _ Ux). cbn [bind]. apply (IHm IH' U).
Qed.

Lemma assertSerializable_throws v : forall path,
  unserializable v = true ->
  exists msg, assertSerializable v path = Throw (newTypeError msg).
Proof.
  induction v as [| |b|n|s|z| | |items IH|props IH|] using JsValue_deep_ind;
    intros path U; try discriminate; try (eexists; reflexivity).
  - cbn [assertSerializable]. cbn [unserializable] in U.
    generalize 0%nat as index.
    induction items as [|x more IHm]; intros index; [discriminate|].
    inversion IH as [|? ? Px IH']; subst.
    cbn [existsb] in U.
    destruct (unserializable x) eqn:Ux.
    + destruct (Px (path ++ "[" ++ string_of_nat index ++ "]")%string eq_refl) as [msg E].
      exists msg. rewrite E. reflexivity.
    + rewrite (assertSerializable_ok x _ Ux). cbn [bind]. apply (IHm IH' U).
  - cbn [assertSerializable]. cbn [unserializable] in U.
    induction props as [|[k x] more IHm]; [discriminate|].
    inversion IH as [|? ? Px IH']; subst. cbn [snd] in Px.
    cbn [existsb snd] in U.
    destruct (unserializable x) eqn:Ux.
    + destruct (Px (path ++ "." ++ k)%string eq_refl) as [msg E].
      exists msg. rewrite E. reflexivity.
    + rewrite (assertSerializable_ok x _ Ux). cbn [bind]. apply (IHm IH' U).
Qed.

Lemma representable_serializable v :
  representable v = true -> unserializable v = false.
Proof.
  induction v as [| |b|n|s|z| | |items IH|props IH|] using JsValue_deep_ind;
    intros R; try discriminate; try reflexivity.
  - cbn [representable] in R. cbn [unserializable].
    induction items as [|x more IHm]; [reflexivity|].
    inversion IH as [|? ? Px IH']; subst.
    cbn [forallb] in R. apply andb_true_iff in R as [Rx R].
    cbn [existsb]. now rewrite (Px Rx), (IHm IH' R).
  - cbn [representable] in R. apply andb_true_iff in R as [_ R].
    cbn [unserializable].
    induction props as [|[k x] more IHm]; [reflexivity|].
    inversion IH as [|? ? Px IH']; subst. cbn [snd] in Px.
    cbn [forallb snd] in R. apply andb_true_iff in R as [Rx R].
    cbn [existsb snd]. now rewrite (Px Rx), (IHm IH' R).
Qed.

Lemma validatePrelude_entries_ok props :
  existsb (fun kv => unserializable (snd kv)) props = false ->
  validatePrelude_entries props = Ok tt.
Proof.
  induction props as [|[k x] more IH]; intros U; [reflexivity|].
  cbn [existsb snd] in U. apply orb_false_iff in U as [Ux U].
  cbn [validatePrelude_entries].
  destruct x; try discriminate; cbn [is_undefined];
    (rewrite assertSerializable_ok by exact Ux); cbn [bind]; auto.
Qed.

Lemma validatePrelude_entries_throws props :
  existsb (fun kv => unserializable (snd kv)) props = true ->
  exists msg, validatePrelude_entries props = Throw (newTypeError msg).
Proof.
  induction props as [|[k x] more IH]; intros U; [discriminate|].
  cbn [existsb snd] in U. cbn [validatePrelude_entries].
  destruct (is_undefined x) eqn:Eu; [eexists; reflexivity|].
  destruct (unserializable x) eqn:Ux.
  - destruct (assertSerializable_throws x ("prelude." ++ k)%string Ux) as [msg E].
    exists msg. now rewrite E.
  - rewrite assertSerializable_ok by exact Ux. cbn [bind]. auto.
Qed.

Lemma validHeader_props h :
  validHeader h = true ->
  exists props, h = JObject props
    /\ Obj.distinct (Obj.keys props) = true
    /\ forallb (fun kv => representable (snd kv)) props = true
    /\ Obj.hasOwn "v" props = false.
Proof.
  unfold validHeader. intros H.
  apply andb_true_iff in H as [H Hv]. apply andb_true_iff in H as [Hp R].
  destruct h; try discriminate. exists props.
  cbn [representable] in R. apply andb_true_iff in R as [HD R].
  cbn [ownProps] in Hv. apply negb_true_iff in Hv. auto.
Qed.

Lemma validateHeaders_valid h : validHeader h = true -> validateHeaders h = Ok tt.
Proof.
  intros H. destruct (validHeader_props h H) as (props & -> & HD & R & Hv).
  unfold validateHeaders, validatePrelude. rewrite Hv.
  apply validatePrelude_entries_ok.
  assert (U : unserializable (JObject props) = false).
  { apply representable_serializable. cbn [representable]. now rewrite HD, R. }
  exact U.
Qed.

Lemma validateHeaders_unserializable h :
  unserializable h = true ->
  exists msg, validateHeaders h = Throw (newTypeError msg).
Proof.
  intros U. unfold validateHeaders, validatePrelude.
  destruct h; try (eexists; reflexivity); try discriminate.
  destruct (Obj.hasOwn "v" props); [eexists; reflexivity|].
  now apply validatePrelude_entries_throws.
Qed.

(** *** The payload *)

Lemma withVersion_valid version h :
  validHeader h = true -> withVersion version h = versioned version h.
Proof.
  intros H. destruct (validHeader_props h H) as (props & -> & HD & R & Hv).
  unfold withVersion, versioned. cbn [ownProps]. f_equal.
  rewrite spread_distinct; [reflexivity|exact HD|].
  intros key Hk. cbn [Obj.hasOwn] in Hk. rewrite orb_false_r in Hk.
  apply String.eqb_eq in Hk. now subst key.
Qed.

Lemma versioned_representable version h :
  validHeader h = true -> numberOk version = true ->
  representable (versioned version h) = true.
Proof.
  intros H Hn. destruct (validHeader_props h H) as (props & -> & HD & R & Hv).
  unfold versioned. cbn [ownProps representable Obj.keys map fst Obj.distinct forallb snd].
  fold (Obj.keys props). rewrite HD, R.
  unfold numberOk in Hn. cbn [representable] in Hn. rewrite Hn.
  rewrite hasOwn_existsb, existsb_eqb_sym in Hv. rewrite Hv. reflexivity.
Qed.

Lemma stringifyPayload_valid version h :
  validHeader h = true -> numberOk version = true ->
  stringifyPayload (withVersion version h) = Ok (payloadText version h).
Proof.
  intros H Hn. unfold stringifyPayload.
  rewrite withVersion_valid by exact H.
  rewrite JSON_stringify_representable by now apply versioned_representable.
  reflexivity.
Qed.

Lemma parsePayload_payloadText version h :
  validHeader h = true -> numberOk version = true ->
  parsePayload (Buffer.from_string (payloadText version h)) = Ok (versioned version h).
Proof.
  intros H Hn. rewrite parsePayload_from_string. unfold payloadText.
  rewrite JSON_parse_render by now apply versioned_representable.
  reflexivity.
Qed.

Lemma validateJsonLength_ok len max :
  validateJsonLength len max = Ok tt <-> 0 < len <= max.
Proof.
  unfold validateJsonLength.
  destruct (len <? 0) eqn:E1; [apply Z.ltb_lt in E1; split; [discriminate|lia]|].
  apply Z.ltb_ge in E1.
  destruct (len >? max) eqn:E2.
  { apply Z.gtb_lt in E2. split; [discriminate|lia]. }
  assert (len <= max) by (rewrite Z.gtb_ltb in E2; apply Z.ltb_ge in E2; lia).
  destruct (len =? 0) eqn:E3.
  { apply Z.eqb_eq in E3. split; [discriminate|lia]. }
  apply Z.eqb_neq in E3. split; [lia|reflexivity].
Qed.

(** What [encodePrelude] returns for a valid header, when it returns. *)
Lemma encodePrelude_valid h opts :
  validHeader h = true ->
  numberOk (EncodeOptions.version opts ?? DEFAULT_VERSION) = true ->
  encodePrelude h opts
  = (magics <- assertMagicList (option_map One (EncodeOptions.magic opts)) ;;
     let json := Buffer.from_string
                   (payloadText (EncodeOptions.version opts ?? DEFAULT_VERSION) h) in
     validateJsonLength (Buffer.length json)
                        (EncodeOptions.maxJsonBytes opts ?? DEFAULT_MAX_JSON_BYTES) ;;
     magic <- firstMagic magics ;;
     makePreludeBuffer magic json).
Proof.
  intros H Hn. unfold encodePrelude.
  destruct (assertMagicList _) as [magics|e]; cbn [bind]; [|reflexivity].
  rewrite validateHeaders_valid by exact H. cbn [bind].
  rewrite stringifyPayload_valid by assumption. reflexivity.
Qed.

Lemma encodePrelude_frame h opts frame :
  validHeader h = true ->
  numberOk (EncodeOptions.version opts ?? DEFAULT_VERSION) = true ->
  encodePrelude h opts = Ok frame ->
  exists magic,
    assertMagicList (option_map One (EncodeOptions.magic opts)) = Ok [magic]
    /\ Buffer.length magic = MAGIC_LENGTH
    /\ let json := Buffer.from_string
                     (payloadText (EncodeOptions.version opts ?? DEFAULT_VERSION) h) in
       frame = magic ++ Buffer.uint32BE (Buffer.length json) ++ json
       /\ 0 < Buffer.length json
            <= EncodeOptions.maxJsonBytes opts ?? DEFAULT_MAX_JSON_BYTES
       /\ Buffer.length json <= 4294967295.
Proof.
  intros H Hn. rewrite encodePrelude_valid by assumption.
  generalize (Buffer.from_string
                (payloadText (EncodeOptions.version opts ?? DEFAULT_VERSION) h)).
  intros json E. cbv zeta in E.
  destruct (assertMagicList_one (EncodeOptions.magic opts)) as [Em|(magic & Em & Hm)];
    rewrite Em in E; [discriminate|].
  exists magic. split; [exact Em|]. split; [exact Hm|]. cbv zeta.
  unfold bind at 1 in E.
  destruct (validateJsonLength (Buffer.length json) _) as [[]|e] eqn:Ev;
    [|discriminate].
  apply validateJsonLength_ok in Ev.
  unfold bind, firstMagic in E.
  destruct (Z_le_gt_dec (Buffer.length json) 4294967295) as [Hle|Hgt].
  - rewrite makePreludeBuffer_layout in E by assumption.
    injection E as E. auto.
  - rewrite makePreludeBuffer_too_long in E by lia. discriminate.
Qed.

(** *** Decoding a frame *)

Lemma subarray_prefix (a b : Buffer.t) :
  Buffer.subarray (a ++ b) 0 (Buffer.length a) = a.
Proof.
  unfold Buffer.subarray, Buffer.length. cbn [Z.to_nat skipn].
  rewrite Z.sub_0_r, Nat2Z.id, firstn_app, Nat.sub_diag, firstn_all.
  cbn [firstn]. now rewrite app_nil_r.
Qed.

Lemma subarray_middle (a b c : Buffer.t) :
  Buffer.subarray (a ++ b ++ c) (Buffer.length a) (Buffer.length a + Buffer.length b) = b.
Proof.
  unfold Buffer.subarray, Buffer.length.
  rewrite Nat2Z.id, skipn_app, skipn_all, Nat.sub_diag. cbn [skipn app].
  replace (Z.to_nat (Z.of_nat (List.length a) + Z.of_nat (List.length b)
                     - Z.of_nat (List.length a))) with (List.length b) by lia.
  rewrite firstn_app, Nat.sub_diag, firstn_all. cbn [firstn]. now rewrite app_nil_r.
Qed.

Lemma subarray_from_suffix (a b : Buffer.t) :
  Buffer.subarray_from (a ++ b) (Buffer.length a) = b.
Proof.
  unfold Buffer.subarray_from, Buffer.length.
  rewrite Nat2Z.id, skipn_app, skipn_all, Nat.sub_diag. reflexivity.
Qed.

Lemma readUInt32BE_uint32BE (a : Buffer.t) v (rest : Buffer.t) :
  0 <= v <= 4294967295 ->
  Buffer.readUInt32BE (a ++ Buffer.uint32BE v ++ rest) (Buffer.length a) = Ok v.
Proof.
  intros Hv. unfold Buffer.readUInt32BE, Buffer.length.
  rewrite Nat2Z.id, skipn_app, skipn_all, Nat.sub_diag. cbn [skipn app].
  pose proof (uint32BE_value v Hv) as E.
  unfold Buffer.uint32BE in *. cbn [app]. now rewrite E.
Qed.

Lemma decodePrelude_frame magic json body opts magics :
  assertMagicList (DecodeOptions.magic opts) = Ok magics ->
  In magic magics ->
  0 < Buffer.length json <= DecodeOptions.maxJsonBytes opts ?? DEFAULT_MAX_JSON_BYTES ->
  Buffer.length json <= 4294967295 ->
  decodePrelude (magic ++ Buffer.uint32BE (Buffer.length json) ++ json ++ body) opts
  = (parsed <- parsePayload json ;;
     if negb (isPlainObject parsed) then Throw newPreludeInvalidTypeError
     else Ok (mkDecoded parsed (MAGIC_LENGTH + LENGTH_BYTES + Buffer.length json))).
Proof.
  intros Em Hin Hlen H32. unfold decodePrelude. rewrite Em. cbn [bind].
  assert (Hm : Buffer.length magic = MAGIC_LENGTH).
  { pose proof (assertMagicList_lengths _ _ Em) as HF.
    rewrite Forall_forall in HF. now apply HF. }
  pose proof (Buffer_length_nonneg body) as Hb.
  assert (Htotal : Buffer.length (magic ++ Buffer.uint32BE (Buffer.length json) ++ json ++ body)
                   = MAGIC_LENGTH + LENGTH_BYTES + Buffer.length json + Buffer.length body).
  { rewrite !Buffer_length_app, Hm, uint32BE_length. unfold LENGTH_BYTES. lia. }
  rewrite Htotal.
  replace (_ <? MAGIC_LENGTH + LENGTH_BYTES) with false
    by (symmetry; apply Z.ltb_ge; lia).
  rewrite <- Hm at 1. rewrite subarray_prefix.
  replace (matchesAny magics magic) with true
    by (symmetry; now apply matchesAny_In).
  cbn [negb]. rewrite <- Hm at 1.
  rewrite readUInt32BE_uint32BE by lia. cbn [bind].
  replace (validateJsonLength _ _) with (Ok tt)
    by (symmetry; now apply validateJsonLength_ok).
  cbn [bind].
  replace (_ <? MAGIC_LENGTH + LENGTH_BYTES + Buffer.length json) with false
    by (symmetry; apply Z.ltb_ge; lia).
  replace (MAGIC_LENGTH + LENGTH_BYTES)
    with (Buffer.length (magic ++ Buffer.uint32BE (Buffer.length json)))
    by (rewrite Buffer_length_app, Hm, uint32BE_length; reflexivity).
  rewrite (app_assoc magic), subarray_middle. reflexivity.
Qed.

Lemma assertMagicList_throws magic e :
  assertMagicList magic = Throw e ->
  e = newTypeError "magic must be exactly 4 bytes".
Proof.
  unfold assertMagicList.
  generalize (match magic with
              | Some (One m) => [m]
              | Some (Many ms) => ms
              | None => [MagicString DEFAULT_MAGIC]
              end).
  intros l. induction l as [|m l IH]; cbn [map_throwing]; [discriminate|].
  destruct (assertMagic m) as [b|e'] eqn:Em; cbn [bind].
  - destruct (map_throwing assertMagic l); cbn [bind]; [discriminate|].
    intros E. inversion E; subst. now apply IH.
  - intros E. inversion E; subst. unfold assertMagic in Em.
    destruct (negb _) in Em; [now inversion Em|discriminate].
Qed.

(** Decoding what [encodePrelude] made, whatever follows it. *)
Lemma decodePrelude_of_encoded (H : JsValue) (B frame : Buffer.t) :
  validHeader H = true ->
  encodePrelude H EncodeOptions.default = Ok frame ->
  decodePrelude (frame ++ B) DecodeOptions.default
  = Ok (mkDecoded (versioned DEFAULT_VERSION H) (Buffer.length frame)).
Proof.
  intros HV E.
  destruct (encodePrelude_frame H EncodeOptions.default frame HV eq_refl E)
    as (magic & Em & Hm & Ef & Hlen & H32).
  cbn [EncodeOptions.version EncodeOptions.default nullish] in Ef, Hlen, H32.
  cbn in Em. inversion Em; subst magic.
  set (json := Buffer.from_string (payloadText DEFAULT_VERSION H)) in *.
  rewrite Ef, <- !app_assoc.
  rewrite (decodePrelude_frame _ json B DecodeOptions.default
             [Buffer.from_string DEFAULT_MAGIC]);
    [|reflexivity|now left|exact Hlen|exact H32].
  unfold json. rewrite parsePayload_payloadText by auto. cbn [bind].
  unfold versioned at 1. cbn [isPlainObject negb].
  rewrite !Buffer_length_app, Hm, uint32BE_length.
  do 2 f_equal. unfold LENGTH_BYTES. lia.
Qed.

(* ------------------------------------------------------------------ *)
(** ** The push-mode adapter                                            *)
(* ------------------------------------------------------------------ *)

Lemma pushed_pushNonEmpty b : Transform.pushed (Transform.pushNonEmpty b) = b.
Proof.
  unfold Transform.pushNonEmpty, Buffer.length.
  destruct b; cbn; [reflexivity|]. now rewrite app_nil_r.
Qed.

Lemma emitted_pushNonEmpty b : Transform.emitted (Transform.pushNonEmpty b) = [].
Proof.
  unfold Transform.pushNonEmpty. destruct (_ =? _); reflexivity.
Qed.

Lemma emitted_app a b :
  Transform.emitted (a ++ b) = Transform.emitted a ++ Transform.emitted b.
Proof. unfold Transform.emitted. apply flat_map_app. Qed.

Lemma pushed_app a b :
  Transform.pushed (a ++ b) = Transform.pushed a ++ Transform.pushed b.
Proof. unfold Transform.pushed. apply flat_map_app. Qed.

Lemma emitted_Emit h out :
  Transform.emitted (Transform.Emit h :: out) = h :: Transform.emitted out.
Proof. reflexivity. Qed.

Lemma emitted_Push b out :
  Transform.emitted (Transform.Push b :: out) = Transform.emitted out.
Proof. reflexivity. Qed.

Lemma pushed_Emit h out :
  Transform.pushed (Transform.Emit h :: out) = Transform.pushed out.
Proof. reflexivity. Qed.

Lemma pushed_Push b out :
  Transform.pushed (Transform.Push b :: out) = b ++ Transform.pushed out.
Proof. reflexivity. Qed.

Lemma emitted_nil : Transform.emitted [] = [].
Proof. reflexivity. Qed.

Lemma pushed_nil : Transform.pushed [] = [].
Proof. reflexivity. Qed.

Create Rewrite HintDb outputs.
#[local] Hint Rewrite emitted_app pushed_app emitted_pushNonEmpty pushed_pushNonEmpty
  emitted_Emit emitted_Push pushed_Emit pushed_Push emitted_nil pushed_nil
  app_nil_r app_nil_l : outputs.

Lemma forwardBody_body needed d jl :
  Transform.forwardBody (Transform.mkState Transform.body needed d jl)
  = (Transform.pushNonEmpty d, Transform.mkState Transform.body needed [] jl).
Proof.
  unfold Transform.forwardBody, Transform.pushNonEmpty.
  cbn [Transform.stage Transform.is_body Transform.buffer andb
       Transform.needed Transform.jsonLength].
  destruct (Buffer.length d =? 0) eqn:E; cbn [negb]; [|reflexivity].
  apply Z.eqb_eq in E. unfold Buffer.length in E. destruct d; [reflexivity|].
  cbn in E. lia.
Qed.

(** The loop of one call, by the stage it starts in. *)
Lemma while_json cfg fuel n d :
  Transform.while (S fuel) cfg (Transform.mkState Transform.json n d n)
  = if n <=? Buffer.length d then
      match parsePayload (Buffer.subarray d 0 n) with
      | Throw e => Some ([], Throw e)
      | Ok parsed =>
          if negb (isPlainObject parsed) then Some ([], Throw newPreludeInvalidTypeError)
          else Some ([Transform.Emit parsed],
                     Ok (Transform.mkState Transform.body 0 (Buffer.subarray_from d n) n))
      end
    else Some ([], Ok (Transform.mkState Transform.json n d n)).
Proof.
  cbn [Transform.while Transform.needed Transform.buffer].
  destruct (n <=? Buffer.length d); [|reflexivity].
  unfold Transform.switch. cbn [Transform.stage Transform.buffer Transform.jsonLength].
  destruct (parsePayload _) as [parsed|e]; [|reflexivity].
  destruct (negb (isPlainObject parsed)); reflexivity.
Qed.

Lemma while_length cfg fuel jl d :
  Transform.while (S (S fuel)) cfg (Transform.mkState Transform.length LENGTH_BYTES d jl)
  = if LENGTH_BYTES <=? Buffer.length d then
      match (n <- Buffer.readUInt32BE d 0 ;;
             validateJsonLength n (Transform.maxJsonBytes cfg) ;; Ok n)%js with
      | Throw e => Some ([], Throw e)
      | Ok n =>
          Transform.while (S fuel) cfg
            (Transform.mkState Transform.json n (Buffer.subarray_from d LENGTH_BYTES) n)
      end
    else Some ([], Ok (Transform.mkState Transform.length LENGTH_BYTES d jl)).
Proof.
  remember (S fuel) as f eqn:Ef.
  cbn [Transform.while Transform.needed Transform.buffer].
  destruct (LENGTH_BYTES <=? Buffer.length d); [|reflexivity].
  unfold Transform.switch. cbn [Transform.stage Transform.buffer Transform.jsonLength].
  destruct (Buffer.readUInt32BE d 0) as [n|e]; cbn [bind]; [|reflexivity].
  destruct (validateJsonLength n _) as [[]|e]; cbn [bind]; [|reflexivity].
  cbn [Transform.stage Transform.is_body].
  destruct (Transform.while f cfg _) as [[out r]|]; reflexivity.
Qed.

Lemma while_magic cfg fuel jl d :
  Transform.while (S (S (S fuel))) cfg
                  (Transform.mkState Transform.magic MAGIC_LENGTH d jl)
  = if MAGIC_LENGTH <=? Buffer.length d then
      if negb (matchesAny (Transform.magics cfg) (Buffer.subarray d 0 MAGIC_LENGTH)) then
        Some ([Transform.Emit (JObject []);
               Transform.Push (Buffer.subarray d 0 MAGIC_LENGTH)]
                ++ Transform.pushNonEmpty (Buffer.subarray_from d MAGIC_LENGTH),
              Ok (Transform.mkState Transform.body 0 [] jl))
      else
        Transform.while (S (S fuel)) cfg
          (Transform.mkState Transform.length LENGTH_BYTES
                             (Buffer.subarray_from d MAGIC_LENGTH) jl)
    else Some ([], Ok (Transform.mkState Transform.magic MAGIC_LENGTH d jl)).
Proof.
  remember (S (S fuel)) as f eqn:Ef.
  cbn [Transform.while Transform.needed Transform.buffer].
  destruct (MAGIC_LENGTH <=? Buffer.length d); [|reflexivity].
  unfold Transform.switch. cbn [Transform.stage Transform.buffer Transform.jsonLength].
  destruct (negb (matchesAny _ _)); [reflexivity|].
  cbn [Transform.stage Transform.is_body].
  destruct (Transform.while f cfg _) as [[out r]|]; reflexivity.
Qed.

Lemma settle_json cfg fuel n d st :
  settle (Transform.while (S fuel) cfg (Transform.mkState Transform.json n d n)) st
  = after_json n d.
Proof.
  rewrite while_json. unfold after_json.
  destruct (n <=? Buffer.length d); [|reflexivity].
  destruct (parsePayload _) as [parsed|e]; [|reflexivity].
  destruct (negb (isPlainObject parsed)); [reflexivity|].
  cbn [settle]. rewrite forwardBody_body. reflexivity.
Qed.

Lemma settle_length cfg fuel jl d st :
  settle (Transform.while (S (S fuel)) cfg
            (Transform.mkState Transform.length LENGTH_BYTES d jl)) st
  = after_length cfg jl d.
Proof.
  rewrite while_length. unfold after_length.
  destruct (LENGTH_BYTES <=? Buffer.length d); [|reflexivity].
  destruct (_ <- _ ;; _)%js as [n|e]; [|reflexivity].
  apply settle_json.
Qed.

Lemma settle_magic cfg fuel jl d st :
  settle (Transform.while (S (S (S fuel))) cfg
            (Transform.mkState Transform.magic MAGIC_LENGTH d jl)) st
  = after_magic cfg jl d.
Proof.
  rewrite while_magic. unfold after_magic.
  destruct (MAGIC_LENGTH <=? Buffer.length d); [|reflexivity].
  destruct (negb (matchesAny _ _)).
  - cbn [settle]. unfold Transform.forwardBody.
    cbn [Transform.buffer Transform.stage Transform.is_body andb].
    change (Buffer.length [] =? 0) with true. cbn [negb].
    now rewrite app_nil_r.
  - apply settle_length.
Qed.

(** One call from a state between calls does what [after] says. *)
Lemma transform_after cfg st c :
  resting st -> Transform.transform cfg st c = after cfg st (Transform.buffer st ++ c).
Proof.
  destruct st as [stage needed buffer jl]. unfold resting, after, Transform.transform.
  cbn [Transform.stage Transform.needed Transform.buffer Transform.jsonLength].
  destruct stage; intros [Hn Hb]; subst needed.
  - apply (settle_magic cfg 1).
  - apply (settle_length cfg 2).
  - apply (settle_json cfg 3).
  - subst buffer. cbn [app Transform.while Transform.needed Transform.buffer].
    replace (0 <=? Buffer.length c) with true
      by (symmetry; apply Z.leb_le; apply Buffer_length_nonneg).
    unfold Transform.switch. cbn [Transform.stage Transform.is_body].
    rewrite forwardBody_body. reflexivity.
Qed.

(** *** Calls compose: the state between calls holds all that matters *)

Lemma sameOutcome_refl x : sameOutcome x x.
Proof. repeat split. Qed.

Lemma subarray_app_within (d c : Buffer.t) n :
  n <= Buffer.length d -> Buffer.subarray (d ++ c) 0 n = Buffer.subarray d 0 n.
Proof.
  unfold Buffer.subarray, Buffer.length. intros H. cbn [Z.to_nat skipn].
  rewrite firstn_app.
  replace (Z.to_nat (n - 0) - List.length d)%nat with 0%nat by lia.
  cbn [firstn]. now rewrite app_nil_r.
Qed.

Lemma subarray_from_app_within (d c : Buffer.t) n :
  n <= Buffer.length d ->
  Buffer.subarray_from (d ++ c) n = Buffer.subarray_from d n ++ c.
Proof.
  unfold Buffer.subarray_from, Buffer.length. intros H.
  rewrite skipn_app.
  replace (Z.to_nat n - List.length d)%nat with 0%nat by lia.
  reflexivity.
Qed.

Lemma leb_app_within (d c : Buffer.t) n :
  (n <=? Buffer.length d) = true -> (n <=? Buffer.length (d ++ c)) = true.
Proof.
  rewrite !Z.leb_le, Buffer_length_app. pose proof (Buffer_length_nonneg c). lia.
Qed.

Lemma readUInt32BE_app_within (d c : Buffer.t) :
  LENGTH_BYTES <= Buffer.length d ->
  Buffer.readUInt32BE (d ++ c) 0 = Buffer.readUInt32BE d 0.
Proof.
  unfold Buffer.readUInt32BE, Buffer.length, LENGTH_BYTES. cbn [Z.to_nat skipn].
  destruct d as [ | b0 [ | b1 [ | b2 [ | b3 rest ] ] ] ]; cbn [List.length]; intros H;
    try lia.
  reflexivity.
Qed.

Lemma thenFeed_json n d c cfg :
  sameOutcome (after_json n (d ++ c)) (thenFeed cfg (after_json n d) c).
Proof.
  unfold after_json at 2.
  destruct (n <=? Buffer.length d) eqn:E.
  - unfold after_json. rewrite (leb_app_within d c n E).
    apply Z.leb_le in E. rewrite subarray_app_within by exact E.
    destruct (parsePayload _) as [parsed|e]; [|apply sameOutcome_refl].
    destruct (negb (isPlainObject parsed)); [apply sameOutcome_refl|].
    cbn [thenFeed after Transform.stage Transform.buffer Transform.jsonLength].
    repeat split; cbn [fst snd]; autorewrite with outputs; [reflexivity|].
    now rewrite subarray_from_app_within by exact E.
  - cbn [thenFeed after Transform.stage Transform.buffer Transform.jsonLength].
    destruct (after_json n (d ++ c)) as [out r]. apply sameOutcome_refl.
Qed.

Lemma thenFeed_length cfg jl d c :
  sameOutcome (after_length cfg jl (d ++ c)) (thenFeed cfg (after_length cfg jl d) c).
Proof.
  unfold after_length at 2.
  destruct (LENGTH_BYTES <=? Buffer.length d) eqn:E.
  - unfold after_length. rewrite (leb_app_within d c _ E).
    apply Z.leb_le in E. rewrite readUInt32BE_app_within by exact E.
    destruct (_ <- _ ;; _)%js as [n|e]; [|apply sameOutcome_refl].
    rewrite subarray_from_app_within by exact E. apply thenFeed_json.
  - cbn [thenFeed after Transform.stage Transform.buffer Transform.jsonLength].
    destruct (after_length cfg jl (d ++ c)) as [out r]. apply sameOutcome_refl.
Qed.

Lemma thenFeed_magic cfg jl d c :
  sameOutcome (after_magic cfg jl (d ++ c)) (thenFeed cfg (after_magic cfg jl d) c).
Proof.
  unfold after_magic at 2.
  destruct (MAGIC_LENGTH <=? Buffer.length d) eqn:E.
  - unfold after_magic. rewrite (leb_app_within d c _ E).
    apply Z.leb_le in E. rewrite subarray_app_within by exact E.
    rewrite subarray_from_app_within by exact E.
    destruct (negb (matchesAny _ _)); [|apply thenFeed_length].
    cbn [thenFeed after Transform.stage Transform.buffer Transform.jsonLength].
    repeat split; cbn [fst snd]; autorewrite with outputs; [reflexivity|].
    now rewrite <- !app_assoc.
  - cbn [thenFeed after Transform.stage Transform.buffer Transform.jsonLength].
    destruct (after_magic cfg jl (d ++ c)) as [out r]. apply sameOutcome_refl.
Qed.

Lemma thenFeed_after cfg st d c :
  sameOutcome (after cfg st (d ++ c)) (thenFeed cfg (after cfg st d) c).
Proof.
  unfold after at 1 2. destruct (Transform.stage st).
  - apply thenFeed_magic.
  - apply thenFeed_length.
  - apply thenFeed_json.
  - cbn [thenFeed after Transform.stage Transform.buffer Transform.jsonLength].
    repeat split; cbn [fst snd]; now autorewrite with outputs.
Qed.

(** *** The stream between calls *)

Ltac leb_false H :=
  apply Z.leb_gt in H.

Lemma after_json_resting n d out st :
  after_json n d = (out, Ok st) -> resting st.
Proof.
  unfold after_json. destruct (n <=? Buffer.length d) eqn:E.
  - destruct (parsePayload _) as [parsed|e]; [|discriminate].
    destruct (negb (isPlainObject parsed)); [discriminate|].
    intros H; inversion H; subst. now split.
  - intros H; inversion H; subst. leb_false E. now split.
Qed.

Lemma after_length_resting cfg jl d out st :
  after_length cfg jl d = (out, Ok st) -> resting st.
Proof.
  unfold after_length. destruct (LENGTH_BYTES <=? Buffer.length d) eqn:E.
  - destruct (_ <- _ ;; _)%js as [n|e]; [|discriminate]. apply after_json_resting.
  - intros H; inversion H; subst. leb_false E. now split.
Qed.

Lemma after_magic_resting cfg jl d out st :
  after_magic cfg jl d = (out, Ok st) -> resting st.
Proof.
  unfold after_magic. destruct (MAGIC_LENGTH <=? Buffer.length d) eqn:E.
  - destruct (negb (matchesAny _ _)); [|apply after_length_resting].
    intros H; inversion H; subst. now split.
  - intros H; inversion H; subst. leb_false E. now split.
Qed.

Lemma after_resting cfg st d out st' :
  after cfg st d = (out, Ok st') -> resting st'.
Proof.
  unfold after. destruct (Transform.stage st).
  - apply after_magic_resting.
  - apply after_length_resting.
  - apply after_json_resting.
  - intros H; inversion H; subst. now split.
Qed.

(** A call that brings nothing changes nothing. *)
Lemma after_rest cfg st :
  resting st -> after cfg st (Transform.buffer st) = ([], Ok st).
Proof.
  destruct st as [stage needed buffer jl]. unfold resting, after.
  cbn [Transform.stage Transform.needed Transform.buffer Transform.jsonLength].
  destruct stage; intros [Hn Hb]; subst needed.
  - unfold after_magic.
    now replace (MAGIC_LENGTH <=? Buffer.length buffer) with false
      by (symmetry; apply Z.leb_gt; lia).
  - unfold after_length.
    now replace (LENGTH_BYTES <=? Buffer.length buffer) with false
      by (symmetry; apply Z.leb_gt; lia).
  - unfold after_json.
    now replace (jl <=? Buffer.length buffer) with false
      by (symmetry; apply Z.leb_gt; lia).
  - now subst buffer.
Qed.

Lemma sameOutcome_trans x y z : sameOutcome x y -> sameOutcome y z -> sameOutcome x z.
Proof.
  intros (a & b & c) (a' & b' & c'). repeat split; congruence.
Qed.

Lemma sameOutcome_sym x y : sameOutcome x y -> sameOutcome y x.
Proof. intros (a & b & c). repeat split; congruence. Qed.

(** Feeding chunks one at a time is one call with all their bytes. *)
Lemma feed_after cfg chunks : forall st,
  resting st ->
  sameOutcome (Transform.feed cfg st chunks)
              (after cfg st (Transform.buffer st ++ Buffer.concat chunks)).
Proof.
  induction chunks as [|c rest IH]; intros st R.
  - cbn [Transform.feed Buffer.concat List.concat]. rewrite app_nil_r, after_rest by exact R.
    apply sameOutcome_refl.
  - cbn [Transform.feed Buffer.concat List.concat].
    fold (Buffer.concat rest). rewrite app_assoc.
    eapply sameOutcome_trans; [|apply sameOutcome_sym, thenFeed_after].
    rewrite transform_after by exact R.
    destruct (after cfg st (Transform.buffer st ++ c)) as [out [st1|e]] eqn:E;
      [|apply sameOutcome_refl].
    cbn [thenFeed]. specialize (IH st1 (after_resting _ _ _ _ _ E)).
    destruct (Transform.feed cfg st1 rest) as [out1 r1].
    destruct (after cfg st1 _) as [out2 r2].
    destruct IH as (a & b & c'). cbn [fst snd] in *.
    repeat split; cbn [fst snd]; autorewrite with outputs; congruence.
Qed.

Lemma resting_initial : resting Transform.initial.
Proof. split; [reflexivity|]. unfold Buffer.length, MAGIC_LENGTH. cbn. lia. Qed.

(** *** Whole-buffer parsing and one call agree *)

Lemma readUInt32BE_subarray_from (b : Buffer.t) k :
  Buffer.readUInt32BE (Buffer.subarray_from b k) 0 = Buffer.readUInt32BE b k.
Proof. reflexivity. Qed.

Lemma subarray_from_length (b : Buffer.t) k :
  0 <= k <= Buffer.length b ->
  Buffer.length (Buffer.subarray_from b k) = Buffer.length b - k.
Proof.
  unfold Buffer.subarray_from, Buffer.length. rewrite length_skipn. lia.
Qed.

Lemma subarray_from_from (b : Buffer.t) k m :
  0 <= k -> 0 <= m ->
  Buffer.subarray_from (Buffer.subarray_from b k) m = Buffer.subarray_from b (k + m).
Proof.
  intros Hk Hm. unfold Buffer.subarray_from. rewrite skipn_skipn. f_equal. lia.
Qed.

Lemma subarray_of_subarray_from (b : Buffer.t) k n :
  Buffer.subarray (Buffer.subarray_from b k) 0 n = Buffer.subarray b k (k + n).
Proof.
  unfold Buffer.subarray, Buffer.subarray_from.
  change (skipn (Z.to_nat 0) ?l) with l. f_equal. lia.
Qed.

Lemma after_magic_decoded buffer opts d magics jl :
  assertMagicList (DecodeOptions.magic opts) = Ok magics ->
  decodePrelude buffer opts = Ok d ->
  after_magic
    (Transform.mkConfig magics (DecodeOptions.maxJsonBytes opts ?? DEFAULT_MAX_JSON_BYTES))
    jl buffer
  = ([Transform.Emit (headers d)]
       ++ Transform.pushNonEmpty (Buffer.subarray_from buffer (offset d)),
     Ok (Transform.mkState Transform.body 0 []
           (offset d - (MAGIC_LENGTH + LENGTH_BYTES)))).
Proof.
  intros Em. unfold decodePrelude. rewrite Em. cbn [bind].
  assert (HM : MAGIC_LENGTH = 4) by reflexivity.
  assert (HL : LENGTH_BYTES = 4) by reflexivity.
  destruct (Buffer.length buffer <? MAGIC_LENGTH + LENGTH_BYTES) eqn:E8; [discriminate|].
  apply Z.ltb_ge in E8.
  destruct (negb (matchesAny magics _)) eqn:Emm; [discriminate|].
  destruct (Buffer.readUInt32BE buffer MAGIC_LENGTH) as [n|e] eqn:Er; cbn [bind];
    [|discriminate].
  destruct (validateJsonLength n _) as [[]|e] eqn:Ev; cbn [bind]; [|discriminate].
  pose proof Ev as Hn. apply validateJsonLength_ok in Hn.
  destruct (Buffer.length buffer <? MAGIC_LENGTH + LENGTH_BYTES + n) eqn:En;
    [discriminate|].
  apply Z.ltb_ge in En.
  destruct (parsePayload _) as [parsed|e] eqn:Ep; cbn [bind]; [|discriminate].
  destruct (negb (isPlainObject parsed)) eqn:Epl; [discriminate|].
  remember (MAGIC_LENGTH + LENGTH_BYTES + n) as off eqn:Eoff.
  intros H. injection H as <-. cbn [headers offset]. subst off.
  unfold after_magic. cbn [Transform.magics].
  replace (MAGIC_LENGTH <=? Buffer.length buffer) with true
    by (symmetry; apply Z.leb_le; lia).
  rewrite Emm. unfold after_length. cbn [Transform.maxJsonBytes].
  rewrite subarray_from_length by lia.
  replace (LENGTH_BYTES <=? Buffer.length buffer - MAGIC_LENGTH) with true
    by (symmetry; apply Z.leb_le; lia).
  rewrite readUInt32BE_subarray_from, Er. cbn [bind]. rewrite Ev. cbn [bind].
  unfold after_json.
  rewrite subarray_from_from by lia.
  rewrite subarray_from_length by lia.
  replace (n <=? Buffer.length buffer - (MAGIC_LENGTH + LENGTH_BYTES)) with true
    by (symmetry; apply Z.leb_le; lia).
  rewrite subarray_of_subarray_from, Ep, Epl.
  rewrite subarray_from_from by lia.
  do 3 f_equal. lia.
Qed.

(** For all options: the chunks of a buffer [decodePrelude] accepts make
    the stream emit the decoded header once and push the bytes after the
    offset. *)
Lemma feed_decoded buffer chunks magic maxJsonBytes d requirePrelude onHeaders autoPause :
  Buffer.concat chunks = buffer ->
  decodePrelude buffer (DecodeOptions.make magic maxJsonBytes) = Ok d ->
  exists out st,
    runTransform (ParsePreludeOptions.make magic maxJsonBytes requirePrelude
                                           onHeaders autoPause) chunks
    = Ok (out, Ok st)
    /\ Transform.is_body (Transform.stage st) = true
    /\ Transform.emitted out = [headers d]
    /\ Transform.pushed out = Buffer.subarray_from buffer (offset d).
Proof.
  intros Hc Hd. unfold runTransform, parsePreludeTransform.
  cbn [ParsePreludeOptions.magic ParsePreludeOptions.maxJsonBytes].
  destruct (assertMagicList magic) as [magics|e] eqn:Em.
  2:{ unfold decodePrelude in Hd. cbn [DecodeOptions.magic] in Hd.
      rewrite Em in Hd. discriminate. }
  cbn [bind].
  pose proof (after_magic_decoded buffer (DecodeOptions.make magic maxJsonBytes)
                d magics 0 Em Hd) as Ha.
  cbn [DecodeOptions.maxJsonBytes] in Ha.
  pose proof (feed_after
                (Transform.mkConfig magics (maxJsonBytes ?? DEFAULT_MAX_JSON_BYTES))
                chunks Transform.initial resting_initial) as Hf.
  change (Transform.buffer Transform.initial ++ Buffer.concat chunks)
    with (Buffer.concat chunks) in Hf.
  rewrite Hc in Hf.
  change (after ?c Transform.initial buffer) with (after_magic c 0 buffer) in Hf.
  rewrite Ha in Hf.
  destruct (Transform.feed _ _ chunks) as [out r].
  destruct Hf as (Hr & He & Hp). cbn [fst snd] in *. subst r.
  eexists out, _. split; [reflexivity|]. split; [reflexivity|].
  split.
  - rewrite He. now autorewrite with outputs.
  - rewrite Hp. now autorewrite with outputs.
Qed.

(** *** The header event comes first *)

Lemma pushNonEmpty_pushes b :
  exists pushes, Transform.pushNonEmpty b = map Transform.Push pushes.
Proof.
  unfold Transform.pushNonEmpty. destruct (_ =? _);
    [now exists []|now exists [b]].
Qed.

Lemma after_json_shape n d :
  headerThenBody (fst (after_json n d)) (snd (after_json n d)).
Proof.
  unfold after_json. destruct (n <=? Buffer.length d); [|reflexivity].
  destruct (parsePayload _) as [parsed|e]; [|reflexivity].
  destruct (negb (isPlainObject parsed)); [reflexivity|].
  cbn [fst snd headerThenBody Transform.stage Transform.is_body].
  destruct (pushNonEmpty_pushes (Buffer.subarray_from d n)) as [ps E].
  exists parsed, ps. now rewrite E.
Qed.

Lemma after_length_shape cfg jl d :
  headerThenBody (fst (after_length cfg jl d)) (snd (after_length cfg jl d)).
Proof.
  unfold after_length. destruct (LENGTH_BYTES <=? Buffer.length d); [|reflexivity].
  destruct (_ <- _ ;; _)%js as [n|e]; [|reflexivity]. apply after_json_shape.
Qed.

Lemma after_magic_shape cfg jl d :
  headerThenBody (fst (after_magic cfg jl d)) (snd (after_magic cfg jl d)).
Proof.
  unfold after_magic. destruct (MAGIC_LENGTH <=? Buffer.length d); [|reflexivity].
  destruct (negb (matchesAny _ _)); [|apply after_length_shape].
  cbn [fst snd headerThenBody Transform.stage Transform.is_body].
  destruct (pushNonEmpty_pushes (Buffer.subarray_from d MAGIC_LENGTH)) as [ps E].
  exists (JObject []), (Buffer.subarray d 0 MAGIC_LENGTH :: ps).
  cbn [app map]. now rewrite E.
Qed.

Lemma after_shape cfg st d :
  Transform.is_body (Transform.stage st) = false ->
  headerThenBody (fst (after cfg st d)) (snd (after cfg st d)).
Proof.
  unfold after. destruct (Transform.stage st); try discriminate; intros _.
  - apply after_magic_shape.
  - apply after_length_shape.
  - apply after_json_shape.
Qed.

Lemma feed_body cfg chunks : forall st,
  resting st -> Transform.is_body (Transform.stage st) = true ->
  exists pushes, Transform.feed cfg st chunks = (map Transform.Push pushes, Ok st).
Proof.
  induction chunks as [|c rest IH]; intros st R Hb.
  - now exists [].
  - cbn [Transform.feed]. rewrite transform_after by exact R.
    destruct st as [stage needed buffer jl]. unfold resting in R. cbn in Hb, R.
    destruct stage; try discriminate. destruct R as [-> ->].
    unfold after. cbn [Transform.stage Transform.jsonLength Transform.buffer app].
    destruct (IH (Transform.mkState Transform.body 0 [] jl)) as [ps E];
      [now split|reflexivity|].
    rewrite E. destruct (pushNonEmpty_pushes c) as [ps0 E0]. rewrite E0.
    exists (ps0 ++ ps). now rewrite map_app.
Qed.

Lemma feed_shape cfg chunks : forall st,
  resting st -> Transform.is_body (Transform.stage st) = false ->
  headerThenBody (fst (Transform.feed cfg st chunks))
                 (snd (Transform.feed cfg st chunks)).
Proof.
  induction chunks as [|c rest IH]; intros st R Hb.
  - cbn [Transform.feed fst snd headerThenBody]. now rewrite Hb.
  - cbn [Transform.feed]. rewrite transform_after by exact R.
    pose proof (after_shape cfg st (Transform.buffer st ++ c) Hb) as Hs.
    destruct (after cfg st (Transform.buffer st ++ c)) as [out [st1|e]] eqn:E;
      cbn [fst snd] in Hs |- *; [|exact Hs].
    pose proof (after_resting _ _ _ _ _ E) as R1.
    cbn [headerThenBody] in Hs.
    destruct (Transform.is_body (Transform.stage st1)) eqn:Hb1.
    + destruct Hs as (h & ps & ->).
      destruct (feed_body cfg rest st1 R1 Hb1) as [ps' E'].
      rewrite E'. cbn [fst snd headerThenBody]. rewrite Hb1.
      exists h, (ps ++ ps'). cbn [app]. now rewrite map_app.
    + subst out. specialize (IH st1 R1 Hb1).
      destruct (Transform.feed cfg st1 rest) as [out' r']. exact IH.
Qed.

Lemma emitted_pushes pushes : Transform.emitted (map Transform.Push pushes) = [].
Proof. induction pushes; [reflexivity|]. cbn [map]. now autorewrite with outputs. Qed.
(* ------------------------------------------------------------------ *)
(** ** Exact-size reads                                                 *)
(* ------------------------------------------------------------------ *)

Lemma firstn_app_within {A} (a b : list A) n :
  (n <= List.length a)%nat -> firstn n (a ++ b) = firstn n a.
Proof.
  intros H. rewrite firstn_app.
  replace (n - List.length a)%nat with 0%nat by lia.
  cbn [firstn]. now rewrite app_nil_r.
Qed.

Lemma skipn_app_within {A} (a b : list A) n :
  (n <= List.length a)%nat -> skipn n (a ++ b) = skipn n a ++ b.
Proof.
  intros H. rewrite skipn_app.
  now replace (n - List.length a)%nat with 0%nat by lia.
Qed.

Lemma content_length_buffered s :
  Readable.readableLength s <= Buffer.length (Readable.content s).
Proof.
  unfold Readable.readableLength, Readable.content. rewrite Buffer_length_app.
  match goal with |- _ <= _ + Buffer.length ?x => pose proof (Buffer_length_nonneg x) end.
  lia.
Qed.

Lemma readableLength_empty s :
  Readable.readableLength s <= 0 -> Readable.buffered s = [].
Proof.
  unfold Readable.readableLength, Buffer.length.
  destruct (Readable.buffered s); [reflexivity|cbn [List.length]; lia].
Qed.

(** *** Removing the 'readable' listener *)

Lemma released_flags t :
  Readable.ended (Readable.released t) = Readable.ended t
  /\ Readable.readableEnded (Readable.released t) = Readable.readableEnded t
  /\ Readable.dataListeners (Readable.released t) = Readable.dataListeners t
  /\ Readable.destroyed (Readable.released t) = Readable.destroyed t
  /\ Readable.errored (Readable.released t) = Readable.errored t
  /\ Readable.hasUnshift (Readable.released t) = Readable.hasUnshift t
  /\ Readable.upcoming (Readable.released t) = Readable.upcoming t.
Proof.
  unfold Readable.released.
  destruct (0 <? Readable.dataListeners t)%nat; repeat split.
Qed.

Lemma released_empty t :
  Readable.buffered t = [] -> Readable.buffered (Readable.released t) = [].
Proof.
  intros H. unfold Readable.released.
  now destruct (0 <? Readable.dataListeners t)%nat.
Qed.

Lemma released_quiet t :
  Readable.dataListeners t = O ->
  Readable.released t = Readable.with_flowing None t.
Proof. intros H. unfold Readable.released. now rewrite H. Qed.

Lemma released_heard t :
  (0 <? Readable.dataListeners t)%nat = true ->
  Readable.buffered (Readable.released t) = [].
Proof. intros H. unfold Readable.released. now rewrite H. Qed.

(** *** One turn of the loop *)

(** The loop once enough has been collected. *)
Lemma readExactly_loop_done fuel s size buffers collected :
  size <= collected ->
  readExactly_loop (S fuel) s size buffers collected
  = Some (Resolved (match buffers with
                    | [only] => only
                    | _ => Buffer.concat buffers
                    end), s).
Proof.
  intros H. cbn [readExactly_loop].
  now replace (collected <? size) with false by (symmetry; apply Z.ltb_ge; lia).
Qed.

(** A read that finds too little in a stream that has not ended, or
    nothing at all, returns [null]. *)
Lemma read_null s n :
  0 < n -> Readable.readableLength s < n ->
  Readable.ended s = false \/ Readable.buffered s = [] ->
  Readable.read s n = (None, s).
Proof.
  intros Hn Hl H. unfold Readable.read.
  replace (n <=? 0) with false by (symmetry; apply Z.leb_gt; lia).
  replace (n <=? Readable.readableLength s) with false
    by (symmetry; apply Z.leb_gt; lia).
  destruct H as [H|H].
  - now rewrite H.
  - unfold Readable.readableLength. rewrite H.
    now destruct (Readable.ended s).
Qed.

(** The loop when the read returns [null]: it waits. *)
Lemma readExactly_loop_waits fuel s size buffers collected :
  collected < size ->
  Readable.readableLength s < size - collected ->
  Readable.ended s = false \/ Readable.buffered s = [] ->
  Readable.readableEnded s = false ->
  readExactly_loop (S fuel) s size buffers collected
  = match Readable.await s with
    | Readable.OnReadable s' => readExactly_loop fuel s' size buffers collected
    | Readable.OnEnd s' => Some (Rejected newPreludeTruncatedError, s')
    | Readable.OnError e s' => Some (Rejected e, s')
    | Readable.Never => Some (Pending, s)
    end.
Proof.
  intros Hk Hl H Hre. cbn [readExactly_loop].
  replace (collected <? size) with true by (symmetry; apply Z.ltb_lt; lia).
  rewrite read_null by (assumption || lia). now rewrite Hre.
Qed.

(** Enough bytes are in the buffer: one read takes them. *)
Lemma readExactly_loop_buffered fuel s size :
  0 < size -> size <= Readable.readableLength s ->
  readExactly_loop (S (S fuel)) s size [] 0
  = Some (Resolved (firstn (Z.to_nat size) (Readable.buffered s)),
          Readable.with_buffered (skipn (Z.to_nat size) (Readable.buffered s)) s).
Proof.
  intros Hs Hl. remember (S fuel) as f eqn:Ef. cbn [readExactly_loop].
  replace (0 <? size) with true by (symmetry; apply Z.ltb_lt; lia).
  unfold Readable.read. rewrite Z.sub_0_r.
  replace (size <=? 0) with false by (symmetry; apply Z.leb_gt; lia).
  replace (size <=? Readable.readableLength s) with true
    by (symmetry; apply Z.leb_le; lia).
  subst f. rewrite readExactly_loop_done.
  - reflexivity.
  - unfold Buffer.length. rewrite length_firstn.
    unfold Readable.readableLength, Buffer.length in Hl. lia.
Qed.

(** A stream that has ended and is drained: the loop sees the end, and
    stays pending on a destroyed stream, which emits nothing. *)
Lemma readExactly_loop_drained fuel s size buffers collected :
  Readable.ended s = true -> Readable.buffered s = [] -> collected < size ->
  readExactly_loop (S fuel) s size buffers collected
  = Some (if Readable.readableEnded s
          then (Rejected newPreludeTruncatedError, s)
          else if Readable.destroyed s then (Pending, s)
          else (Rejected newPreludeTruncatedError,
                Readable.released
                  (Readable.autoDestroy (Readable.with_readableEnded true s)))).
Proof.
  intros He Hb Hk. cbn [readExactly_loop].
  replace (collected <? size) with true by (symmetry; apply Z.ltb_lt; lia).
  rewrite read_null.
  - destruct (Readable.readableEnded s); [reflexivity|].
    unfold Readable.await. rewrite Hb, He.
    now destruct (Readable.destroyed s).
  - lia.
  - unfold Readable.readableLength. rewrite Hb. change (Buffer.length []) with 0. lia.
  - now right.
Qed.

(** A stream that has ended with too little: whatever is left is read,
    then the end is seen. *)
Lemma readExactly_loop_ended fuel s size buffers collected :
  Readable.ended s = true ->
  Readable.destroyed s = false ->
  collected < size ->
  collected + Readable.readableLength s < size ->
  exists s',
    readExactly_loop (S (S fuel)) s size buffers collected
    = Some (Rejected newPreludeTruncatedError, s').
Proof.
  intros He Hd Hlt Hshort.
  assert (Hlen : 0 <= Readable.readableLength s) by apply Buffer_length_nonneg.
  destruct (Z.eq_dec (Readable.readableLength s) 0) as [H0|H0].
  - assert (Hb : Readable.buffered s = []) by (apply readableLength_empty; lia).
    rewrite readExactly_loop_drained by assumption. rewrite Hd.
    destruct (Readable.readableEnded s); eauto.
  - remember (S fuel) as f eqn:Ef. cbn [readExactly_loop].
    replace (collected <? size) with true by (symmetry; apply Z.ltb_lt; lia).
    unfold Readable.read.
    replace (size - collected <=? 0) with false by (symmetry; apply Z.leb_gt; lia).
    replace (size - collected <=? Readable.readableLength s) with false
      by (symmetry; apply Z.leb_gt; lia).
    rewrite He.
    replace (0 <? Readable.readableLength s) with true
      by (symmetry; apply Z.ltb_lt; lia).
    cbn [andb]. subst f. rewrite readExactly_loop_drained.
    + cbn [Readable.with_buffered Readable.readableEnded Readable.destroyed].
      rewrite Hd. destruct (Readable.readableEnded s); eauto.
    + exact He.
    + reflexivity.
    + exact Hshort.
Qed.

(** *** A source that brings no further bytes *)

(** The stream is empty and has not ended: the loop follows the producer
    until it closes the stream; what arrives on the way goes to the 'data'
    listeners. *)
Lemma readExactly_loop_closes size events : forall s fuel buffers collected,
  Readable.upcoming s = events ->
  Readable.buffered s = [] ->
  Readable.ended s = false ->
  Readable.readableEnded s = false ->
  Readable.destroyed s = false ->
  closedOff s = true ->
  collected < size ->
  (List.length events + 2 <= fuel)%nat ->
  exists s',
    readExactly_loop fuel s size buffers collected
    = Some (closingOutcome (closingEvent events), s').
Proof.
  induction events as [|ev rest IH];
    intros s fuel buffers collected Hu Hb He Hre Hd Hc Hk Hf;
    (destruct fuel as [|fuel]; [lia|]);
    (rewrite readExactly_loop_waits;
     [ | exact Hk
       | unfold Readable.readableLength; rewrite Hb;
         change (Buffer.length []) with 0; lia
       | now right
       | exact Hre ]);
    unfold Readable.await; rewrite Hd, Hb, He, Hu.
  - eexists. reflexivity.
  - destruct ev as [chunk| |e]; cbn [closingEvent closingOutcome].
    + unfold closedOff in Hc. rewrite He, Hb, Hu in Hc. cbn [orb] in Hc.
      rewrite orb_false_r in Hc.
      unfold Readable.released.
      cbn [Readable.with_upcoming Readable.with_buffered Readable.dataListeners
           Readable.ended Readable.readableEnded Readable.destroyed
           Readable.errored Readable.hasUnshift Readable.upcoming].
      rewrite Hc.
      apply IH; cbn [Readable.upcoming Readable.buffered Readable.ended
                     Readable.readableEnded Readable.destroyed]; auto.
      * unfold closedOff. cbn [Readable.ended Readable.dataListeners].
        rewrite He, Hc. reflexivity.
      * cbn [List.length] in Hf. lia.
    + destruct fuel as [|fuel]; [cbn [List.length] in Hf; lia|].
      set (s1 := Readable.with_upcoming rest (Readable.with_ended true s)).
      destruct (released_flags s1) as (He1 & Hre1 & _ & Hd1 & _).
      rewrite readExactly_loop_drained;
        [|now rewrite He1|now apply released_empty|exact Hk].
      rewrite Hre1, Hd1. unfold s1.
      cbn [Readable.with_upcoming Readable.with_ended Readable.readableEnded
           Readable.destroyed].
      rewrite Hre, Hd. eauto.
    + eauto.
Qed.

Lemma readExactly_fuel_ge s : exists fuel, readExactly_fuel s = S (S (S (S fuel))).
Proof.
  unfold readExactly_fuel. exists (List.length (Readable.upcoming s)).
  now rewrite Nat.add_comm.
Qed.

Lemma readExactly_of_loop size s outcome :
  readExactly_loop (readExactly_fuel s) s size [] 0 = Some outcome ->
  readExactly size s = outcome.
Proof. intros E. unfold readExactly. now rewrite E. Qed.

(** [readExactly] on a source that brings no further bytes and holds fewer
    than [size]: the read settles as the producer closes the stream, and
    not at all when the producer goes silent. *)
Lemma readExactly_closedOff size s :
  Readable.consistent s ->
  Readable.destroyed s = false ->
  0 < size ->
  closedOff s = true ->
  Readable.readableLength s < size ->
  exists s', readExactly size s = (closingOutcome (closing s), s').
Proof.
  intros Hc Hd Hs Hcl Hl. unfold closing.
  destruct (Readable.ended s) eqn:He.
  - destruct (readExactly_fuel_ge s) as [f Ef].
    destruct (readExactly_loop_ended (S (S f)) s size [] 0 He Hd Hs) as [s' E]; [lia|].
    exists s'. apply readExactly_of_loop. now rewrite Ef.
  - assert (Hre : Readable.readableEnded s = false).
    { destruct (Readable.readableEnded s) eqn:E; [|reflexivity].
      destruct (Hc E) as [E' _]. congruence. }
    destruct (Readable.buffered s) as [|b bs] eqn:Hb.
    + destruct (readExactly_loop_closes size (Readable.upcoming s) s
                  (readExactly_fuel s) [] 0 eq_refl Hb He Hre Hd Hcl Hs)
        as [s' E]; [unfold readExactly_fuel; lia|].
      exists s'. now apply readExactly_of_loop.
    + assert (Hn : (0 <? Readable.dataListeners s)%nat = true).
      { unfold closedOff in Hcl. rewrite He, Hb in Hcl. cbn [orb] in Hcl.
        now rewrite orb_false_r in Hcl. }
      destruct (readExactly_fuel_ge s) as [f Ef].
      set (s1 := Readable.released s).
      destruct (readExactly_loop_closes size (Readable.upcoming s) s1
                  (S (S (S f))) [] 0) as [s' E];
        try (unfold s1, Readable.released; rewrite Hn; cbn; auto; fail).
      * unfold s1, Readable.released, closedOff. rewrite Hn.
        cbn [Readable.ended Readable.dataListeners]. rewrite He, Hn. reflexivity.
      * exact Hs.
      * unfold readExactly_fuel in Ef. lia.
      * exists s'. apply readExactly_of_loop. rewrite Ef.
        rewrite readExactly_loop_waits; [|lia|lia|now left|exact Hre].
        unfold Readable.await. rewrite Hd, Hb. exact E.
Qed.

(** *** The bytes at hand *)

Lemma arrived_buffered s :
  Readable.buffered s <> [] -> arrived s = s.
Proof. unfold arrived. now destruct (Readable.buffered s). Qed.

Lemma atHand_buffered s :
  Readable.buffered s <> [] -> atHand s = Readable.buffered s.
Proof. intros H. unfold atHand. now rewrite arrived_buffered. Qed.

Lemma arrived_flags s :
  Readable.ended (arrived s) = Readable.ended s
  /\ Readable.readableEnded (arrived s) = Readable.readableEnded s
  /\ Readable.dataListeners (arrived s) = Readable.dataListeners s
  /\ Readable.destroyed (arrived s) = Readable.destroyed s
  /\ Readable.errored (arrived s) = Readable.errored s
  /\ Readable.hasUnshift (arrived s) = Readable.hasUnshift s.
Proof.
  unfold arrived. destruct (Readable.buffered s); [|repeat split].
  destruct (Readable.ended s || Readable.destroyed s
            || (0 <? Readable.dataListeners s)%nat); [repeat split|].
  destruct (Readable.upcoming s) as [|[chunk| |e] rest]; repeat split.
Qed.

Lemma content_arrived s : Readable.content (arrived s) = Readable.content s.
Proof.
  unfold arrived. destruct (Readable.buffered s) eqn:Hb; [|reflexivity].
  destruct (Readable.ended s) eqn:He; [reflexivity|]. cbn [orb].
  destruct (Readable.destroyed s || (0 <? Readable.dataListeners s)%nat);
    [reflexivity|].
  destruct (Readable.upcoming s) as [|[chunk| |e] rest] eqn:Hu; try reflexivity.
  unfold Readable.content. cbn. now rewrite Hb, He, Hu.
Qed.

(** The bytes at hand are the first bytes of the stream. *)
Lemma content_atHand s :
  exists later, Readable.content s = atHand s ++ later.
Proof.
  rewrite <- content_arrived. unfold atHand, Readable.content. eauto.
Qed.

(** A source that holds nothing and has bytes at hand receives them as the
    producer's next chunk. *)
Lemma atHand_arrives s :
  Readable.buffered s = [] -> atHand s <> [] ->
  exists rest,
    Readable.upcoming s = Readable.Data (atHand s) :: rest
    /\ Readable.ended s = false
    /\ Readable.destroyed s = false
    /\ Readable.dataListeners s = O
    /\ arrived s
       = Readable.with_flowing None
           (Readable.with_upcoming rest (Readable.with_buffered (atHand s) s)).
Proof.
  intros Hb H. unfold atHand, arrived in *.
  destruct (Readable.buffered s) as [|b bs] eqn:Hb'; [clear Hb|discriminate Hb].
  destruct (Readable.ended s); [cbn [orb] in H; congruence|].
  destruct (Readable.destroyed s); [cbn [orb] in H; congruence|].
  destruct (Readable.dataListeners s);
    [|cbn [orb Nat.ltb Nat.leb] in H; congruence].
  cbn [orb Nat.ltb Nat.leb] in *.
  destruct (Readable.upcoming s) as [|[chunk| |e] rest]; try congruence.
  exists rest. repeat split.
Qed.

Lemma not_readableEnded s :
  Readable.consistent s -> Readable.ended s = false ->
  Readable.readableEnded s = false.
Proof.
  intros Hc He. destruct (Readable.readableEnded s) eqn:E; [|reflexivity].
  destruct (Hc E) as [E' _]. congruence.
Qed.

(** The loop on a source with nothing in the buffer and bytes at hand: the
    first wake brings them. *)
Lemma readExactly_loop_arrives fuel s size :
  Readable.consistent s ->
  Readable.buffered s = [] -> atHand s <> [] ->
  0 < size ->
  readExactly_loop (S fuel) s size [] 0 = readExactly_loop fuel (arrived s) size [] 0.
Proof.
  intros Hc Hb H Hs.
  destruct (atHand_arrives s Hb H) as (rest & Hu & He & Hd & Hn & Ha).
  rewrite readExactly_loop_waits.
  - unfold Readable.await. rewrite Hd, Hb, He, Hu.
    unfold Readable.released. cbn [Readable.with_upcoming Readable.with_buffered
                                    Readable.dataListeners].
    rewrite Hn. cbn [Nat.ltb Nat.leb]. now rewrite Ha.
  - exact Hs.
  - unfold Readable.readableLength. rewrite Hb. change (Buffer.length []) with 0. lia.
  - now left.
  - now apply not_readableEnded.
Qed.

Lemma readExactly_buffered size s :
  0 < size -> size <= Readable.readableLength s ->
  readExactly size s
  = (Resolved (firstn (Z.to_nat size) (Readable.buffered s)),
     Readable.with_buffered (skipn (Z.to_nat size) (Readable.buffered s)) s).
Proof.
  intros Hs Hl. apply readExactly_of_loop.
  destruct (readExactly_fuel_ge s) as [f ->].
  now apply readExactly_loop_buffered.
Qed.

(** [readExactly] with [size] bytes at hand resolves with the first [size]
    of them and leaves the others in the buffer. *)
Lemma readExactly_first size s :
  Readable.consistent s ->
  0 < size -> size <= Buffer.length (atHand s) ->
  readExactly size s
  = (Resolved (firstn (Z.to_nat size) (atHand s)),
     Readable.with_buffered (skipn (Z.to_nat size) (atHand s)) (arrived s)).
Proof.
  intros Hc Hs Hl.
  destruct (Readable.buffered s) as [|b bs] eqn:Hb.
  - assert (H : atHand s <> []).
    { intros E. rewrite E in Hl. change (Buffer.length []) with 0 in Hl. lia. }
    apply readExactly_of_loop.
    destruct (readExactly_fuel_ge s) as [f ->].
    rewrite readExactly_loop_arrives by assumption.
    now apply readExactly_loop_buffered.
  - assert (H : Readable.buffered s <> []) by (now rewrite Hb).
    rewrite (atHand_buffered s H) in *. rewrite (arrived_buffered s H).
    now apply readExactly_buffered.
Qed.

Lemma readExactly_nothing size s :
  size <= 0 -> readExactly size s = (Resolved [], s).
Proof.
  intros H. apply readExactly_of_loop.
  destruct (readExactly_fuel_ge s) as [f ->].
  now rewrite readExactly_loop_done.
Qed.

(** *** A reader that is woken without end *)

(** Some bytes are in the buffer, fewer than the loop needs, of a live
    stream without 'data' listeners that has not ended: however many turns
    the loop is given, it has not returned. *)
Lemma readExactly_loop_starved size : forall fuel s buffers collected,
  Readable.destroyed s = false ->
  Readable.ended s = false ->
  Readable.readableEnded s = false ->
  Readable.dataListeners s = O ->
  0 < Readable.readableLength s < size - collected ->
  readExactly_loop fuel s size buffers collected = None.
Proof.
  induction fuel as [|fuel IH]; intros s buffers collected Hd He Hre Hn Hl;
    [reflexivity|].
  rewrite readExactly_loop_waits; [|lia|lia|now left|exact Hre].
  unfold Readable.await. rewrite Hd.
  destruct (Readable.buffered s) as [|b bs] eqn:Hb.
  - exfalso. unfold Readable.readableLength in Hl. rewrite Hb in Hl.
    change (Buffer.length []) with 0 in Hl. lia.
  - unfold Readable.released. rewrite Hn. cbn [Nat.ltb Nat.leb].
    apply IH; cbn [Readable.with_flowing Readable.destroyed Readable.ended
                   Readable.readableEnded Readable.dataListeners]; auto.
Qed.

Lemma readExactly_loop_starving size s :
  Readable.consistent s -> starving size s ->
  forall fuel, readExactly_loop fuel s size [] 0 = None.
Proof.
  intros Hc (Hd & He & Hre & Hn & Hl) fuel.
  assert (Ha : atHand s <> []).
  { intros E. rewrite E in Hl. change (Buffer.length []) with 0 in Hl. lia. }
  destruct (arrived_flags s) as (He' & Hre' & Hn' & Hd' & _).
  destruct (Readable.buffered s) as [|b bs] eqn:Hb.
  - destruct fuel as [|fuel]; [reflexivity|].
    rewrite readExactly_loop_arrives by (assumption || lia).
    apply readExactly_loop_starved; try congruence.
    unfold Readable.readableLength. fold (atHand s). lia.
  - assert (H : Readable.buffered s <> []) by (now rewrite Hb).
    rewrite (atHand_buffered s H) in Hl.
    apply readExactly_loop_starved; auto.
    unfold Readable.readableLength. lia.
Qed.

(** *** The bound on the turns of the loop *)

(** A loop given more turns than the producer has events, and three more,
    that has not returned never returns. *)
Lemma readExactly_loop_bound size : forall fuel s buffers collected,
  (List.length (Readable.upcoming s) + 2
   + (if (0 <? Readable.dataListeners s)%nat
      then match Readable.buffered s with [] => 0 | _ :: _ => 1 end
      else 0) <= fuel)%nat ->
  readExactly_loop fuel s size buffers collected = None ->
  forall fuel', readExactly_loop fuel' s size buffers collected = None.
Proof.
  induction fuel as [|fuel IH]; intros s buffers collected Hf E fuel'; [lia|].
  destruct fuel' as [|fuel']; [reflexivity|].
  cbn [readExactly_loop] in E |- *.
  destruct (collected <? size) eqn:Ek; [|discriminate E].
  apply Z.ltb_lt in Ek.
  unfold Readable.read in E |- *.
  replace (size - collected <=? 0) with false in E |- *
    by (symmetry; apply Z.leb_gt; lia).
  destruct (size - collected <=? Readable.readableLength s) eqn:El.
  { (* the read completes the collection *)
    exfalso. destruct fuel as [|fuel]; [lia|].
    rewrite readExactly_loop_done in E; [discriminate E|].
    apply Z.leb_le in El. unfold Buffer.length. rewrite length_firstn.
    unfold Readable.readableLength, Buffer.length in El. lia. }
  apply Z.leb_gt in El.
  destruct (Readable.ended s && (0 <? Readable.readableLength s)) eqn:Ee.
  { (* the last bytes of an ended stream *)
    exfalso. apply andb_true_iff in Ee as [He Hpos]. apply Z.ltb_lt in Hpos.
    destruct fuel as [|fuel]; [lia|].
    rewrite readExactly_loop_drained in E; [discriminate E|exact He|reflexivity|].
    fold (Readable.readableLength s). lia. }
  destruct (Readable.readableEnded s) eqn:Hre; [discriminate E|].
  unfold Readable.await in E |- *.
  destruct (Readable.destroyed s) eqn:Hd; [discriminate E|].
  destruct (Readable.buffered s) as [|b bs] eqn:Hb.
  - destruct (Readable.ended s) eqn:He; [discriminate E|].
    destruct (Readable.upcoming s) as [|[chunk| |e] rest] eqn:Hu;
      try discriminate E.
    + cbn [List.length] in Hf.
      apply (IH _ _ _ ) with (2 := E).
      unfold Readable.released.
      cbn [Readable.with_upcoming Readable.with_buffered Readable.dataListeners].
      destruct (0 <? Readable.dataListeners s)%nat eqn:Hn;
        cbn [Readable.upcoming Readable.dataListeners Readable.buffered
             Readable.with_flowing Readable.with_upcoming Readable.with_buffered];
        rewrite ?Hn; lia.
    + cbn [List.length] in Hf.
      apply (IH _ _ _ ) with (2 := E).
      set (s1 := Readable.with_upcoming rest (Readable.with_ended true s)).
      destruct (released_flags s1) as (_ & _ & _ & _ & _ & _ & Hu1).
      rewrite Hu1, (released_empty s1 Hb). unfold s1.
      cbn [Readable.with_upcoming Readable.with_ended Readable.upcoming].
      destruct (0 <? Readable.dataListeners s)%nat;
        destruct (0 <? _)%nat; cbn beta iota in Hf |- *; lia.
  - assert (He : Readable.ended s = false).
    { destruct (Readable.ended s); [|reflexivity]. cbn [andb] in Ee.
      apply Z.ltb_ge in Ee. unfold Readable.readableLength, Buffer.length in Ee.
      rewrite Hb in Ee. cbn [List.length] in Ee. lia. }
    unfold Readable.released in E |- *.
    destruct (0 <? Readable.dataListeners s)%nat eqn:Hn.
    + try rewrite Hn in Hf.
      apply (IH _ _ _ ) with (2 := E).
      cbn [Readable.upcoming Readable.dataListeners Readable.buffered].
      rewrite Hn. lia.
    + apply readExactly_loop_starved;
        cbn [Readable.with_flowing Readable.destroyed Readable.ended
             Readable.readableEnded Readable.dataListeners]; auto.
      * apply Nat.ltb_ge in Hn. lia.
      * unfold Readable.readableLength in El |- *.
        cbn [Readable.buffered Readable.with_flowing]. rewrite Hb in El |- *.
        unfold Buffer.length in *. cbn [List.length] in *. lia.
Qed.

(** The turns [readExactly] gives its loop are enough: a loop that returns
    at all returns within them. *)
Lemma readExactly_fuel_suffices size s fuel outcome :
  readExactly_loop fuel s size [] 0 = Some outcome ->
  readExactly size s = outcome.
Proof.
  intros E. unfold readExactly.
  destruct (readExactly_loop (readExactly_fuel s) s size [] 0) as [o|] eqn:E'.
  - (* both returned: more turns do not change the result *)
    assert (Hmono : forall f g t bs k o1,
               readExactly_loop f t size bs k = Some o1 ->
               readExactly_loop (f + g) t size bs k = Some o1).
    { induction f as [|f IHf]; intros g t bs k o1 H; [discriminate H|].
      cbn [readExactly_loop Nat.add] in H |- *.
      destruct (k <? size); [|exact H].
      destruct (Readable.read t (size - k)) as [[buf|] t1]; [now apply IHf|].
      destruct (Readable.readableEnded t1); [exact H|].
      destruct (Readable.await t1); try exact H. now apply IHf. }
    pose proof (Hmono _ (readExactly_fuel s) _ _ _ _ E) as H1.
    pose proof (Hmono _ fuel _ _ _ _ E') as H2.
    rewrite Nat.add_comm in H2. congruence.
  - rewrite (readExactly_loop_bound size (readExactly_fuel s) s [] 0) in E;
      [discriminate E| |exact E'].
    unfold readExactly_fuel.
    destruct (0 <? Readable.dataListeners s)%nat; [|lia].
    destruct (Readable.buffered s); lia.
Qed.

Lemma readExactly_starving size s :
  Readable.consistent s -> starving size s ->
  readExactly size s = (Pending, s).
Proof.
  intros Hc H. unfold readExactly.
  now rewrite (readExactly_loop_starving size s Hc H).
Qed.

(** *** What a read leaves of a live stream *)

Lemma read_destroyed s n :
  Readable.destroyed (snd (Readable.read s n)) = Readable.destroyed s.
Proof.
  unfold Readable.read.
  repeat match goal with |- context [if ?c then _ else _] => destruct c end;
    reflexivity.
Qed.

(** The loop leaves a live stream live, unless the stream fails and the
    loop rejects with that error, or the stream ends and the loop rejects
    with the truncation error. *)
Lemma readExactly_loop_accounts size fuel : forall s buffers collected outcome,
  Readable.destroyed s = false ->
  readExactly_loop fuel s size buffers collected = Some outcome ->
  accountsFor outcome.
Proof.
  induction fuel as [|fuel IH]; intros s buffers collected outcome Hd E;
    [discriminate|].
  cbn [readExactly_loop] in E.
  destruct (collected <? size).
  2:{ injection E as <-. exact Hd. }
  pose proof (read_destroyed s (size - collected)) as Hd1.
  destruct (Readable.read s (size - collected)) as [chunk s1].
  cbn [snd] in Hd1. rewrite Hd in Hd1.
  destruct chunk as [buf|].
  - eapply IH; eauto.
  - destruct (Readable.readableEnded s1) eqn:Hre.
    + injection E as <-. now left.
    + unfold Readable.await in E. rewrite Hd1 in E.
      destruct (Readable.buffered s1) as [|b bs].
      * destruct (Readable.ended s1).
        -- injection E as <-. right. right. split; [reflexivity|].
           match goal with
           | |- Readable.readableEnded (Readable.released ?t) = true =>
               destruct (released_flags t) as (_ & -> & _)
           end.
           unfold Readable.autoDestroy.
           now destruct (Readable.destroyed (Readable.with_readableEnded true s1)).
        -- destruct (Readable.upcoming s1) as [|[chunk| |e] rest].
           ++ injection E as <-. exact I.
           ++ eapply IH; [|exact E].
              match goal with
              | |- Readable.destroyed (Readable.released ?t) = false =>
                  destruct (released_flags t) as (_ & _ & _ & -> & _)
              end.
              exact Hd1.
           ++ eapply IH; [|exact E].
              match goal with
              | |- Readable.destroyed (Readable.released ?t) = false =>
                  destruct (released_flags t) as (_ & _ & _ & -> & _)
              end.
              exact Hd1.
           ++ injection E as <-. right. left.
              match goal with
              | |- Readable.errored (Readable.released ?t) = _ =>
                  destruct (released_flags t) as (_ & _ & _ & _ & -> & _)
              end.
              unfold Readable.destroy. rewrite Hd1. reflexivity.
      * eapply IH; [|exact E].
        match goal with
        | |- Readable.destroyed (Readable.released ?t) = false =>
            destruct (released_flags t) as (_ & _ & _ & -> & _)
        end.
        exact Hd1.
Qed.

Lemma readExactly_keepsLive size : keepsLive (readExactly size).
Proof.
  intros s Hd. unfold readExactly.
  destruct (readExactly_loop (readExactly_fuel s) s size [] 0) as [outcome|] eqn:E.
  - eapply readExactly_loop_accounts; eauto.
  - exact I.
Qed.
(* ------------------------------------------------------------------ *)
(** ** Lemmas on the steps of an [async] function                       *)
(* ------------------------------------------------------------------ *)

Local Open Scope async_scope.

Lemma bindA_resolved {A B} (m : Async A) (k : A -> Async B) s a s' :
  m s = (Resolved a, s') -> bindA m k s = k a s'.
Proof. intros E. unfold bindA. now rewrite E. Qed.

Lemma bindA_rejected {A B} (m : Async A) (k : A -> Async B) s e s' :
  m s = (Rejected e, s') -> bindA m k s = (Rejected e, s').
Proof. intros E. unfold bindA. now rewrite E. Qed.

Lemma bindA_pending {A B} (m : Async A) (k : A -> Async B) s s' :
  m s = (Pending, s') -> bindA m k s = (Pending, s').
Proof. intros E. unfold bindA. now rewrite E. Qed.

Lemma keepsLive_resolve {A} (a : A) : keepsLive (resolve a).
Proof. intros s Hd. exact Hd. Qed.

Lemma keepsLive_reject {A} e : keepsLive (@reject A e).
Proof. intros s Hd. left. exact Hd. Qed.

Lemma keepsLive_sync {A} (r : result A) : keepsLive (sync r).
Proof. destruct r; [apply keepsLive_resolve|apply keepsLive_reject]. Qed.

Lemma keepsLive_inspect {A} (property : Readable.t -> A) :
  keepsLive (inspect property).
Proof. intros s Hd. exact Hd. Qed.

Lemma keepsLive_pause : keepsLive (call Readable.pause).
Proof. intros s Hd. exact Hd. Qed.

Lemma keepsLive_notify observer headers : keepsLive (notify observer headers).
Proof. destruct observer; apply keepsLive_resolve. Qed.

Lemma keepsLive_bind {A B} (m : Async A) (k : A -> Async B) :
  keepsLive m -> (forall a, keepsLive (k a)) -> keepsLive (bindA m k).
Proof.
  intros Hm Hk s Hd. unfold bindA. specialize (Hm s Hd).
  destruct (m s) as [[a|e|] s1]; cbn in Hm |- *; auto.
  now apply Hk.
Qed.

Lemma keepsLive_rejectsLive {A} (m : Async A) : keepsLive m -> rejectsLive m.
Proof.
  intros Hm s e s' Hd E. specialize (Hm s Hd). rewrite E in Hm. exact Hm.
Qed.

Lemma rejectsLive_bind {A B} (m : Async A) (k : A -> Async B) :
  keepsLive m -> (forall a, rejectsLive (k a)) -> rejectsLive (bindA m k).
Proof.
  intros Hm Hk s e s' Hd E. unfold bindA in E. specialize (Hm s Hd).
  destruct (m s) as [[a|e1|] s1]; cbn in Hm.
  - exact (Hk a s1 e s' Hm E).
  - inversion E; subst. exact Hm.
  - discriminate.
Qed.

(** The remainder is built without a throw. *)
Lemma remainder_never_rejects {A} first second (k : Remainder -> A) :
  (forall s, exists r s', second s = (Resolved r, s')) ->
  rejectsLive (r <~ orElse first second ;; resolve (k r)).
Proof.
  intros H s e s' _ E. unfold bindA, orElse in E.
  destruct (first s) as [[r|] s1]; cbn in E; [discriminate|].
  destruct (H s1) as (r & s2 & E2). rewrite E2 in E. discriminate.
Qed.

(** *** The flow guard *)

Lemma pause_pause s : Readable.pause (Readable.pause s) = Readable.pause s.
Proof. reflexivity. Qed.

Lemma activelyFlowing_pause s : activelyFlowing (Readable.pause s) = false.
Proof. reflexivity. Qed.

Lemma content_pause s : Readable.content (Readable.pause s) = Readable.content s.
Proof. reflexivity. Qed.

Lemma consistent_pause s :
  Readable.consistent s -> Readable.consistent (Readable.pause s).
Proof. intros H. exact H. Qed.

Lemma closing_pause s : closing (Readable.pause s) = closing s.
Proof. reflexivity. Qed.

Lemma closedOff_pause s : closedOff (Readable.pause s) = closedOff s.
Proof. reflexivity. Qed.

Lemma atHand_pause s : atHand (Readable.pause s) = atHand s.
Proof.
  unfold atHand, arrived.
  cbn [Readable.pause Readable.with_flowing Readable.buffered Readable.ended
       Readable.destroyed Readable.dataListeners Readable.upcoming].
  destruct (Readable.buffered s); [|reflexivity].
  destruct (Readable.ended s || Readable.destroyed s
            || (0 <? Readable.dataListeners s)%nat); [reflexivity|].
  destruct (Readable.upcoming s) as [|[chunk| |e] rest]; reflexivity.
Qed.

(** A source that was paused is not in flowing mode when its first bytes
    are there. *)
Lemma arrived_pause_not_flowing s :
  truthy (Readable.readableFlowing (arrived (Readable.pause s))) = false.
Proof.
  unfold arrived.
  cbn [Readable.pause Readable.with_flowing Readable.buffered Readable.ended
       Readable.destroyed Readable.dataListeners Readable.upcoming].
  destruct (Readable.buffered s); [|reflexivity].
  destruct (Readable.ended s || Readable.destroyed s
            || (0 <? Readable.dataListeners s)%nat); [reflexivity|].
  destruct (Readable.upcoming s) as [|[chunk| |e] rest]; reflexivity.
Qed.

Lemma keepsLive_flowGuard opts : keepsLive (flowGuard opts).
Proof.
  unfold flowGuard. apply keepsLive_bind; [apply keepsLive_inspect|].
  intros [|]; [|apply keepsLive_resolve].
  destruct (ParsePreludeOptions.autoPause opts);
    [apply keepsLive_pause|apply keepsLive_reject].
Qed.

Lemma parsePrelude_try_guarded magics maxJsonBytes opts s :
  activelyFlowing s = false \/ ParsePreludeOptions.autoPause opts = true ->
  parsePrelude_try magics maxJsonBytes opts s
  = parsePrelude_read magics maxJsonBytes opts (Readable.pause s).
Proof.
  intros H. unfold parsePrelude_try, flowGuard, bindA at 1 2 3, inspect.
  destruct (activelyFlowing s) eqn:Ef.
  - destruct H as [H|H]; [discriminate|]. rewrite H. reflexivity.
  - reflexivity.
Qed.


Lemma parsePrelude_valid opts magics s :
  assertMagicList (ParsePreludeOptions.magic opts) = Ok magics ->
  parsePrelude opts s
  = tryCatch (parsePrelude_try magics
                (ParsePreludeOptions.maxJsonBytes opts ?? DEFAULT_MAX_JSON_BYTES)%js
                opts)
             destroyAndRethrow s.
Proof. intros E. unfold parsePrelude. rewrite E. reflexivity. Qed.

(** An invalid [magic] option is thrown before the [try] block: the source
    is left as it was. *)
Lemma parsePrelude_invalid_magic opts e s :
  assertMagicList (ParsePreludeOptions.magic opts) = Throw e ->
  parsePrelude opts s = (Rejected e, s).
Proof. intros E. unfold parsePrelude. rewrite E. reflexivity. Qed.

(** *** The fallback remainder *)

Lemma live_not_readableEnded s :
  Readable.consistent s ->
  0 < Buffer.length (Readable.content s) ->
  Readable.readableEnded s = false.
Proof.
  intros Hc Hl. destruct (Readable.readableEnded s) eqn:E; [|reflexivity].
  destruct (Hc E) as [He Hb]. unfold Readable.content in Hl.
  rewrite He, Hb in Hl. cbn in Hl. lia.
Qed.

Lemma content_piped s : Readable.content (Readable.piped s) = Readable.content s.
Proof. reflexivity. Qed.

Lemma content_unshift bytes s :
  Readable.readableEnded s = false ->
  Readable.destroyed s = false ->
  Readable.content (Readable.unshift bytes s) = bytes ++ Readable.content s.
Proof.
  intros He Hd. unfold Readable.unshift. rewrite He, Hd.
  unfold Readable.content. cbn. now rewrite app_assoc.
Qed.

(** *** What the read phase leaves of a source it rejects *)

Lemma rejectsLive_parsePrelude_read magics maxJsonBytes opts :
  rejectsLive (parsePrelude_read magics maxJsonBytes opts).
Proof.
  unfold parsePrelude_read.
  apply rejectsLive_bind; [apply readExactly_keepsLive|]. intros receivedMagic.
  destruct (negb (matchesAny magics receivedMagic)).
  - destruct (ParsePreludeOptions.requirePrelude opts).
    + apply keepsLive_rejectsLive, keepsLive_reject.
    + apply remainder_never_rejects. intros s.
      unfold _createPassThroughRemainderWithBytes. eauto.
  - apply rejectsLive_bind; [apply readExactly_keepsLive|]. intros lengthBuffer.
    apply rejectsLive_bind; [apply keepsLive_sync|]. intros jsonLength.
    apply rejectsLive_bind; [apply keepsLive_sync|]. intros _.
    apply rejectsLive_bind; [apply readExactly_keepsLive|]. intros jsonBuffer.
    apply rejectsLive_bind; [apply keepsLive_sync|]. intros parsed.
    destruct (negb (isPlainObject parsed)).
    + apply keepsLive_rejectsLive, keepsLive_reject.
    + apply rejectsLive_bind; [apply keepsLive_notify|]. intros _.
      apply remainder_never_rejects. intros s.
      unfold _createPassThroughRemainder. eauto.
Qed.

Lemma rejectsLive_parsePrelude_try magics maxJsonBytes opts :
  rejectsLive (parsePrelude_try magics maxJsonBytes opts).
Proof.
  unfold parsePrelude_try.
  apply rejectsLive_bind; [apply keepsLive_flowGuard|]. intros _.
  apply rejectsLive_bind; [apply keepsLive_pause|]. intros _.
  apply rejectsLive_parsePrelude_read.
Qed.

Lemma destroy_destroyed e s : Readable.destroyed (Readable.destroy e s) = true.
Proof. unfold Readable.destroy. destruct (Readable.destroyed s) eqn:E; [exact E|reflexivity]. Qed.

Lemma destroy_errored e s :
  Readable.destroyed s = false \/ Readable.errored s = Some e ->
  Readable.errored (Readable.destroy e s) = Some e.
Proof.
  intros H. unfold Readable.destroy.
  destruct (Readable.destroyed s) eqn:E; [|reflexivity].
  destruct H as [H|H]; [discriminate|exact H].
Qed.

(** The catch block after a rejection that is accounted for. *)
Lemma destroy_accounted {A} e s :
  accountsFor (@Rejected A e, s) ->
  Readable.errored (Readable.destroy e s) = Some e
  \/ (e = newPreludeTruncatedError
      /\ Readable.readableEnded (Readable.destroy e s) = true).
Proof.
  intros [H|[H|[H1 H2]]].
  - left. apply destroy_errored. now left.
  - left. apply destroy_errored. now right.
  - unfold Readable.destroy. destruct (Readable.destroyed s); [now right|].
    now left.
Qed.

Lemma destroy_content e s :
  Readable.content (Readable.destroy e s) = Readable.content s.
Proof. unfold Readable.destroy. now destruct (Readable.destroyed s). Qed.

(** *** [isFramedStream] *)

Lemma isFramedStream_valid magic magics s :
  assertMagicList magic = Ok magics ->
  isFramedStream magic s
  = if activelyFlowing s then (Resolved false, s)
    else tryCatch (probe <~ readExactly MAGIC_LENGTH ;;
                   resolve (matchesAny magics probe))
                  (fun _ => resolve false) (Readable.pause s).
Proof.
  intros E. unfold isFramedStream. rewrite E. cbn [sync].
  unfold bindA at 1 2, resolve at 1, inspect.
  destruct (activelyFlowing s); reflexivity.
Qed.
(* ------------------------------------------------------------------ *)
(** ** More on the buffer API                                           *)
(* ------------------------------------------------------------------ *)

Lemma readUInt32BE_range b off v :
  Buffer.readUInt32BE b off = Ok v -> 0 <= v <= 4294967295.
Proof.
  unfold Buffer.readUInt32BE.
  destruct (skipn (Z.to_nat off) b) as [|b0 [|b1 [|b2 [|b3 rest]]]]; try discriminate.
  intros H. injection H as <-.
  pose proof (to_Z_range b0). pose proof (to_Z_range b1).
  pose proof (to_Z_range b2). pose proof (to_Z_range b3).
  change (2 ^ 24) with 16777216. change (2 ^ 16) with 65536. change (2 ^ 8) with 256.
  lia.
Qed.

Lemma readUInt32BE_app_left (b extra : Buffer.t) off :
  0 <= off -> off + 4 <= Buffer.length b ->
  Buffer.readUInt32BE (b ++ extra) off = Buffer.readUInt32BE b off.
Proof.
  intros H0 H4.
  rewrite <- (readUInt32BE_subarray_from (b ++ extra) off),
    <- (readUInt32BE_subarray_from b off).
  rewrite subarray_from_app_within by lia.
  apply readUInt32BE_app_within.
  rewrite subarray_from_length by lia. unfold LENGTH_BYTES. lia.
Qed.

Lemma subarray_app_left (b extra : Buffer.t) start stop :
  0 <= start -> stop <= Buffer.length b ->
  Buffer.subarray (b ++ extra) start stop = Buffer.subarray b start stop.
Proof.
  intros H0 Hs. destruct (Z.le_gt_cases start stop) as [Hle|Hgt].
  - replace stop with (start + (stop - start)) by lia.
    rewrite <- !subarray_of_subarray_from.
    rewrite subarray_from_app_within by lia.
    apply subarray_app_within. rewrite subarray_from_length by lia. lia.
  - unfold Buffer.subarray. replace (Z.to_nat (stop - start)) with O by lia.
    reflexivity.
Qed.

(** What a successful [decodePrelude] has checked. *)
Lemma decodePrelude_Ok_inv buffer opts d :
  decodePrelude buffer opts = Ok d ->
  exists magics n,
    assertMagicList (DecodeOptions.magic opts) = Ok magics
    /\ matchesAny magics (Buffer.subarray buffer 0 MAGIC_LENGTH) = true
    /\ Buffer.readUInt32BE buffer MAGIC_LENGTH = Ok n
    /\ 0 < n <= DecodeOptions.maxJsonBytes opts ?? DEFAULT_MAX_JSON_BYTES
    /\ MAGIC_LENGTH + LENGTH_BYTES + n <= Buffer.length buffer
    /\ parsePayload (Buffer.subarray buffer (MAGIC_LENGTH + LENGTH_BYTES)
                                     (MAGIC_LENGTH + LENGTH_BYTES + n))
       = Ok (headers d)
    /\ isPlainObject (headers d) = true
    /\ offset d = MAGIC_LENGTH + LENGTH_BYTES + n.
Proof.
  unfold decodePrelude.
  destruct (assertMagicList (DecodeOptions.magic opts)) as [magics|e] eqn:Em;
    cbn [bind]; [|discriminate].
  destruct (Buffer.length buffer <? MAGIC_LENGTH + LENGTH_BYTES) eqn:E8; [discriminate|].
  destruct (negb (matchesAny magics _)) eqn:Emm; [discriminate|].
  destruct (Buffer.readUInt32BE buffer MAGIC_LENGTH) as [n|e] eqn:Er; cbn [bind];
    [|discriminate].
  destruct (validateJsonLength n _) as [[]|e] eqn:Ev; cbn [bind]; [|discriminate].
  apply validateJsonLength_ok in Ev.
  destruct (Buffer.length buffer <? MAGIC_LENGTH + LENGTH_BYTES + n) eqn:En;
    [discriminate|].
  apply Z.ltb_ge in En.
  destruct (parsePayload _) as [parsed|e] eqn:Ep; cbn [bind]; [|discriminate].
  destruct (negb (isPlainObject parsed)) eqn:Epl; [discriminate|].
  remember (MAGIC_LENGTH + LENGTH_BYTES + n) as off eqn:Eoff.
  intros H. injection H as <-. cbn [headers offset].
  exists magics, n. apply negb_false_iff in Emm, Epl. subst off.
  repeat split; try assumption; lia.
Qed.

(** The steps of [decodePrelude] once the marker option is valid. *)
Lemma decodePrelude_steps buffer opts magics :
  assertMagicList (DecodeOptions.magic opts) = Ok magics ->
  decodePrelude buffer opts
  = if Buffer.length buffer <? MAGIC_LENGTH + LENGTH_BYTES then
      Throw newPreludeTruncatedError
    else if negb (matchesAny magics (Buffer.subarray buffer 0 MAGIC_LENGTH)) then
      Throw (newPreludeMagicMismatchError None)
    else
      (jsonLength <- Buffer.readUInt32BE buffer MAGIC_LENGTH ;;
       validateJsonLength jsonLength
         (DecodeOptions.maxJsonBytes opts ?? DEFAULT_MAX_JSON_BYTES) ;;
       if Buffer.length buffer <? MAGIC_LENGTH + LENGTH_BYTES + jsonLength then
         Throw newPreludeTruncatedError
       else
         parsed <- parsePayload
                     (Buffer.subarray buffer (MAGIC_LENGTH + LENGTH_BYTES)
                                      (MAGIC_LENGTH + LENGTH_BYTES + jsonLength)) ;;
         if negb (isPlainObject parsed) then Throw newPreludeInvalidTypeError
         else Ok (mkDecoded parsed (MAGIC_LENGTH + LENGTH_BYTES + jsonLength)))%js.
Proof. intros Em. unfold decodePrelude. rewrite Em. reflexivity. Qed.

Lemma readUInt32BE_within buffer :
  MAGIC_LENGTH + LENGTH_BYTES <= Buffer.length buffer ->
  exists n, Buffer.readUInt32BE buffer MAGIC_LENGTH = Ok n.
Proof.
  intros H. unfold Buffer.readUInt32BE, Buffer.length in *.
  change (Z.to_nat MAGIC_LENGTH) with 4%nat.
  change (MAGIC_LENGTH + LENGTH_BYTES) with 8 in H.
  destruct buffer as [|a0 [|a1 [|a2 [|a3 [|a4 [|a5 [|a6 [|a7 rest]]]]]]]];
    cbn [List.length] in H; try lia.
  cbn [skipn]. eauto.
Qed.

Lemma validateJsonLength_throws n max e :
  0 <= n ->
  validateJsonLength n max = Throw e ->
  e = newPreludeJsonTooLargeError
  \/ e = newPreludeJsonParseError (Some "JSON payload must be non-empty"%string).
Proof.
  intros Hn. unfold validateJsonLength.
  destruct (n <? 0) eqn:E0; [apply Z.ltb_lt in E0; lia|].
  destruct (n >? max); [intros H; injection H as <-; now left|].
  destruct (n =? 0); [intros H; injection H as <-; now right|discriminate].
Qed.

Lemma parsePayload_throws b e :
  parsePayload b = Throw e -> e = newPreludeJsonParseError None.
Proof.
  unfold parsePayload. destruct (JSON.parse _); [discriminate|].
  intros H. now injection H as <-.
Qed.

(** Why a buffer is reported as truncated. *)
Lemma decodePrelude_truncated_iff (buffer : Buffer.t) (opts : DecodeOptions.t)
      (magics : list Buffer.t) :
  assertMagicList (DecodeOptions.magic opts) = Ok magics ->
  (decodePrelude buffer opts = Throw newPreludeTruncatedError
   <-> Buffer.length buffer < 8
       \/ (matchesAny magics (Buffer.subarray buffer 0 4) = true
           /\ exists n,
               Buffer.readUInt32BE buffer 4 = Ok n
               /\ 0 < n <= DecodeOptions.maxJsonBytes opts ?? DEFAULT_MAX_JSON_BYTES
               /\ Buffer.length buffer < 8 + n)).
Proof.
  intros Em. rewrite (decodePrelude_steps _ _ _ Em).
  change (MAGIC_LENGTH + LENGTH_BYTES) with 8 in *. change MAGIC_LENGTH with 4 in *.
  destruct (Buffer.length buffer <? 8) eqn:E8.
  - apply Z.ltb_lt in E8. split; [now left|reflexivity].
  - apply Z.ltb_ge in E8.
    destruct (matchesAny magics (Buffer.subarray buffer 0 4)) eqn:Emm; cbn [negb].
    + destruct (readUInt32BE_within buffer E8) as (n & Er).
      change MAGIC_LENGTH with 4 in Er. rewrite Er. cbn [bind].
      pose proof (readUInt32BE_range _ _ _ Er) as Hn.
      destruct (validateJsonLength n _) as [[]|e] eqn:Ev; cbn [bind].
      * apply validateJsonLength_ok in Ev.
        destruct (Buffer.length buffer <? 8 + n) eqn:En.
        -- apply Z.ltb_lt in En. split; [|reflexivity].
           intros _. right. split; [reflexivity|]. exists n. auto.
        -- apply Z.ltb_ge in En. split.
           ++ destruct (parsePayload _) as [parsed|e] eqn:Ep; cbn [bind].
              ** destruct (negb (isPlainObject parsed)); discriminate.
              ** apply parsePayload_throws in Ep. subst e. discriminate.
           ++ intros [Hs|(_ & m & Er' & _ & Hs)]; [lia|].
              injection Er' as <-. lia.
      * split.
        -- destruct (validateJsonLength_throws n _ e (proj1 Hn) Ev) as [->| ->];
             discriminate.
        -- intros [Hs|(_ & m & Er' & Hm & _)]; [lia|].
           injection Er' as <-.
           apply validateJsonLength_ok in Hm. rewrite Hm in Ev. discriminate.
    + split; [discriminate|]. intros [Hs|(Hm & _)]; [lia|discriminate].
Qed.

(** What a frame that [encodePrelude] returned is made of. *)
Lemma encodePrelude_Ok_inv (h : JsValue) (opts : EncodeOptions.t) (frame : Buffer.t) :
  encodePrelude h opts = Ok frame ->
  exists magic text,
    assertMagicList (option_map One (EncodeOptions.magic opts)) = Ok [magic]
    /\ stringifyPayload (withVersion (EncodeOptions.version opts ?? DEFAULT_VERSION) h)
       = Ok text
    /\ frame = magic ++ Buffer.uint32BE (Buffer.byteLength text)
                     ++ Buffer.from_string text
    /\ 0 < Buffer.byteLength text
         <= EncodeOptions.maxJsonBytes opts ?? DEFAULT_MAX_JSON_BYTES
    /\ Buffer.length frame = 8 + Buffer.byteLength text.
Proof.
  unfold encodePrelude.
  destruct (assertMagicList_one (EncodeOptions.magic opts)) as [Em|(magic & Em & Hm)];
    rewrite Em; cbn [bind]; [discriminate|].
  destruct (validateHeaders h) as [[]|e]; cbn [bind]; [|discriminate].
  destruct (stringifyPayload _) as [text|e] eqn:Es; cbn [bind]; [|discriminate].
  destruct (validateJsonLength _ _) as [[]|e] eqn:Ev; cbn [bind]; [|discriminate].
  apply validateJsonLength_ok in Ev. cbn [firstMagic bind].
  destruct (Z.le_gt_cases (Buffer.length (Buffer.from_string text)) 4294967295)
    as [H32|H32].
  - rewrite makePreludeBuffer_layout by assumption.
    intros H. injection H as <-. exists magic, text.
    unfold Buffer.byteLength. destruct Ev as [Ev1 Ev2].
    repeat split; try reflexivity; try assumption.
    rewrite Buffer_length_app. change MAGIC_LENGTH with 4 in Hm. rewrite Hm.
    unfold Buffer.length. cbn [List.length]. lia.
  - rewrite makePreludeBuffer_too_long by lia. discriminate.
Qed.

(** A frame of a valid header under the options of another decoder. *)
Lemma decodePrelude_encoded (H : JsValue) (B frame : Buffer.t)
      (eopts : EncodeOptions.t) (dopts : DecodeOptions.t) (magics : list Buffer.t) :
  validHeader H = true ->
  numberOk (EncodeOptions.version eopts ?? DEFAULT_VERSION) = true ->
  encodePrelude H eopts = Ok frame ->
  assertMagicList (DecodeOptions.magic dopts) = Ok magics ->
  decodePrelude (frame ++ B) dopts
  = if negb (matchesAny magics (Buffer.subarray frame 0 4)) then
      Throw (newPreludeMagicMismatchError None)
    else if Buffer.length frame - 8
            >? DecodeOptions.maxJsonBytes dopts ?? DEFAULT_MAX_JSON_BYTES then
      Throw newPreludeJsonTooLargeError
    else Ok (mkDecoded (versioned (EncodeOptions.version eopts ?? DEFAULT_VERSION) H)
                       (Buffer.length frame)).
Proof.
  intros HV Hv E Em.
  destruct (encodePrelude_frame H eopts frame HV Hv E)
    as (magic & _ & Hm & Hf & Hlen & H32).
  cbv zeta in Hf, Hlen, H32.
  set (json := Buffer.from_string
                 (payloadText (EncodeOptions.version eopts ?? DEFAULT_VERSION) H)) in *.
  assert (HP : parsePayload json
               = Ok (versioned (EncodeOptions.version eopts ?? DEFAULT_VERSION) H))
    by (now apply parsePayload_payloadText).
  clearbody json. subst frame.
  assert (HL : Buffer.length (magic ++ Buffer.uint32BE (Buffer.length json) ++ json)
               = 8 + Buffer.length json).
  { rewrite !Buffer_length_app, uint32BE_length. change MAGIC_LENGTH with 4 in Hm. lia. }
  rewrite HL. replace (8 + Buffer.length json - 8) with (Buffer.length json) by lia.
  replace (Buffer.subarray (magic ++ Buffer.uint32BE (Buffer.length json) ++ json) 0 4)
    with magic
    by (symmetry; change 4 with MAGIC_LENGTH; rewrite <- Hm; apply subarray_prefix).
  rewrite (decodePrelude_steps _ _ _ Em).
  pose proof (Buffer_length_nonneg B) as HB.
  rewrite Buffer_length_app, HL.
  change (MAGIC_LENGTH + LENGTH_BYTES) with 8.
  replace (8 + Buffer.length json + Buffer.length B <? 8) with false
    by (symmetry; apply Z.ltb_ge; lia).
  rewrite <- !app_assoc.
  rewrite <- Hm at 1. rewrite subarray_prefix.
  destruct (negb (matchesAny magics magic)); [reflexivity|].
  rewrite <- Hm at 1. rewrite readUInt32BE_uint32BE by lia. cbn [bind].
  unfold validateJsonLength.
  replace (Buffer.length json <? 0) with false by (symmetry; apply Z.ltb_ge; lia).
  destruct (Buffer.length json >? _); [reflexivity|].
  replace (Buffer.length json =? 0) with false by (symmetry; apply Z.eqb_neq; lia).
  cbn [bind].
  replace (_ <? 8 + Buffer.length json) with false by (symmetry; apply Z.ltb_ge; lia).
  replace 8 with (Buffer.length (magic ++ Buffer.uint32BE (Buffer.length json)))
    by (rewrite Buffer_length_app, Hm, uint32BE_length; reflexivity).
  rewrite (app_assoc magic), subarray_middle, HP. reflexivity.
Qed.

(* ------------------------------------------------------------------ *)
(** ** A frame under any version                                        *)
(* ------------------------------------------------------------------ *)

(** A number that is not finite is written as [null]. *)
Lemma render_decodedHeader version h :
  JSON.render (decodedHeader version h) = JSON.render (versioned version h).
Proof.
  unfold decodedHeader, versioned. rewrite !render_object. f_equal.
  destruct version; reflexivity.
Qed.

Lemma decodedHeader_representable version h :
  validHeader h = true -> wellFormedNumber version = true ->
  representable (decodedHeader version h) = true.
Proof.
  intros H Hn. destruct (validHeader_props h H) as (props & -> & HD & R & Hv).
  unfold decodedHeader.
  cbn [ownProps representable Obj.keys map fst Obj.distinct forallb snd].
  fold (Obj.keys props). rewrite HD, R.
  rewrite hasOwn_existsb, existsb_eqb_sym in Hv. rewrite Hv.
  destruct version; cbn [writtenNumber representable wellFormedNumber] in *;
    now rewrite ?Hn.
Qed.

Lemma stringifyPayload_written version h :
  validHeader h = true ->
  stringifyPayload (withVersion version h)
  = Ok (string_of_list_ascii (JSON.render (decodedHeader version h))).
Proof.
  intros H. rewrite withVersion_valid by exact H. rewrite render_decodedHeader.
  destruct (validHeader_props h H) as (props & -> & _ & R & _).
  assert (Hb : JSON.has_bigint (JObject props) = false).
  { apply representable_no_bigint. unfold validHeader in H.
    apply andb_true_iff in H as [H _]. now apply andb_true_iff in H as [_ H]. }
  unfold stringifyPayload, JSON.stringify, versioned. cbn [ownProps].
  cbn [JSON.has_bigint] in Hb |- *. rewrite Hb. destruct version; reflexivity.
Qed.

Lemma parsePayload_written version h :
  validHeader h = true -> wellFormedNumber version = true ->
  parsePayload
    (Buffer.from_string
       (string_of_list_ascii (JSON.render (decodedHeader version h))))
  = Ok (decodedHeader version h).
Proof.
  intros H Hn. rewrite parsePayload_from_string.
  now rewrite JSON_parse_render by (now apply decodedHeader_representable).
Qed.

(** The length field of a frame holds the length of the payload. *)
Lemma encodePrelude_Ok_uint32 (h : JsValue) (opts : EncodeOptions.t)
      (frame : Buffer.t) (text : string) :
  encodePrelude h opts = Ok frame ->
  stringifyPayload (withVersion (EncodeOptions.version opts ?? DEFAULT_VERSION) h)
  = Ok text ->
  Buffer.byteLength text <= 4294967295.
Proof.
  unfold encodePrelude. intros E Hs.
  destruct (assertMagicList_one (EncodeOptions.magic opts)) as [Em|(magic & Em & Hm)];
    rewrite Em in E; cbn [bind] in E; [discriminate|].
  destruct (validateHeaders h) as [[]|e]; cbn [bind] in E; [|discriminate].
  rewrite Hs in E. cbn [bind] in E.
  destruct (validateJsonLength _ _) as [[]|e]; cbn [bind] in E; [|discriminate].
  cbn [firstMagic bind] in E.
  destruct (Z.le_gt_cases (Buffer.length (Buffer.from_string text)) 4294967295)
    as [H32|H32]; [exact H32|].
  rewrite makePreludeBuffer_too_long in E by lia. discriminate.
Qed.

(** A frame of a valid header, encoded with any version, under the options
    of another decoder. *)
Lemma decodePrelude_written (H : JsValue) (B frame : Buffer.t)
      (eopts : EncodeOptions.t) (dopts : DecodeOptions.t) (magics : list Buffer.t) :
  validHeader H = true ->
  wellFormedNumber (EncodeOptions.version eopts ?? DEFAULT_VERSION) = true ->
  encodePrelude H eopts = Ok frame ->
  assertMagicList (DecodeOptions.magic dopts) = Ok magics ->
  decodePrelude (frame ++ B) dopts
  = if negb (matchesAny magics (Buffer.subarray frame 0 4)) then
      Throw (newPreludeMagicMismatchError None)
    else if Buffer.length frame - 8
            >? DecodeOptions.maxJsonBytes dopts ?? DEFAULT_MAX_JSON_BYTES then
      Throw newPreludeJsonTooLargeError
    else Ok (mkDecoded
               (decodedHeader (EncodeOptions.version eopts ?? DEFAULT_VERSION) H)
               (Buffer.length frame)).
Proof.
  intros HV Hv E Em.
  destruct (encodePrelude_Ok_inv H eopts frame E)
    as (magic & text & Em1 & Hs & Hf & Hlen & _).
  pose proof (encodePrelude_Ok_uint32 H eopts frame text E Hs) as H32.
  assert (Hm : Buffer.length magic = 4).
  { pose proof (assertMagicList_lengths _ _ Em1) as HF. now inversion HF. }
  rewrite stringifyPayload_written in Hs by exact HV.
  remember (string_of_list_ascii
              (JSON.render
                 (decodedHeader (EncodeOptions.version eopts ?? DEFAULT_VERSION) H)))
    as written eqn:Ew.
  injection Hs as <-.
  unfold Buffer.byteLength in Hlen, H32, Hf.
  assert (HP : parsePayload (Buffer.from_string written)
               = Ok (decodedHeader (EncodeOptions.version eopts ?? DEFAULT_VERSION) H))
    by (subst written; now apply parsePayload_written).
  clear Ew E. set (json := Buffer.from_string written) in *.
  clearbody json. subst frame.
  assert (HL : Buffer.length (magic ++ Buffer.uint32BE (Buffer.length json) ++ json)
               = 8 + Buffer.length json).
  { rewrite !Buffer_length_app, uint32BE_length. lia. }
  rewrite HL. replace (8 + Buffer.length json - 8) with (Buffer.length json) by lia.
  replace (Buffer.subarray (magic ++ Buffer.uint32BE (Buffer.length json) ++ json) 0 4)
    with magic
    by (symmetry; rewrite <- Hm; apply subarray_prefix).
  rewrite (decodePrelude_steps _ _ _ Em).
  pose proof (Buffer_length_nonneg B) as HB.
  rewrite Buffer_length_app, HL.
  change (MAGIC_LENGTH + LENGTH_BYTES) with 8. change MAGIC_LENGTH with 4.
  replace (8 + Buffer.length json + Buffer.length B <? 8) with false
    by (symmetry; apply Z.ltb_ge; lia).
  rewrite <- !app_assoc.
  rewrite <- Hm at 1. rewrite subarray_prefix.
  destruct (negb (matchesAny magics magic)); [reflexivity|].
  rewrite <- Hm at 1. rewrite readUInt32BE_uint32BE by lia. cbn [bind].
  unfold validateJsonLength.
  replace (Buffer.length json <? 0) with false by (symmetry; apply Z.ltb_ge; lia).
  destruct (Buffer.length json >? _); [reflexivity|].
  replace (Buffer.length json =? 0) with false by (symmetry; apply Z.eqb_neq; lia).
  cbn [bind].
  replace (_ <? 8 + Buffer.length json) with false by (symmetry; apply Z.ltb_ge; lia).
  replace 8 with (Buffer.length (magic ++ Buffer.uint32BE (Buffer.length json)))
    by (rewrite Buffer_length_app, Hm, uint32BE_length; reflexivity).
  rewrite (app_assoc magic), subarray_middle, HP. reflexivity.
Qed.
(* ------------------------------------------------------------------ *)
(** ** The source after a read                                          *)
(* ------------------------------------------------------------------ *)

Local Open Scope async_scope.

Lemma skipn_skipn_Z {A} (l : list A) a b :
  0 <= a -> 0 <= b ->
  skipn (Z.to_nat b) (skipn (Z.to_nat a) l) = skipn (Z.to_nat (a + b)) l.
Proof.
  intros Ha Hb. rewrite skipn_skipn. f_equal. lia.
Qed.

Lemma skipn_length_Z (b : Buffer.t) k :
  0 <= k <= Buffer.length b ->
  Buffer.length (skipn (Z.to_nat k) b) = Buffer.length b - k.
Proof. intros H. unfold Buffer.length in *. rewrite length_skipn. lia. Qed.

Lemma atHand_nonempty_live s :
  Readable.consistent s -> 0 < Buffer.length (atHand s) ->
  Readable.readableEnded s = false.
Proof.
  intros Hc Hl. destruct (Readable.readableEnded s) eqn:E; [|reflexivity].
  destruct (Hc E) as [He Hb]. unfold atHand, arrived in Hl.
  rewrite Hb, He in Hl. cbn [orb] in Hl. rewrite Hb in Hl.
  change (Buffer.length []) with 0 in Hl. lia.
Qed.

(** The bytes of the stream after [k] of the bytes at hand were taken. *)
Lemma content_after_read s k :
  (k <= List.length (atHand s))%nat ->
  Readable.content (Readable.with_buffered (skipn k (atHand s)) (arrived s))
  = skipn k (Readable.content s).
Proof.
  intros H. rewrite <- (content_arrived s). unfold Readable.content.
  fold (atHand s). cbn [Readable.with_buffered Readable.buffered Readable.ended
                        Readable.upcoming].
  now rewrite skipn_app_within.
Qed.

Lemma with_buffered_flags b s :
  Readable.ended (Readable.with_buffered b s) = Readable.ended s
  /\ Readable.readableEnded (Readable.with_buffered b s) = Readable.readableEnded s
  /\ Readable.dataListeners (Readable.with_buffered b s) = Readable.dataListeners s
  /\ Readable.destroyed (Readable.with_buffered b s) = Readable.destroyed s
  /\ Readable.errored (Readable.with_buffered b s) = Readable.errored s
  /\ Readable.hasUnshift (Readable.with_buffered b s) = Readable.hasUnshift s.
Proof. repeat split. Qed.

Lemma closing_arrived s :
  closing (arrived s) = closing s.
Proof.
  unfold closing, arrived. destruct (Readable.buffered s); [|reflexivity].
  destruct (Readable.ended s) eqn:He; cbn [orb]; [now rewrite He|].
  destruct (Readable.destroyed s || (0 <? Readable.dataListeners s)%nat);
    [now rewrite He|].
  destruct (Readable.upcoming s) as [|[chunk| |e] rest] eqn:Hu;
    cbn [Readable.with_flowing Readable.with_upcoming Readable.with_buffered
         Readable.ended Readable.upcoming closingEvent];
    rewrite ?He, ?Hu; reflexivity.
Qed.

(* ------------------------------------------------------------------ *)
(** ** The read phase of [parsePrelude], step by step                   *)
(* ------------------------------------------------------------------ *)

Lemma closingOutcome_settledBy c : closingOutcome c = settledBy c.
Proof. reflexivity. Qed.

Lemma readUInt32BE_firstn (b : Buffer.t) :
  Buffer.readUInt32BE (firstn 4 b) 0 = Buffer.readUInt32BE b 0.
Proof.
  unfold Buffer.readUInt32BE. cbn [Z.to_nat skipn].
  destruct b as [|b0 [|b1 [|b2 [|b3 rest]]]]; reflexivity.
Qed.

Lemma readUInt32BE_at_4 (b : Buffer.t) :
  Buffer.readUInt32BE (firstn 4 (skipn 4 b)) 0 = Buffer.readUInt32BE b 4.
Proof.
  rewrite readUInt32BE_firstn. exact (readUInt32BE_subarray_from b 4).
Qed.

Lemma subarray_as_firstn (b : Buffer.t) n :
  0 <= n -> Buffer.subarray b 8 (8 + n) = firstn (Z.to_nat n) (skipn 8 b).
Proof.
  intros H. unfold Buffer.subarray. replace (8 + n - 8) with n by lia. reflexivity.
Qed.

(** A read on a source that brings no further bytes, with what it leaves
    of a live source. *)
Lemma readExactly_closedOff_settled size s :
  Readable.consistent s ->
  Readable.destroyed s = false ->
  0 < size ->
  closedOff s = true ->
  Readable.readableLength s < size ->
  exists s',
    readExactly size s = (settledBy (closing s), s')
    /\ forall e, settledBy (A := Buffer.t) (closing s) = Rejected e ->
                 accountsFor (@Rejected Buffer.t e, s').
Proof.
  intros Hc Hd Hs Hcl Hl.
  destruct (readExactly_closedOff size s Hc Hd Hs Hcl Hl) as (s' & E).
  exists s'. split; [exact E|].
  intros e He. pose proof (readExactly_keepsLive size s Hd) as Hk.
  rewrite E, closingOutcome_settledBy, He in Hk. exact Hk.
Qed.

Lemma parsePrelude_read_unfold magics maxJsonBytes opts :
  parsePrelude_read magics maxJsonBytes opts
  = (receivedMagic <~ readExactly MAGIC_LENGTH ;;
     if negb (matchesAny magics receivedMagic) then
       if ParsePreludeOptions.requirePrelude opts then
         reject (newPreludeMagicMismatchError
                   (Some "Missing or invalid prelude. Remove requirePrelude or pass correct magic."%string))
       else
         remainder <~ orElse (_tryUnshiftRemainderWithBytes receivedMagic)
                             (_createPassThroughRemainderWithBytes receivedMagic) ;;
         resolve (ParsePreludeResult.make (JObject []) remainder)
     else
       lengthBuffer <~ readExactly LENGTH_BYTES ;;
       parsePrelude_payload maxJsonBytes opts lengthBuffer).
Proof. reflexivity. Qed.

(** The first read of the parse, with the marker at hand. *)
Lemma parsePrelude_read_first magics maxJsonBytes opts s :
  Readable.consistent s ->
  4 <= Buffer.length (atHand s) ->
  parsePrelude_read magics maxJsonBytes opts s
  = (if negb (matchesAny magics (firstn 4 (atHand s))) then
       if ParsePreludeOptions.requirePrelude opts then
         reject (newPreludeMagicMismatchError
                   (Some "Missing or invalid prelude. Remove requirePrelude or pass correct magic."%string))
       else
         remainder <~ orElse (_tryUnshiftRemainderWithBytes (firstn 4 (atHand s)))
                             (_createPassThroughRemainderWithBytes
                                (firstn 4 (atHand s))) ;;
         resolve (ParsePreludeResult.make (JObject []) remainder)
     else
       lengthBuffer <~ readExactly LENGTH_BYTES ;;
       parsePrelude_payload maxJsonBytes opts lengthBuffer)
      (Readable.with_buffered (skipn 4 (atHand s)) (arrived s)).
Proof.
  intros Hc Hl. rewrite parsePrelude_read_unfold.
  now rewrite (bindA_resolved _ _ _ _ _
                 (readExactly_first MAGIC_LENGTH s Hc eq_refl Hl)).
Qed.

(** The marker and the length are at hand: both are read. *)
Lemma parsePrelude_read_held magics maxJsonBytes opts s :
  Readable.consistent s ->
  8 <= Buffer.length (atHand s) ->
  matchesAny magics (firstn 4 (atHand s)) = true ->
  parsePrelude_read magics maxJsonBytes opts s
  = parsePrelude_payload maxJsonBytes opts (firstn 4 (skipn 4 (atHand s)))
      (Readable.with_buffered (skipn 8 (atHand s)) (arrived s)).
Proof.
  intros Hc Hl Hm. rewrite parsePrelude_read_first by (assumption || lia).
  rewrite Hm. cbn [negb].
  assert (H4 : LENGTH_BYTES
               <= Readable.readableLength
                    (Readable.with_buffered (skipn 4 (atHand s)) (arrived s))).
  { unfold Readable.readableLength. cbn [Readable.with_buffered Readable.buffered].
    change LENGTH_BYTES with 4. rewrite (skipn_length_Z _ 4) by lia. lia. }
  rewrite (bindA_resolved _ _ _ _ _
             (readExactly_buffered LENGTH_BYTES _ eq_refl H4)).
  cbn [Readable.with_buffered Readable.buffered].
  change (Z.to_nat LENGTH_BYTES) with 4%nat. now rewrite skipn_skipn.
Qed.

(** The remainder after a header: the source itself or a relay of it. *)
Lemma remainder_after_header {A} (k : Remainder -> A) s :
  exists r s',
    (remainder <~ orElse (fun source => (_tryUnshiftRemainder source, source))
                         _createPassThroughRemainder ;;
     resolve (k remainder)) s
    = (Resolved (k r), s')
    /\ remainderBytes r s' = Readable.content s.
Proof.
  unfold bindA, orElse, _tryUnshiftRemainder, _createPassThroughRemainder, resolve.
  destruct (negb (Readable.hasUnshift s));
    [|destruct (truthy (Readable.readableFlowing s));
      [|destruct (Readable.readableLength s >? 0)]];
    eexists _, _; (split; [reflexivity|]); reflexivity.
Qed.

(** The remainder of the fallback: the source with the probed bytes put
    back, or a relay that starts with them. *)
Lemma remainder_with_bytes {A} (k : Remainder -> A) bytes s :
  Readable.readableEnded s = false ->
  Readable.destroyed s = false ->
  exists r s',
    (remainder <~ orElse (_tryUnshiftRemainderWithBytes bytes)
                         (_createPassThroughRemainderWithBytes bytes) ;;
     resolve (k remainder)) s
    = (Resolved (k r), s')
    /\ remainderBytes r s' = bytes ++ Readable.content s.
Proof.
  intros He Hd.
  unfold bindA, orElse, _tryUnshiftRemainderWithBytes,
    _createPassThroughRemainderWithBytes, resolve.
  destruct (negb (Readable.hasUnshift s));
    [|destruct (truthy (Readable.readableFlowing s));
      [|destruct (Readable.readableLength s >? 0)]];
    eexists _, _; (split; [reflexivity|]); cbn [remainderBytes]; try reflexivity.
  now apply content_unshift.
Qed.

(** What [parsePrelude_payload] does once the declared length is known. *)
Lemma parsePrelude_payload_rejected_length maxJsonBytes opts lengthBuffer n e s :
  Buffer.readUInt32BE lengthBuffer 0 = Ok n ->
  validateJsonLength n maxJsonBytes = Throw e ->
  parsePrelude_payload maxJsonBytes opts lengthBuffer s = (Rejected e, s).
Proof.
  intros Hr Hv. unfold parsePrelude_payload, bindA. rewrite Hr. cbn [sync resolve].
  rewrite Hv. reflexivity.
Qed.

Lemma parsePrelude_payload_length maxJsonBytes opts lengthBuffer n s :
  Buffer.readUInt32BE lengthBuffer 0 = Ok n ->
  validateJsonLength n maxJsonBytes = Ok tt ->
  parsePrelude_payload maxJsonBytes opts lengthBuffer s
  = (jsonBuffer <~ readExactly n ;;
     parsed <~ sync (parsePayload jsonBuffer) ;;
     if negb (isPlainObject parsed) then reject newPreludeInvalidTypeError
     else
       notify (ParsePreludeOptions.onHeaders opts) parsed ~;;
       remainder <~ orElse (fun source => (_tryUnshiftRemainder source, source))
                           _createPassThroughRemainder ;;
       resolve (ParsePreludeResult.make parsed remainder)) s.
Proof.
  intros Hr Hv. unfold parsePrelude_payload. rewrite Hr.
  rewrite (bindA_resolved (sync (Ok n)) _ s n s eq_refl). rewrite Hv.
  rewrite (bindA_resolved (sync (Ok tt)) _ s tt s eq_refl). reflexivity.
Qed.

(** The payload is in the buffer: it is read and parsed. *)
Lemma parsePrelude_payload_held maxJsonBytes opts lengthBuffer n s :
  Buffer.readUInt32BE lengthBuffer 0 = Ok n ->
  validateJsonLength n maxJsonBytes = Ok tt ->
  n <= Readable.readableLength s ->
  match parsePayload (firstn (Z.to_nat n) (Readable.buffered s)) with
  | Throw e =>
      parsePrelude_payload maxJsonBytes opts lengthBuffer s
      = (Rejected e,
         Readable.with_buffered (skipn (Z.to_nat n) (Readable.buffered s)) s)
  | Ok parsed =>
      if isPlainObject parsed then
        exists r s',
          parsePrelude_payload maxJsonBytes opts lengthBuffer s
          = (Resolved (ParsePreludeResult.make parsed r), s')
          /\ remainderBytes r s'
             = Readable.content
                 (Readable.with_buffered (skipn (Z.to_nat n) (Readable.buffered s)) s)
      else
        parsePrelude_payload maxJsonBytes opts lengthBuffer s
        = (Rejected newPreludeInvalidTypeError,
           Readable.with_buffered (skipn (Z.to_nat n) (Readable.buffered s)) s)
  end.
Proof.
  intros Hr Hv Hl.
  assert (Hn : 0 < n) by (apply validateJsonLength_ok in Hv; lia).
  rewrite (parsePrelude_payload_length _ _ _ _ _ Hr Hv).
  rewrite (bindA_resolved _ _ _ _ _ (readExactly_buffered n s Hn Hl)).
  set (s3 := Readable.with_buffered (skipn (Z.to_nat n) (Readable.buffered s)) s).
  destruct (parsePayload _) as [parsed|e] eqn:Ep.
  - rewrite (bindA_resolved (sync (Ok parsed)) _ s3 parsed s3 eq_refl).
    destruct (isPlainObject parsed) eqn:Eo; cbn [negb]; [|reflexivity].
    destruct (remainder_after_header (ParsePreludeResult.make parsed) s3)
      as (r & s4 & Er & Hb).
    exists r, s4. split; [|exact Hb].
    rewrite (bindA_resolved (notify (ParsePreludeOptions.onHeaders opts) parsed)
               _ s3 tt s3)
      by (destruct (ParsePreludeOptions.onHeaders opts); reflexivity).
    exact Er.
  - reflexivity.
Qed.

(** The source brings no further bytes and holds less than the payload. *)
Lemma parsePrelude_payload_closes_early maxJsonBytes opts lengthBuffer n s :
  Buffer.readUInt32BE lengthBuffer 0 = Ok n ->
  validateJsonLength n maxJsonBytes = Ok tt ->
  Readable.consistent s ->
  Readable.destroyed s = false ->
  closedOff s = true ->
  Readable.readableLength s < n ->
  exists s',
    parsePrelude_payload maxJsonBytes opts lengthBuffer s = (settledBy (closing s), s')
    /\ forall e, settledBy (A := Buffer.t) (closing s) = Rejected e ->
                 accountsFor (@Rejected Buffer.t e, s').
Proof.
  intros Hr Hv Hc Hd Hcl Hl.
  assert (Hn : 0 < n) by (apply validateJsonLength_ok in Hv; lia).
  destruct (readExactly_closedOff_settled n s Hc Hd Hn Hcl Hl) as (s' & E & Ha).
  exists s'. split; [|exact Ha].
  rewrite (parsePrelude_payload_length _ _ _ _ _ Hr Hv).
  unfold bindA. rewrite E. now destruct (closing s) as [[e|]|].
Qed.

(** The whole call, for a source the parse may read. *)
Lemma parsePrelude_readable opts magics s :
  assertMagicList (ParsePreludeOptions.magic opts) = Ok magics ->
  activelyFlowing s = false \/ ParsePreludeOptions.autoPause opts = true ->
  parsePrelude opts s
  = tryCatch (parsePrelude_read magics
                (ParsePreludeOptions.maxJsonBytes opts ?? DEFAULT_MAX_JSON_BYTES)%js
                opts)
             destroyAndRethrow (Readable.pause s).
Proof.
  intros Em Hg. rewrite (parsePrelude_valid opts magics s Em).
  unfold tryCatch. now rewrite parsePrelude_try_guarded.
Qed.

Lemma tryCatch_rejected {A} (body : Async A) s e s' :
  body s = (Rejected e, s') ->
  tryCatch body destroyAndRethrow s = (Rejected e, Readable.destroy e s').
Proof. intros E. unfold tryCatch. rewrite E. reflexivity. Qed.

Lemma tryCatch_resolved {A} (body : Async A) handler s a s' :
  body s = (Resolved a, s') -> tryCatch body handler s = (Resolved a, s').
Proof. intros E. unfold tryCatch. now rewrite E. Qed.

Lemma tryCatch_pending {A} (body : Async A) handler s s' :
  body s = (Pending, s') -> tryCatch body handler s = (Pending, s').
Proof. intros E. unfold tryCatch. now rewrite E. Qed.

(** The fallback, with four bytes at hand that are no marker. *)
Lemma parsePrelude_read_fallback magics maxJsonBytes opts s :
  Readable.consistent s ->
  Readable.destroyed s = false ->
  ParsePreludeOptions.requirePrelude opts = false ->
  4 <= Buffer.length (atHand s) ->
  matchesAny magics (firstn 4 (atHand s)) = false ->
  exists r s',
    parsePrelude_read magics maxJsonBytes opts s
    = (Resolved (ParsePreludeResult.make (JObject []) r), s')
    /\ remainderBytes r s' = Readable.content s.
Proof.
  intros Hc Hd Hr Hl Hm.
  rewrite parsePrelude_read_first by assumption. rewrite Hm, Hr. cbn [negb].
  destruct (arrived_flags s) as (_ & Hre & _ & Hd' & _).
  destruct (remainder_with_bytes (ParsePreludeResult.make (JObject []))
              (firstn 4 (atHand s))
              (Readable.with_buffered (skipn 4 (atHand s)) (arrived s)))
    as (r & s' & E & Hb).
  - cbn [Readable.with_buffered Readable.readableEnded]. rewrite Hre.
    apply atHand_nonempty_live; [exact Hc|lia].
  - cbn [Readable.with_buffered Readable.destroyed]. congruence.
  - exists r, s'. split; [exact E|]. rewrite Hb, content_after_read.
    + destruct (content_atHand s) as [later ->].
      rewrite skipn_app_within by (unfold Buffer.length in Hl; lia).
      now rewrite app_assoc, firstn_skipn.
    + unfold Buffer.length in Hl. lia.
Qed.

(* ------------------------------------------------------------------ *)
(** ** [frameStream] next to [encodePrelude]                            *)
(* ------------------------------------------------------------------ *)

Lemma unserializable_no_bigint v :
  unserializable v = false -> JSON.has_bigint v = false.
Proof.
  induction v as [| |b|n|s|z| | |items IH|props IH|] using JsValue_deep_ind;
    intros R; try discriminate; try reflexivity.
  - cbn [unserializable] in R. cbn [JSON.has_bigint].
    induction items as [|x more IHm]; [reflexivity|].
    inversion IH as [|? ? Px IH']; subst.
    cbn [existsb] in R. apply orb_false_iff in R as [Rx R].
    cbn [existsb]. rewrite (Px Rx), (IHm IH' R). reflexivity.
  - cbn [unserializable] in R. cbn [JSON.has_bigint].
    induction props as [|[k x] more IHm]; [reflexivity|].
    inversion IH as [|? ? Px IH']; subst. cbn [snd] in Px.
    cbn [existsb snd] in R. apply orb_false_iff in R as [Rx R].
    rewrite (Px Rx), (IHm IH' R). reflexivity.
Qed.

Lemma has_bigint_object props :
  JSON.has_bigint (JObject props) = existsb (fun kv => JSON.has_bigint (snd kv)) props.
Proof.
  cbn [JSON.has_bigint].
  induction props as [|[k x] more IH]; [reflexivity|].
  cbn [existsb snd]. now rewrite IH.
Qed.

Lemma existsb_set {P : JsValue -> bool} key value props :
  P value = false ->
  existsb (fun kv => P (snd kv)) props = false ->
  existsb (fun kv => P (snd kv)) (Obj.set key value props) = false.
Proof.
  intros Hv. induction props as [|[k x] more IH]; intros H.
  - cbn. now rewrite Hv.
  - cbn [existsb snd] in H. apply orb_false_iff in H as [Hx H].
    cbn [Obj.set]. destruct (String.eqb k key); cbn [existsb snd].
    + now rewrite Hv, H.
    + now rewrite Hx, (IH H).
Qed.

Lemma existsb_spread {P : JsValue -> bool} source : forall target,
  existsb (fun kv => P (snd kv)) target = false ->
  existsb (fun kv => P (snd kv)) source = false ->
  existsb (fun kv => P (snd kv)) (Obj.spread target source) = false.
Proof.
  unfold Obj.spread. induction source as [|[k x] more IH]; intros target Ht Hs.
  - exact Ht.
  - cbn [existsb snd] in Hs. apply orb_false_iff in Hs as [Hx Hs].
    cbn [fold_left fst snd]. apply IH; [|exact Hs]. now apply existsb_set.
Qed.

(** After the validation [JSON.stringify] cannot throw. *)
Lemma validated_payload_has_no_bigint version h :
  validateHeaders h = Ok tt ->
  JSON.has_bigint (withVersion version h) = false.
Proof.
  intros Hv.
  assert (Hu : unserializable h = false).
  { destruct (unserializable h) eqn:E; [|reflexivity].
    destruct (validateHeaders_unserializable h E) as (msg & Hm). congruence. }
  unfold withVersion. rewrite has_bigint_object.
  apply existsb_spread; [reflexivity|].
  destruct h; try reflexivity. cbn [ownProps].
  apply unserializable_no_bigint in Hu. now rewrite has_bigint_object in Hu.
Qed.

Lemma stringifyOrTypeError_validated version h :
  validateHeaders h = Ok tt ->
  stringifyOrTypeError (withVersion version h)
  = stringifyPayload (withVersion version h).
Proof.
  intros Hv. unfold stringifyOrTypeError, stringifyPayload, JSON.stringify.
  rewrite (validated_payload_has_no_bigint version h Hv).
  now destruct (JSON.omitted _).
Qed.

(** [frameStream] runs the checks of [encodePrelude] and puts the frame in
    front of the source. *)
Lemma frameStream_encodePrelude source h opts m rest :
  assertMagicList (FrameStreamOptions.magic opts) = Ok (m :: rest) ->
  frameStream source h opts
  = map_result
      (fun prelude =>
         Readable.make (prelude ++ Readable.buffered source)
                       (Readable.ended source) false None O false None true
                       (Readable.upcoming source))
      (encodePrelude h (EncodeOptions.make (Some (MagicBuffer m))
                                           (FrameStreamOptions.version opts)
                                           (FrameStreamOptions.maxJsonBytes opts))).
Proof.
  intros Em. unfold frameStream, encodePrelude. rewrite Em. cbn [bind].
  assert (Hm : Buffer.length m = MAGIC_LENGTH).
  { pose proof (assertMagicList_lengths _ _ Em) as HF. now inversion HF. }
  cbn [EncodeOptions.magic EncodeOptions.version EncodeOptions.maxJsonBytes option_map].
  unfold assertMagicList. cbn [map_throwing]. unfold assertMagic.
  rewrite Hm, Z.eqb_refl. cbn [negb bind].
  destruct (validateHeaders h) as [[]|e] eqn:Ev; cbn [bind map_result]; [|reflexivity].
  rewrite (stringifyOrTypeError_validated _ _ Ev).
  destruct (stringifyPayload _) as [text|e]; cbn [bind map_result]; [|reflexivity].
  destruct (validateJsonLength _ _) as [[]|e]; cbn [bind map_result]; [|reflexivity].
  cbn [firstMagic bind].
  destruct (makePreludeBuffer m _); reflexivity.
Qed.

Lemma content_framed prelude source :
  Readable.content
    (Readable.make (prelude ++ Readable.buffered source)
                   (Readable.ended source) false None O false None true
                   (Readable.upcoming source))
  = prelude ++ Readable.content source.
Proof. unfold Readable.content. cbn. now rewrite app_assoc. Qed.

(** The pull-mode parse of bytes at hand that [decodePrelude] accepts. *)
Lemma parsePrelude_decoded (opts : ParsePreludeOptions.t) (source : Readable.t)
      (d : Decoded) :
  readable opts source ->
  decodePrelude (atHand source) (decodeOptionsOf opts) = Ok d ->
  exists r s',
    parsePrelude opts source
    = (Resolved (ParsePreludeResult.make (headers d) r), s')
    /\ remainderBytes r s'
       = Buffer.subarray_from (Readable.content source) (offset d).
Proof.
  intros (Hc & Hd & Hg) H.
  destruct (decodePrelude_Ok_inv _ _ _ H)
    as (magics & n & Em & Hm & Hrd & Hn & Hl & Hp & Ho & Hoff).
  cbn [decodeOptionsOf DecodeOptions.magic DecodeOptions.maxJsonBytes] in *.
  change (MAGIC_LENGTH + LENGTH_BYTES) with 8 in *. change MAGIC_LENGTH with 4 in *.
  rewrite (parsePrelude_readable opts magics source Em Hg).
  set (max := ParsePreludeOptions.maxJsonBytes opts ?? DEFAULT_MAX_JSON_BYTES) in *.
  pose proof (atHand_pause source) as Hh.
  assert (E : parsePrelude_read magics max opts (Readable.pause source)
              = parsePrelude_payload max opts (firstn 4 (skipn 4 (atHand source)))
                  (Readable.with_buffered (skipn 8 (atHand source))
                     (arrived (Readable.pause source)))).
  { rewrite <- Hh. apply parsePrelude_read_held; rewrite ?Hh; [exact Hc|lia|exact Hm]. }
  set (s2 := Readable.with_buffered (skipn 8 (atHand source))
               (arrived (Readable.pause source))) in *.
  assert (Hb2 : Readable.buffered s2 = skipn 8 (atHand source)) by reflexivity.
  pose proof (parsePrelude_payload_held max opts
                (firstn 4 (skipn 4 (atHand source))) n s2) as Hcase.
  rewrite Hb2 in Hcase.
  rewrite <- subarray_as_firstn, Hp, Ho in Hcase by lia.
  destruct Hcase as (r & s4 & E4 & Hb).
  - rewrite readUInt32BE_at_4. exact Hrd.
  - now apply validateJsonLength_ok.
  - unfold Readable.readableLength. rewrite Hb2.
    rewrite (skipn_length_Z _ 8) by lia. lia.
  - exists r, s4. split.
    + apply tryCatch_resolved. rewrite E. exact E4.
    + rewrite Hb. unfold s2. rewrite skipn_skipn.
      change (Readable.with_buffered
                (skipn (Z.to_nat n + 8) (atHand source))
                (Readable.with_buffered (skipn 8 (atHand source))
                   (arrived (Readable.pause source))))
        with (Readable.with_buffered
                (skipn (Z.to_nat n + 8) (atHand source))
                (arrived (Readable.pause source))).
      rewrite <- Hh at 1. rewrite content_after_read.
      * rewrite content_pause, Hoff. unfold Buffer.subarray_from.
        f_equal. lia.
      * rewrite Hh. unfold Buffer.length in Hl. lia.
Qed.

Lemma frameStream_Ok_magic source h opts framed :
  frameStream source h opts = Ok framed ->
  exists m rest, assertMagicList (FrameStreamOptions.magic opts) = Ok (m :: rest).
Proof.
  unfold frameStream.
  destruct (assertMagicList (FrameStreamOptions.magic opts)) as [[|m rest]|e];
    cbn [bind]; [|eauto|discriminate].
  destruct (validateHeaders h); cbn [bind]; [|discriminate].
  destruct (stringifyOrTypeError _); cbn [bind]; [|discriminate].
  destruct (validateJsonLength _ _); cbn [bind firstMagic]; discriminate.
Qed.

Lemma matchesAny_head m rest : matchesAny (m :: rest) m = true.
Proof. apply matchesAny_In. now left. Qed.

(** The length bytes of a payload of less than 16 MiB start with a zero
    byte, which the default marker does not. *)
Lemma length_bytes_are_no_default_marker n rest :
  0 <= n < 16777216 ->
  matchesAny [Buffer.from_string DEFAULT_MAGIC] (firstn 4 (Buffer.uint32BE n ++ rest))
  = false.
Proof.
  intros Hn. unfold Buffer.uint32BE. cbn [app firstn].
  rewrite Z.shiftr_div_pow2 by lia. rewrite Z.div_small by (change (2 ^ 24) with 16777216; lia).
  change (Buffer.of_Z 0) with x00.
  unfold matchesAny. cbn [existsb]. rewrite orb_false_r.
  unfold Buffer.equals.
  destruct (list_eq_dec _ _ _) as [E|E]; [discriminate E|reflexivity].
Qed.

Lemma readable_framed opts prelude source :
  readable opts
    (Readable.make (prelude ++ Readable.buffered source)
                   (Readable.ended source) false None O false None true
                   (Readable.upcoming source)).
Proof.
  split; [intros X; discriminate X|]. split; [reflexivity|left; reflexivity].
Qed.

(* ------------------------------------------------------------------ *)
(** ** More on the push-mode adapter                                    *)
(* ------------------------------------------------------------------ *)

Lemma feed_initial_after cfg chunks :
  sameOutcome (Transform.feed cfg Transform.initial chunks)
              (after_magic cfg 0 (Buffer.concat chunks)).
Proof. exact (feed_after cfg chunks Transform.initial resting_initial). Qed.

Lemma feed_app cfg a : forall st b,
  Transform.feed cfg st (a ++ b)
  = match Transform.feed cfg st a with
    | (out, Ok st') =>
        let (out', r) := Transform.feed cfg st' b in (out ++ out', r)
    | (out, Throw e) => (out, Throw e)
    end.
Proof.
  induction a as [|c a IH]; intros st b.
  - cbn [app Transform.feed]. now destruct (Transform.feed cfg st b).
  - cbn [app Transform.feed].
    destruct (Transform.transform cfg st c) as [out [st1|e]]; [|reflexivity].
    rewrite IH.
    destruct (Transform.feed cfg st1 a) as [out1 [st2|e]]; [|reflexivity].
    destruct (Transform.feed cfg st2 b) as [out2 r]. now rewrite app_assoc.
Qed.

Lemma feed_resting cfg chunks st out st' :
  resting st -> Transform.feed cfg st chunks = (out, Ok st') -> resting st'.
Proof.
  intros R E. pose proof (feed_after cfg chunks st R) as (Hs & _).
  rewrite E in Hs. cbn [snd] in Hs.
  destruct (after cfg st _) as [out2 r] eqn:Ea. cbn [snd] in Hs. subst r.
  exact (after_resting _ _ _ _ _ Ea).
Qed.

(** The bytes held between two calls. *)
Lemma after_json_bound n d out st :
  after_json n d = (out, Ok st) ->
  Buffer.length (Transform.buffer st) < Z.max 4 n.
Proof.
  unfold after_json. destruct (n <=? Buffer.length d) eqn:E.
  - destruct (parsePayload _) as [parsed|e]; [|discriminate].
    destruct (negb (isPlainObject parsed)); [discriminate|].
    intros H. injection H as _ <-. cbn. lia.
  - apply Z.leb_gt in E. intros H. injection H as _ <-. cbn [Transform.buffer]. lia.
Qed.

Lemma after_length_bound cfg jl d out st :
  after_length cfg jl d = (out, Ok st) ->
  Buffer.length (Transform.buffer st) < Z.max 4 (Transform.maxJsonBytes cfg).
Proof.
  unfold after_length. destruct (LENGTH_BYTES <=? Buffer.length d) eqn:E.
  - destruct (Buffer.readUInt32BE d 0) as [n|e]; cbn [bind]; [|discriminate].
    destruct (validateJsonLength n _) as [[]|e] eqn:Ev; cbn [bind]; [|discriminate].
    apply validateJsonLength_ok in Ev. intros H. apply after_json_bound in H. lia.
  - apply Z.leb_gt in E. change LENGTH_BYTES with 4 in E.
    intros H. injection H as _ <-. cbn [Transform.buffer]. lia.
Qed.

Lemma after_magic_bound cfg jl d out st :
  after_magic cfg jl d = (out, Ok st) ->
  Buffer.length (Transform.buffer st) < Z.max 4 (Transform.maxJsonBytes cfg).
Proof.
  unfold after_magic. destruct (MAGIC_LENGTH <=? Buffer.length d) eqn:E.
  - destruct (negb (matchesAny _ _)).
    + intros H. injection H as _ <-. cbn. lia.
    + apply after_length_bound.
  - apply Z.leb_gt in E. change MAGIC_LENGTH with 4 in E.
    intros H. injection H as _ <-. cbn [Transform.buffer]. lia.
Qed.

(** The outcome on bytes [decodePrelude] rejects. *)
Lemma after_magic_rejected buffer opts magics e jl :
  assertMagicList (DecodeOptions.magic opts) = Ok magics ->
  decodePrelude buffer opts = Throw e ->
  e <> newPreludeTruncatedError ->
  e <> newPreludeMagicMismatchError None ->
  after_magic
    (Transform.mkConfig magics (DecodeOptions.maxJsonBytes opts ?? DEFAULT_MAX_JSON_BYTES))
    jl buffer
  = ([], Throw e).
Proof.
  intros Em H Ht Hmm. rewrite (decodePrelude_steps _ _ _ Em) in H.
  assert (HM : MAGIC_LENGTH = 4) by reflexivity.
  assert (HL : LENGTH_BYTES = 4) by reflexivity.
  destruct (Buffer.length buffer <? MAGIC_LENGTH + LENGTH_BYTES) eqn:E8;
    [injection H as <-; now destruct Ht|].
  apply Z.ltb_ge in E8.
  destruct (negb (matchesAny magics _)) eqn:Emm;
    [injection H as <-; now destruct Hmm|].
  unfold after_magic. cbn [Transform.magics].
  replace (MAGIC_LENGTH <=? Buffer.length buffer) with true
    by (symmetry; apply Z.leb_le; lia).
  rewrite Emm. unfold after_length. cbn [Transform.maxJsonBytes].
  rewrite subarray_from_length by lia.
  replace (LENGTH_BYTES <=? Buffer.length buffer - MAGIC_LENGTH) with true
    by (symmetry; apply Z.leb_le; lia).
  rewrite readUInt32BE_subarray_from.
  destruct (Buffer.readUInt32BE buffer MAGIC_LENGTH) as [n|e'] eqn:Er; cbn [bind] in *;
    [|now injection H as ->].
  destruct (validateJsonLength n _) as [[]|e'] eqn:Ev; cbn [bind] in *;
    [|now injection H as ->].
  pose proof Ev as Hn. apply validateJsonLength_ok in Hn.
  destruct (Buffer.length buffer <? MAGIC_LENGTH + LENGTH_BYTES + n) eqn:En;
    [injection H as <-; now destruct Ht|].
  apply Z.ltb_ge in En.
  unfold after_json.
  rewrite subarray_from_from by lia.
  rewrite subarray_from_length by lia.
  replace (n <=? Buffer.length buffer - (MAGIC_LENGTH + LENGTH_BYTES)) with true
    by (symmetry; apply Z.leb_le; lia).
  rewrite subarray_of_subarray_from.
  destruct (parsePayload _) as [parsed|e'] eqn:Ep; cbn [bind] in *;
    [|now injection H as ->].
  destruct (negb (isPlainObject parsed)); [now injection H as <-|discriminate].
Qed.

Lemma runTransform_feed opts magics chunks :
  assertMagicList (ParsePreludeOptions.magic opts) = Ok magics ->
  runTransform opts chunks
  = Ok (Transform.feed
          (Transform.mkConfig magics
             (ParsePreludeOptions.maxJsonBytes opts ?? DEFAULT_MAX_JSON_BYTES))
          Transform.initial chunks).
Proof.
  intros Em. unfold runTransform, parsePreludeTransform. rewrite Em. reflexivity.
Qed.

Lemma firstn_skipn_subarray (b : Buffer.t) :
  Buffer.subarray b 0 MAGIC_LENGTH ++ Buffer.subarray_from b MAGIC_LENGTH = b.
Proof. apply (firstn_skipn 4 b). Qed.

(* ------------------------------------------------------------------ *)
(** ** Properties of the buffer API                                     *)
(* ------------------------------------------------------------------ *)

(** C1 as stated fails on a header that is valid and too large: the frame
    it speaks of does not exist. *)
Lemma oversized_header_is_not_encoded :
  validHeader bigHeader = true
  /\ encodePrelude bigHeader EncodeOptions.default = Throw newPreludeJsonTooLargeError.
Proof. split; vm_compute; reflexivity. Qed.

(** C1 (amended): for every valid header [H] that [encodePrelude] accepts
    under the default options, and every body [B], [decodePrelude] applied
    to the frame followed by [B] returns [H] with the version 1 added in
    front, the offset is the length of the frame, and the bytes from that
    offset on are [B]. *)
Theorem encode_decode_round_trip (H : JsValue) (B frame : Buffer.t) :
  validHeader H = true ->
  encodePrelude H EncodeOptions.default = Ok frame ->
  decodePrelude (frame ++ B) DecodeOptions.default
  = Ok (mkDecoded (versioned DEFAULT_VERSION H) (Buffer.length frame))
  /\ Buffer.subarray_from (frame ++ B) (Buffer.length frame) = B.
Proof.
  intros HV E. split.
  - now apply decodePrelude_of_encoded.
  - apply subarray_from_suffix.
Qed.

Lemma encode_decode_round_trip_witness :
  decodePrelude (helloFrame ++ helloBody) DecodeOptions.default
  = Ok (mkDecoded (versioned DEFAULT_VERSION textPlain) (Buffer.length helloFrame))
  /\ Buffer.subarray_from (helloFrame ++ helloBody) (Buffer.length helloFrame)
     = helloBody.
Proof.
  apply (encode_decode_round_trip textPlain helloBody helloFrame).
  - reflexivity.
  - reflexivity.
Defined.

(** C4: for every header and every option set, [getPreludeSize] returns the
    length of what [encodePrelude] returns and throws what it throws, as
    long as the payload text is one the 32-bit length field can count (the
    engine holds no longer string). *)
Theorem getPreludeSize_is_encoded_length (H : JsValue) (opts : EncodeOptions.t) :
  (forall s,
      stringifyPayload
        (withVersion (EncodeOptions.version opts ?? DEFAULT_VERSION) H) = Ok s ->
      Buffer.byteLength s <= 4294967295) ->
  getPreludeSize H opts = map_result Buffer.length (encodePrelude H opts).
Proof.
  intros Hfit. unfold getPreludeSize, encodePrelude.
  destruct (assertMagicList_one (EncodeOptions.magic opts)) as [Em|(magic & Em & Hm)];
    rewrite Em; cbn [bind map_result]; [reflexivity|].
  destruct (validateHeaders H) as [[]|e]; cbn [bind map_result]; [|reflexivity].
  destruct (stringifyPayload _) as [s|e] eqn:Es; cbn [bind map_result]; [|reflexivity].
  specialize (Hfit s eq_refl). unfold Buffer.byteLength in *.
  destruct (validateJsonLength _ _) as [[]|e]; cbn [bind map_result firstMagic];
    [|reflexivity].
  rewrite makePreludeBuffer_layout by assumption. cbn [map_result].
  rewrite !Buffer_length_app, uint32BE_length. unfold LENGTH_BYTES. f_equal. lia.
Qed.

Lemma getPreludeSize_is_encoded_length_witness :
  getPreludeSize textPlain (EncodeOptions.make (Some (MagicString "TEST")) (Some (Finite "2")) (Some 64))
  = map_result Buffer.length
      (encodePrelude textPlain
         (EncodeOptions.make (Some (MagicString "TEST")) (Some (Finite "2")) (Some 64))).
Proof.
  apply (getPreludeSize_is_encoded_length textPlain
           (EncodeOptions.make (Some (MagicString "TEST")) (Some (Finite "2")) (Some 64))).
  intros s Hs. vm_compute in Hs. inversion Hs. vm_compute. discriminate.
Defined.

(** C5 as stated fails on a non-finite number: [NaN] passes the validation
    and is written as [null]. *)
Lemma non_finite_number_is_encoded :
  hasNonFinite nanHeader = true
  /\ map_result Buffer.toString (encodePrelude nanHeader EncodeOptions.default)
     = Ok (String.append "PRE1"
             (String (ascii_of_N 0) (String (ascii_of_N 0) (String (ascii_of_N 0)
                (String (ascii_of_N 16) (dq "{'v':1,'x':null}")))))).
Proof. split; reflexivity. Qed.

(** C5 (amended): a header that holds, at any depth, [undefined] or a value
    that is not a string, a number, a boolean, [null], an array or a plain
    object makes [encodePrelude] and [frameStream] throw a TypeError, for all
    options; no byte is produced. *)
Theorem unserializable_header_is_rejected (H : JsValue) :
  unserializable H = true ->
  (forall opts, exists msg, encodePrelude H opts = Throw (newTypeError msg))
  /\ (forall source opts, exists msg, frameStream source H opts = Throw (newTypeError msg)).
Proof.
  intros U. destruct (validateHeaders_unserializable H U) as [msg Ev]. split.
  - intros opts. unfold encodePrelude.
    destruct (assertMagicList _) as [magics|e] eqn:Em; cbn [bind].
    + rewrite Ev. eexists; reflexivity.
    + apply assertMagicList_throws in Em. subst e. eexists; reflexivity.
  - intros source opts. unfold frameStream.
    destruct (assertMagicList _) as [magics|e] eqn:Em; cbn [bind].
    + rewrite Ev. eexists; reflexivity.
    + apply assertMagicList_throws in Em. subst e. eexists; reflexivity.
Qed.

Lemma unserializable_header_is_rejected_witness :
  (forall opts, exists msg,
      encodePrelude (JObject [("bad"%string, JFunction)]) opts = Throw (newTypeError msg))
  /\ (forall source opts, exists msg,
        frameStream source (JObject [("bad"%string, JFunction)]) opts
        = Throw (newTypeError msg)).
Proof.
  apply (unserializable_header_is_rejected (JObject [("bad"%string, JFunction)])).
  reflexivity.
Defined.

Lemma readUInt32BE_Ok_length buffer offset v :
  0 <= offset ->
  Buffer.readUInt32BE buffer offset = Ok v -> offset + 4 <= Buffer.length buffer.
Proof.
  intros Ho. unfold Buffer.readUInt32BE, Buffer.length.
  destruct (skipn (Z.to_nat offset) buffer) as [ | b0 [ | b1 [ | b2 [ | b3 rest ] ] ] ] eqn:E;
    try discriminate.
  intros _.
  assert (L : (List.length (skipn (Z.to_nat offset) buffer) >= 4)%nat)
    by (rewrite E; cbn; lia).
  rewrite length_skipn in L. lia.
Qed.

Lemma decodePrelude_zero_length buffer opts magics :
  assertMagicList (DecodeOptions.magic opts) = Ok magics ->
  matchesAny magics (Buffer.subarray buffer 0 MAGIC_LENGTH) = true ->
  Buffer.readUInt32BE buffer MAGIC_LENGTH = Ok 0 ->
  decodePrelude buffer opts
  = Throw (if 0 >? DecodeOptions.maxJsonBytes opts ?? DEFAULT_MAX_JSON_BYTES
           then newPreludeJsonTooLargeError
           else newPreludeJsonParseError (Some "JSON payload must be non-empty"%string)).
Proof.
  intros Em Hm Hz.
  assert (Hlen : MAGIC_LENGTH + 4 <= Buffer.length buffer)
    by (eapply readUInt32BE_Ok_length; [unfold MAGIC_LENGTH; lia|exact Hz]).
  unfold decodePrelude. rewrite Em. cbn [bind].
  replace (Buffer.length buffer <? MAGIC_LENGTH + LENGTH_BYTES) with false
    by (symmetry; apply Z.ltb_ge; unfold LENGTH_BYTES; lia).
  rewrite Hm. cbn [negb]. rewrite Hz. cbn [bind].
  unfold validateJsonLength. cbn [Z.ltb Z.compare Z.eqb].
  destruct (0 >? _); reflexivity.
Qed.

(** C6: a buffer that starts with a configured marker and declares the
    length 0 is never decoded; [decodePrelude] throws, and for every maximum
    that is not negative the error is the parse error for an empty payload. *)
Theorem zero_length_is_a_parse_error (buffer : Buffer.t) (opts : DecodeOptions.t)
        (magics : list Buffer.t) :
  assertMagicList (DecodeOptions.magic opts) = Ok magics ->
  matchesAny magics (Buffer.subarray buffer 0 MAGIC_LENGTH) = true ->
  Buffer.readUInt32BE buffer MAGIC_LENGTH = Ok 0 ->
  (forall d, decodePrelude buffer opts <> Ok d)
  /\ (0 <= DecodeOptions.maxJsonBytes opts ?? DEFAULT_MAX_JSON_BYTES ->
      decodePrelude buffer opts
      = Throw (newPreludeJsonParseError (Some "JSON payload must be non-empty"%string))).
Proof.
  intros Em Hm Hz. rewrite (decodePrelude_zero_length buffer opts magics Em Hm Hz).
  split; [discriminate|].
  intros Hmax.
  replace (0 >? _) with false
    by (symmetry; rewrite Z.gtb_ltb; apply Z.ltb_ge; lia).
  reflexivity.
Qed.

Lemma zero_length_is_a_parse_error_witness :
  (forall d, decodePrelude (Buffer.from_string "PRE1" ++ [x00; x00; x00; x00; x7b; x7d])
                           DecodeOptions.default <> Ok d)
  /\ (0 <= DecodeOptions.maxJsonBytes DecodeOptions.default ?? DEFAULT_MAX_JSON_BYTES ->
      decodePrelude (Buffer.from_string "PRE1" ++ [x00; x00; x00; x00; x7b; x7d])
                    DecodeOptions.default
      = Throw (newPreludeJsonParseError (Some "JSON payload must be non-empty"%string))).
Proof.
  apply (zero_length_is_a_parse_error
           (Buffer.from_string "PRE1" ++ [x00; x00; x00; x00; x7b; x7d])
           DecodeOptions.default [Buffer.from_string "PRE1"]); reflexivity.
Defined.

(* ------------------------------------------------------------------ *)
(** ** Properties of the push-mode adapter                              *)
(* ------------------------------------------------------------------ *)

(** C2: for every valid header [H] that [encodePrelude] frames, every body
    [B] and every list of chunks that concatenates to the frame followed by
    [B] (empty chunks allowed), the stream fed with the chunks one at a time
    emits exactly the header [decodePrelude] returns for the whole buffer
    and pushes exactly the bytes from the offset it returns. *)
Theorem chunk_boundary_invariance (H : JsValue) (B frame : Buffer.t)
        (chunks : list Buffer.t) :
  validHeader H = true ->
  encodePrelude H EncodeOptions.default = Ok frame ->
  Buffer.concat chunks = frame ++ B ->
  exists d out st,
    decodePrelude (frame ++ B) DecodeOptions.default = Ok d
    /\ runTransform ParsePreludeOptions.default chunks = Ok (out, Ok st)
    /\ Transform.emitted out = [headers d]
    /\ Transform.pushed out = Buffer.subarray_from (frame ++ B) (offset d).
Proof.
  intros HV E Hc.
  pose proof (decodePrelude_of_encoded H B frame HV E) as Hd.
  destruct (feed_decoded (frame ++ B) chunks None None _ false None false Hc Hd)
    as (out & st & Hr & _ & He & Hp).
  exists (mkDecoded (versioned DEFAULT_VERSION H) (Buffer.length frame)), out, st.
  auto.
Qed.

Lemma chunk_boundary_invariance_witness :
  exists d out st,
    decodePrelude (helloFrame ++ helloBody) DecodeOptions.default = Ok d
    /\ runTransform ParsePreludeOptions.default (everyByte (helloFrame ++ helloBody))
       = Ok (out, Ok st)
    /\ Transform.emitted out = [headers d]
    /\ Transform.pushed out
       = Buffer.subarray_from (helloFrame ++ helloBody) (offset d).
Proof.
  apply (chunk_boundary_invariance textPlain helloBody helloFrame
           (everyByte (helloFrame ++ helloBody))).
  - reflexivity.
  - reflexivity.
  - reflexivity.
Defined.

(** C9 as stated fails on a stream that ends inside the marker: two bytes
    are written, no header event is emitted (and the bytes are never
    forwarded). *)
Lemma short_stream_emits_no_header :
  runTransform ParsePreludeOptions.default [Buffer.from_string "ab"]
  = Ok ([], Ok (Transform.mkState Transform.magic 4 (Buffer.from_string "ab") 0))
  /\ Transform.emitted [] = [].
Proof. split; reflexivity. Qed.

(** C9 (amended): over every input chunk sequence the header event is
    emitted at most once.  A stream that has reached the body stage has
    emitted it exactly once, as its first output, before every push; a
    stream that has not, or that failed, has emitted nothing and pushed
    nothing. *)
Theorem header_event_comes_first (opts : ParsePreludeOptions.t)
        (chunks : list Buffer.t) (out : list Transform.Output)
        (r : result Transform.State) :
  runTransform opts chunks = Ok (out, r) ->
  headerThenBody out r /\ (List.length (Transform.emitted out) <= 1)%nat.
Proof.
  unfold runTransform. destruct (parsePreludeTransform opts) as [cfg|e];
    cbn [bind]; [|discriminate].
  intros E. injection E as E.
  pose proof (feed_shape cfg chunks Transform.initial resting_initial eq_refl) as Hs.
  rewrite E in Hs. cbn [fst snd] in Hs. split; [exact Hs|].
  unfold headerThenBody in Hs.
  destruct r as [st|e].
  - destruct (Transform.is_body (Transform.stage st)).
    + destruct Hs as (h & ps & ->). autorewrite with outputs.
      rewrite emitted_pushes. cbn. lia.
    + subst out. cbn. lia.
  - subst out. cbn. lia.
Qed.

Lemma header_event_comes_first_witness :
  headerThenBody
    [Transform.Emit (JObject []); Transform.Push (Buffer.from_string "XXXX");
     Transform.Push (Buffer.from_string "no"); Transform.Push (Buffer.from_string "ne")]
    (Ok (Transform.mkState Transform.body 0 [] 0))
  /\ (List.length
        (Transform.emitted
           [Transform.Emit (JObject []); Transform.Push (Buffer.from_string "XXXX");
            Transform.Push (Buffer.from_string "no");
            Transform.Push (Buffer.from_string "ne")]) <= 1)%nat.
Proof.
  apply (header_event_comes_first ParsePreludeOptions.default
           [Buffer.from_string "XX"; Buffer.from_string "XXno"; Buffer.from_string "ne"]).
  reflexivity.
Defined.
(* ------------------------------------------------------------------ *)
(** ** Properties of the pull-mode API                                  *)
(* ------------------------------------------------------------------ *)

(** C3: on the input of scenario D arriving in three chunks (XX, then
    XXno prelude, then data), [parsePrelude] with the default options never
    settles: the first read asks for four bytes, two are in the buffer, and
    the loop of [readExactly] is woken by a 'readable' event that brings
    nothing new, however many turns it is given.  The property asks for the
    empty header and the whole input as the remainder, whatever the
    chunking. *)
Theorem fallback_never_settles_on_a_split_marker :
  Buffer.concat [Buffer.from_string "XX"; Buffer.from_string "XXno prelude";
                 Buffer.from_string " data"] = noPrelude
  /\ matchesAny [Buffer.from_string DEFAULT_MAGIC] (firstn 4 noPrelude) = false
  /\ parsePrelude ParsePreludeOptions.default noPreludeSource
     = (Pending, Readable.pause noPreludeSource)
  /\ forall fuel,
       readExactly_loop fuel (Readable.pause noPreludeSource) MAGIC_LENGTH [] 0
       = None.
Proof.
  split; [reflexivity|]. split; [reflexivity|]. split; [vm_compute; reflexivity|].
  apply readExactly_loop_starving.
  - intros H. discriminate H.
  - repeat split; try reflexivity.
Qed.



(** C8 as stated fails on a source that ends inside the marker: the parse
    rejects with the truncation error and the source is destroyed, but not
    with that error: it has emitted 'end', Node has destroyed it without an
    error, and [source.destroy(error)] in the catch block changes
    nothing. *)
Lemma truncated_source_carries_no_error :
  exists s',
    parsePrelude ParsePreludeOptions.default truncatedSource
    = (Rejected newPreludeTruncatedError, s')
    /\ Readable.destroyed s' = true
    /\ Readable.readableEnded s' = true
    /\ Readable.errored s' = None
    /\ Readable.errored s' <> Some newPreludeTruncatedError.
Proof.
  eexists. split; [vm_compute; reflexivity|].
  repeat split. discriminate.
Qed.

(** C8 (amended): whenever [parsePrelude], called with a valid [magic]
    option, rejects, the source is destroyed when the rejection is
    delivered; a source that was live at the call has been destroyed with
    the very error of the rejection, unless that error is the truncation
    error and the source has emitted 'end'. *)
Theorem rejected_parse_destroys_the_source (opts : ParsePreludeOptions.t)
        (magics : list Buffer.t) (source s' : Readable.t) (e : Error) :
  assertMagicList (ParsePreludeOptions.magic opts) = Ok magics ->
  parsePrelude opts source = (Rejected e, s') ->
  Readable.destroyed s' = true
  /\ (Readable.destroyed source = false ->
      Readable.errored s' = Some e
      \/ (e = newPreludeTruncatedError /\ Readable.readableEnded s' = true)).
Proof.
  intros Em E. rewrite (parsePrelude_valid opts magics source Em) in E.
  unfold tryCatch in E.
  destruct (parsePrelude_try magics
              (ParsePreludeOptions.maxJsonBytes opts ?? DEFAULT_MAX_JSON_BYTES) opts
              source) as [[a|e1|] s1] eqn:T; try discriminate.
  unfold destroyAndRethrow, bindA, call, reject in E.
  inversion E; subst. split.
  - apply destroy_destroyed.
  - intros Hd. apply (destroy_accounted (A := ParsePreludeResult.t)).
    exact (rejectsLive_parsePrelude_try _ _ _ source e s1 Hd T).
Qed.

Lemma rejected_parse_destroys_the_source_witness :
  (Readable.destroyed
     (snd (parsePrelude ParsePreludeOptions.default oversizedSource)) = true
   /\ (Readable.destroyed oversizedSource = false ->
       Readable.errored
         (snd (parsePrelude ParsePreludeOptions.default oversizedSource))
       = Some newPreludeJsonTooLargeError
       \/ (newPreludeJsonTooLargeError = newPreludeTruncatedError
           /\ Readable.readableEnded
                (snd (parsePrelude ParsePreludeOptions.default oversizedSource))
              = true)))
  /\ (Readable.destroyed
        (snd (parsePrelude ParsePreludeOptions.default truncatedSource)) = true
      /\ (Readable.destroyed truncatedSource = false ->
          Readable.errored
            (snd (parsePrelude ParsePreludeOptions.default truncatedSource))
          = Some newPreludeTruncatedError
          \/ (newPreludeTruncatedError = newPreludeTruncatedError
              /\ Readable.readableEnded
                   (snd (parsePrelude ParsePreludeOptions.default truncatedSource))
                 = true))).
Proof.
  split.
  - apply (rejected_parse_destroys_the_source ParsePreludeOptions.default
             [Buffer.from_string "PRE1"] oversizedSource).
    + reflexivity.
    + vm_compute. reflexivity.
  - apply (rejected_parse_destroys_the_source ParsePreludeOptions.default
             [Buffer.from_string "PRE1"] truncatedSource).
    + reflexivity.
    + vm_compute. reflexivity.
Defined.

(** C10: on a source that delivers two bytes and then fails,
    [isFramedStream] never settles: the read of the probe asks for four
    bytes, two are in the buffer, and the loop of [readExactly] is woken by
    a 'readable' event that brings nothing new, however many turns it is
    given; the failure of the source is never seen.  The property asks for
    [false]. *)
Theorem isFramedStream_never_settles_on_a_failing_source :
  Readable.content failingSource = Buffer.from_string "PR"
  /\ closing failingSource = Some (Some (mkError SourceError "connection reset"))
  /\ isFramedStream None failingSource = (Pending, Readable.pause failingSource)
  /\ forall fuel,
       readExactly_loop fuel (Readable.pause failingSource) MAGIC_LENGTH [] 0 = None.
Proof.
  split; [reflexivity|]. split; [reflexivity|]. split; [vm_compute; reflexivity|].
  apply readExactly_loop_starving.
  - intros H. discriminate H.
  - repeat split; try reflexivity.
Qed.
(* ------------------------------------------------------------------ *)
(** ** Further properties of the buffer API                             *)
(* ------------------------------------------------------------------ *)

(** X1: when [decodePrelude] returns, the first four bytes of the buffer
    are one of the configured markers, the header is a plain object parsed
    from the declared number of bytes, and the offset is the end of those
    bytes: past the eight bytes of marker and length, inside the buffer, and
    at most [maxJsonBytes] after them. *)
Theorem decoded_offset_is_within_bounds (buffer : Buffer.t) (opts : DecodeOptions.t)
        (d : Decoded) :
  decodePrelude buffer opts = Ok d ->
  exists magics,
    assertMagicList (DecodeOptions.magic opts) = Ok magics
    /\ In (Buffer.subarray buffer 0 4) magics
    /\ isPlainObject (headers d) = true
    /\ 8 < offset d <= Buffer.length buffer
    /\ offset d <= 8 + DecodeOptions.maxJsonBytes opts ?? DEFAULT_MAX_JSON_BYTES
    /\ Buffer.readUInt32BE buffer 4 = Ok (offset d - 8)
    /\ parsePayload (Buffer.subarray buffer 8 (offset d)) = Ok (headers d).
Proof.
  intros H. destruct (decodePrelude_Ok_inv buffer opts d H)
    as (magics & n & Em & Hm & Hr & Hn & Hl & Hp & Ho & Hoff).
  change (MAGIC_LENGTH + LENGTH_BYTES) with 8 in *. change MAGIC_LENGTH with 4 in *.
  exists magics. rewrite Hoff. replace (8 + n - 8) with n by lia.
  repeat split; try assumption; try lia.
  now apply matchesAny_In.
Qed.

Lemma decoded_offset_is_within_bounds_witness :
  exists magics,
    assertMagicList (DecodeOptions.magic DecodeOptions.default) = Ok magics
    /\ In (Buffer.subarray (helloFrame ++ helloBody) 0 4) magics
    /\ isPlainObject (versioned DEFAULT_VERSION textPlain) = true
    /\ 8 < 42 <= Buffer.length (helloFrame ++ helloBody)
    /\ 42 <= 8 + DecodeOptions.maxJsonBytes DecodeOptions.default ?? DEFAULT_MAX_JSON_BYTES
    /\ Buffer.readUInt32BE (helloFrame ++ helloBody) 4 = Ok (42 - 8)
    /\ parsePayload (Buffer.subarray (helloFrame ++ helloBody) 8 42)
       = Ok (versioned DEFAULT_VERSION textPlain).
Proof.
  apply (decoded_offset_is_within_bounds (helloFrame ++ helloBody)
           DecodeOptions.default (mkDecoded (versioned DEFAULT_VERSION textPlain) 42)).
  reflexivity.
Defined.

(** X2: unless [decodePrelude] reports a truncated buffer, bytes appended
    to the buffer change nothing: the same header and offset, or the same
    error. *)
Theorem decodePrelude_ignores_trailing_bytes (buffer extra : Buffer.t)
        (opts : DecodeOptions.t) :
  decodePrelude buffer opts <> Throw newPreludeTruncatedError ->
  decodePrelude (buffer ++ extra) opts = decodePrelude buffer opts.
Proof.
  intros H.
  destruct (assertMagicList (DecodeOptions.magic opts)) as [magics|e] eqn:Em.
  - rewrite (decodePrelude_steps buffer _ _ Em) in H.
    rewrite (decodePrelude_steps buffer _ _ Em),
      (decodePrelude_steps (buffer ++ extra) _ _ Em).
    pose proof (Buffer_length_nonneg extra) as Hx.
    rewrite Buffer_length_app.
    change (MAGIC_LENGTH + LENGTH_BYTES) with 8 in *. change MAGIC_LENGTH with 4 in *.
    destruct (Buffer.length buffer <? 8) eqn:E8; [now destruct H|].
    apply Z.ltb_ge in E8.
    replace (Buffer.length buffer + Buffer.length extra <? 8) with false
      by (symmetry; apply Z.ltb_ge; lia).
    rewrite subarray_app_left by lia.
    destruct (negb (matchesAny magics _)); [reflexivity|].
    rewrite readUInt32BE_app_left by lia.
    destruct (Buffer.readUInt32BE buffer 4) as [n|e] eqn:Er; cbn [bind] in *;
      [|reflexivity].
    destruct (validateJsonLength n _) as [[]|e]; cbn [bind] in *; [|reflexivity].
    destruct (Buffer.length buffer <? 8 + n) eqn:En; [now destruct H|].
    apply Z.ltb_ge in En.
    replace (Buffer.length buffer + Buffer.length extra <? 8 + n) with false
      by (symmetry; apply Z.ltb_ge; lia).
    rewrite subarray_app_left by lia. reflexivity.
  - unfold decodePrelude. rewrite Em. reflexivity.
Qed.

Lemma decodePrelude_ignores_trailing_bytes_witness :
  decodePrelude (helloFrame ++ helloBody) DecodeOptions.default
  = decodePrelude helloFrame DecodeOptions.default.
Proof.
  apply (decodePrelude_ignores_trailing_bytes helloFrame helloBody
           DecodeOptions.default).
  vm_compute. discriminate.
Defined.

(** X3: with a valid marker option, [decodePrelude] reports a truncated
    buffer in exactly two cases: the buffer has fewer than eight bytes, or
    it starts with a marker and an accepted length and ends before the
    declared payload does. *)
Theorem decodePrelude_truncated_exactly (buffer : Buffer.t) (opts : DecodeOptions.t)
        (magics : list Buffer.t) :
  assertMagicList (DecodeOptions.magic opts) = Ok magics ->
  (decodePrelude buffer opts = Throw newPreludeTruncatedError
   <-> Buffer.length buffer < 8
       \/ (matchesAny magics (Buffer.subarray buffer 0 4) = true
           /\ exists n,
               Buffer.readUInt32BE buffer 4 = Ok n
               /\ 0 < n <= DecodeOptions.maxJsonBytes opts ?? DEFAULT_MAX_JSON_BYTES
               /\ Buffer.length buffer < 8 + n)).
Proof.
  exact (decodePrelude_truncated_iff buffer opts magics).
Qed.

Lemma decodePrelude_truncated_exactly_witness :
  decodePrelude (Buffer.from_string "PRE1") DecodeOptions.default
  = Throw newPreludeTruncatedError
  <-> Buffer.length (Buffer.from_string "PRE1") < 8
      \/ (matchesAny [Buffer.from_string "PRE1"]
            (Buffer.subarray (Buffer.from_string "PRE1") 0 4) = true
          /\ exists n,
              Buffer.readUInt32BE (Buffer.from_string "PRE1") 4 = Ok n
              /\ 0 < n <= DecodeOptions.maxJsonBytes DecodeOptions.default
                            ?? DEFAULT_MAX_JSON_BYTES
              /\ Buffer.length (Buffer.from_string "PRE1") < 8 + n).
Proof.
  apply (decodePrelude_truncated_exactly (Buffer.from_string "PRE1")
           DecodeOptions.default [Buffer.from_string "PRE1"]).
  reflexivity.
Defined.

(** X4: a buffer that starts with a marker and declares a payload longer
    than [maxJsonBytes] is rejected with [PreludeJsonTooLargeError],
    whatever follows the length and however short the buffer is after
    it. *)
Theorem decodePrelude_rejects_oversized_length (buffer : Buffer.t)
        (opts : DecodeOptions.t) (magics : list Buffer.t) (n : Z) :
  assertMagicList (DecodeOptions.magic opts) = Ok magics ->
  matchesAny magics (Buffer.subarray buffer 0 4) = true ->
  Buffer.readUInt32BE buffer 4 = Ok n ->
  DecodeOptions.maxJsonBytes opts ?? DEFAULT_MAX_JSON_BYTES < n ->
  decodePrelude buffer opts = Throw newPreludeJsonTooLargeError.
Proof.
  intros Em Hm Hr Hn. rewrite (decodePrelude_steps _ _ _ Em).
  pose proof (readUInt32BE_Ok_length buffer 4 n ltac:(lia) Hr) as H8.
  pose proof (readUInt32BE_range _ _ _ Hr) as Hrange.
  change (MAGIC_LENGTH + LENGTH_BYTES) with 8 in *. change MAGIC_LENGTH with 4 in *.
  replace (Buffer.length buffer <? 8) with false by (symmetry; apply Z.ltb_ge; lia).
  rewrite Hm, Hr. cbn [negb bind]. unfold validateJsonLength.
  replace (n <? 0) with false by (symmetry; apply Z.ltb_ge; lia).
  replace (n >? _) with true by (symmetry; apply Z.gtb_lt; lia).
  reflexivity.
Qed.

Lemma decodePrelude_rejects_oversized_length_witness :
  decodePrelude (Buffer.from_string "PRE1" ++ [x00; x00; x40; x01])
                DecodeOptions.default
  = Throw newPreludeJsonTooLargeError.
Proof.
  apply (decodePrelude_rejects_oversized_length
           (Buffer.from_string "PRE1" ++ [x00; x00; x40; x01])
           DecodeOptions.default [Buffer.from_string "PRE1"] 16385).
  - reflexivity.
  - reflexivity.
  - reflexivity.
  - reflexivity.
Defined.

(** X5: every frame [encodePrelude] returns is the marker, the length of
    the payload as four big-endian bytes, and the UTF-8 bytes of the text
    [JSON.stringify] gives for the header with the version; the payload is
    not empty and not longer than [maxJsonBytes], so the frame is at most
    [8 + maxJsonBytes] bytes long. *)
Theorem encodePrelude_frame_layout (h : JsValue) (opts : EncodeOptions.t)
        (frame : Buffer.t) :
  encodePrelude h opts = Ok frame ->
  exists magic text,
    assertMagicList (option_map One (EncodeOptions.magic opts)) = Ok [magic]
    /\ stringifyPayload (withVersion (EncodeOptions.version opts ?? DEFAULT_VERSION) h)
       = Ok text
    /\ frame = magic ++ Buffer.uint32BE (Buffer.byteLength text)
                     ++ Buffer.from_string text
    /\ 0 < Buffer.byteLength text
         <= EncodeOptions.maxJsonBytes opts ?? DEFAULT_MAX_JSON_BYTES
    /\ Buffer.length frame = 8 + Buffer.byteLength text.
Proof.
  exact (encodePrelude_Ok_inv h opts frame).
Qed.

Lemma encodePrelude_frame_layout_witness :
  exists magic text,
    assertMagicList (option_map One (EncodeOptions.magic EncodeOptions.default))
    = Ok [magic]
    /\ stringifyPayload
         (withVersion (EncodeOptions.version EncodeOptions.default ?? DEFAULT_VERSION)
                      textPlain)
       = Ok text
    /\ helloFrame = magic ++ Buffer.uint32BE (Buffer.byteLength text)
                          ++ Buffer.from_string text
    /\ 0 < Buffer.byteLength text
         <= EncodeOptions.maxJsonBytes EncodeOptions.default ?? DEFAULT_MAX_JSON_BYTES
    /\ Buffer.length helloFrame = 8 + Buffer.byteLength text.
Proof.
  apply (encodePrelude_frame_layout textPlain EncodeOptions.default helloFrame).
  reflexivity.
Defined.

(** X6: a frame encoded from a valid header under any encoder options
    (marker, limit and version), followed by any bytes, is decoded under
    any decoder options as follows: a marker that is none of the decoder's
    gives [PreludeMagicMismatchError]; else a payload longer than the
    decoder's [maxJsonBytes] gives [PreludeJsonTooLargeError]; else the
    header comes back with [v] set to the encoder's version, or to [null]
    when that version is [NaN] or infinite, which [JSON.stringify] writes
    as [null]; the offset is the length of the frame.  (A finite version
    is given by its literal, a number literal of the JSON grammar.) *)
Theorem decode_of_encoded_with_other_options (H : JsValue) (B frame : Buffer.t)
        (eopts : EncodeOptions.t) (dopts : DecodeOptions.t)
        (magics : list Buffer.t) :
  validHeader H = true ->
  wellFormedNumber (EncodeOptions.version eopts ?? DEFAULT_VERSION) = true ->
  encodePrelude H eopts = Ok frame ->
  assertMagicList (DecodeOptions.magic dopts) = Ok magics ->
  decodePrelude (frame ++ B) dopts
  = if negb (matchesAny magics (Buffer.subarray frame 0 4)) then
      Throw (newPreludeMagicMismatchError None)
    else if Buffer.length frame - 8
            >? DecodeOptions.maxJsonBytes dopts ?? DEFAULT_MAX_JSON_BYTES then
      Throw newPreludeJsonTooLargeError
    else Ok (mkDecoded
               (decodedHeader (EncodeOptions.version eopts ?? DEFAULT_VERSION) H)
               (Buffer.length frame)).
Proof.
  exact (decodePrelude_written H B frame eopts dopts magics).
Qed.

Lemma decode_of_encoded_with_other_options_witness :
  (decodePrelude (helloFrame ++ helloBody)
                 (DecodeOptions.make (Some (Many [MagicString "TEST"; MagicString "PRE1"]))
                                     (Some 34))
   = if negb (matchesAny [Buffer.from_string "TEST"; Buffer.from_string "PRE1"]
                         (Buffer.subarray helloFrame 0 4)) then
       Throw (newPreludeMagicMismatchError None)
     else if Buffer.length helloFrame - 8
             >? DecodeOptions.maxJsonBytes
                  (DecodeOptions.make
                     (Some (Many [MagicString "TEST"; MagicString "PRE1"])) (Some 34))
                ?? DEFAULT_MAX_JSON_BYTES then
       Throw newPreludeJsonTooLargeError
     else Ok (mkDecoded
                (decodedHeader
                   (EncodeOptions.version EncodeOptions.default ?? DEFAULT_VERSION)
                   textPlain)
                (Buffer.length helloFrame)))
  /\ decodePrelude (nullVersionFrame ++ helloBody) DecodeOptions.default
     = if negb (matchesAny [Buffer.from_string "PRE1"]
                           (Buffer.subarray nullVersionFrame 0 4)) then
         Throw (newPreludeMagicMismatchError None)
       else if Buffer.length nullVersionFrame - 8
               >? DecodeOptions.maxJsonBytes DecodeOptions.default
                  ?? DEFAULT_MAX_JSON_BYTES then
         Throw newPreludeJsonTooLargeError
       else Ok (mkDecoded
                  (decodedHeader
                     (EncodeOptions.version (EncodeOptions.make None (Some NaN) None)
                      ?? DEFAULT_VERSION)
                     textPlain)
                  (Buffer.length nullVersionFrame)).
Proof.
  split.
  - apply (decode_of_encoded_with_other_options textPlain helloBody helloFrame
             EncodeOptions.default
             (DecodeOptions.make (Some (Many [MagicString "TEST"; MagicString "PRE1"]))
                                 (Some 34))
             [Buffer.from_string "TEST"; Buffer.from_string "PRE1"]).
    + reflexivity.
    + reflexivity.
    + reflexivity.
    + reflexivity.
  - apply (decode_of_encoded_with_other_options textPlain helloBody nullVersionFrame
             (EncodeOptions.make None (Some NaN) None) DecodeOptions.default
             [Buffer.from_string "PRE1"]).
    + reflexivity.
    + reflexivity.
    + reflexivity.
    + reflexivity.
Defined.

(** X7: a well-formed frame whose payload is the JSON text of a value
    that is not a plain object (null, a boolean, a number, a string, an
    array) is rejected with [PreludeInvalidTypeError]. *)
Theorem decodePrelude_rejects_non_object_payload (magic body : Buffer.t)
        (x : JsValue) (opts : DecodeOptions.t) (magics : list Buffer.t) :
  assertMagicList (DecodeOptions.magic opts) = Ok magics ->
  In magic magics ->
  representable x = true ->
  isPlainObject x = false ->
  Buffer.length (Buffer.from_string (string_of_list_ascii (JSON.render x)))
  <= Z.min (DecodeOptions.maxJsonBytes opts ?? DEFAULT_MAX_JSON_BYTES) 4294967295 ->
  decodePrelude
    (magic
       ++ Buffer.uint32BE
            (Buffer.length (Buffer.from_string (string_of_list_ascii (JSON.render x))))
       ++ Buffer.from_string (string_of_list_ascii (JSON.render x)) ++ body) opts
  = Throw newPreludeInvalidTypeError.
Proof.
  intros Em Hin Hr Hp Hl.
  assert (H0 : 0 < Buffer.length
                     (Buffer.from_string (string_of_list_ascii (JSON.render x)))).
  { destruct (render_head x Hr) as (c & r & E & _). rewrite E.
    unfold Buffer.length, Buffer.from_string. cbn [string_of_list_ascii].
    unfold list_byte_of_string. cbn [list_ascii_of_string map List.length]. lia. }
  rewrite (decodePrelude_frame _ _ _ _ _ Em Hin) by lia.
  rewrite parsePayload_from_string, JSON_parse_render by exact Hr.
  cbn [bind]. rewrite Hp. reflexivity.
Qed.

Lemma decodePrelude_rejects_non_object_payload_witness :
  decodePrelude
    (Buffer.from_string "PRE1"
       ++ Buffer.uint32BE
            (Buffer.length
               (Buffer.from_string
                  (string_of_list_ascii
                     (JSON.render (JArray [JNumber (Finite "1"); JNull])))))
       ++ Buffer.from_string
            (string_of_list_ascii (JSON.render (JArray [JNumber (Finite "1"); JNull])))
       ++ helloBody) DecodeOptions.default
  = Throw newPreludeInvalidTypeError.
Proof.
  apply (decodePrelude_rejects_non_object_payload (Buffer.from_string "PRE1") helloBody
           (JArray [JNumber (Finite "1"); JNull]) DecodeOptions.default
           [Buffer.from_string "PRE1"]).
  - reflexivity.
  - left. reflexivity.
  - reflexivity.
  - reflexivity.
  - vm_compute. discriminate.
Defined.

(** X8: [validateHeaders] (exported as [validatePrelude]) returns for
    exactly the plain objects that do not declare the key [v] and hold, at
    any depth, only strings, numbers, booleans, null, arrays and plain
    objects; for every other argument it throws. *)
Theorem validateHeaders_accepts_exactly (h : JsValue) :
  validateHeaders h = Ok tt <-> acceptedHeader h = true.
Proof.
  unfold validateHeaders, validatePrelude, acceptedHeader.
  destruct h; cbn [isPlainObject ownProps andb]; try (split; discriminate).
  destruct (Obj.hasOwn "v" props); cbn [negb andb]; [split; discriminate|].
  cbn [unserializable].
  destruct (existsb (fun kv => unserializable (snd kv)) props) eqn:E; cbn [negb].
  - destruct (validatePrelude_entries_throws props E) as (msg & ->).
    split; discriminate.
  - rewrite (validatePrelude_entries_ok props E). split; reflexivity.
Qed.

(** X9: [assertMagicList] returns the bytes of the given markers, in the
    order given, when each of them is exactly four bytes long (a string
    counts by its UTF-8 bytes), and throws the TypeError [magic must be
    exactly 4 bytes] otherwise; without the option the list is the default
    marker alone, and an empty array gives an empty list. *)
Theorem assertMagicList_accepts_exactly (magic : option MultipleMagic) :
  assertMagicList magic
  = if forallb (fun m => Buffer.length (magicBytes m) =? MAGIC_LENGTH)
               (magicItems magic)
    then Ok (map magicBytes (magicItems magic))
    else Throw (newTypeError "magic must be exactly 4 bytes").
Proof.
  unfold assertMagicList. fold (magicItems magic).
  induction (magicItems magic) as [|m rest IH]; [reflexivity|].
  cbn [map_throwing forallb map]. unfold assertMagic at 1. fold (magicBytes m).
  destruct (Buffer.length (magicBytes m) =? MAGIC_LENGTH); cbn [negb andb bind];
    [|reflexivity].
  rewrite IH. destruct (forallb _ rest); reflexivity.
Qed.

(** X10: for a four-byte marker and a payload shorter than 4 GiB,
    [makePreludeBuffer] returns a buffer of eight bytes more than the
    payload, from which the marker, the payload length and the payload read
    back; for a longer payload it throws a RangeError. *)
Theorem makePreludeBuffer_fields_read_back (magic json : Buffer.t) :
  Buffer.length magic = MAGIC_LENGTH ->
  (Buffer.length json <= 4294967295 ->
   exists frame,
     makePreludeBuffer magic json = Ok frame
     /\ Buffer.length frame = 8 + Buffer.length json
     /\ Buffer.subarray frame 0 4 = magic
     /\ Buffer.readUInt32BE frame 4 = Ok (Buffer.length json)
     /\ Buffer.subarray_from frame 8 = json)
  /\ (4294967295 < Buffer.length json ->
      makePreludeBuffer magic json
      = Throw (mkError RangeError "The value is out of range")).
Proof.
  intros Hm. split; [|apply makePreludeBuffer_too_long].
  intros H32. exists (magic ++ Buffer.uint32BE (Buffer.length json) ++ json).
  pose proof (Buffer_length_nonneg json) as Hj.
  split; [now apply makePreludeBuffer_layout|].
  split; [rewrite !Buffer_length_app, uint32BE_length; change MAGIC_LENGTH with 4 in Hm; lia|].
  split; [change 4 with MAGIC_LENGTH; rewrite <- Hm; apply subarray_prefix|].
  split.
  - change 4 with MAGIC_LENGTH. rewrite <- Hm.
    rewrite <- (app_nil_r json) at 2.
    rewrite readUInt32BE_uint32BE by lia. reflexivity.
  - replace 8 with (Buffer.length (magic ++ Buffer.uint32BE (Buffer.length json)))
      by (rewrite Buffer_length_app, Hm, uint32BE_length; reflexivity).
    rewrite app_assoc. apply subarray_from_suffix.
Qed.

Lemma makePreludeBuffer_fields_read_back_witness :
  (Buffer.length helloBody <= 4294967295 ->
   exists frame,
     makePreludeBuffer (Buffer.from_string "PRE1") helloBody = Ok frame
     /\ Buffer.length frame = 8 + Buffer.length helloBody
     /\ Buffer.subarray frame 0 4 = Buffer.from_string "PRE1"
     /\ Buffer.readUInt32BE frame 4 = Ok (Buffer.length helloBody)
     /\ Buffer.subarray_from frame 8 = helloBody)
  /\ (4294967295 < Buffer.length helloBody ->
      makePreludeBuffer (Buffer.from_string "PRE1") helloBody
      = Throw (mkError RangeError "The value is out of range")).
Proof.
  apply (makePreludeBuffer_fields_read_back (Buffer.from_string "PRE1") helloBody).
  reflexivity.
Defined.

(** X28: a header object that declares the key [v] is rejected by
    [encodePrelude], [getPreludeSize] and [frameStream] with a TypeError
    that names the reserved key, whatever its other entries are: the caller
    cannot set the version field through the header. *)
Theorem reserved_version_key_is_rejected (props : list (string * JsValue)) :
  Obj.hasOwn "v" props = true ->
  (forall opts magics,
      assertMagicList (option_map One (EncodeOptions.magic opts)) = Ok magics ->
      encodePrelude (JObject props) opts
      = Throw (newTypeError (dq "prelude must not declare the reserved key 'v'"))
      /\ getPreludeSize (JObject props) opts
         = Throw (newTypeError (dq "prelude must not declare the reserved key 'v'")))
  /\ (forall source opts magics,
         assertMagicList (FrameStreamOptions.magic opts) = Ok magics ->
         frameStream source (JObject props) opts
         = Throw (newTypeError (dq "prelude must not declare the reserved key 'v'"))).
Proof.
  intros Hv. split.
  - intros opts magics Em. unfold encodePrelude, getPreludeSize. rewrite Em.
    cbn [bind]. unfold validateHeaders, validatePrelude. rewrite Hv.
    split; reflexivity.
  - intros source opts magics Em. unfold frameStream. rewrite Em.
    cbn [bind]. unfold validateHeaders, validatePrelude. rewrite Hv. reflexivity.
Qed.

Lemma reserved_version_key_is_rejected_witness :
  (forall opts magics,
      assertMagicList (option_map One (EncodeOptions.magic opts)) = Ok magics ->
      encodePrelude (JObject [("v"%string, JNumber (Finite "9"))]) opts
      = Throw (newTypeError (dq "prelude must not declare the reserved key 'v'"))
      /\ getPreludeSize (JObject [("v"%string, JNumber (Finite "9"))]) opts
         = Throw (newTypeError (dq "prelude must not declare the reserved key 'v'")))
  /\ (forall source opts magics,
         assertMagicList (FrameStreamOptions.magic opts) = Ok magics ->
         frameStream source (JObject [("v"%string, JNumber (Finite "9"))]) opts
         = Throw (newTypeError (dq "prelude must not declare the reserved key 'v'"))).
Proof.
  apply (reserved_version_key_is_rejected [("v"%string, JNumber (Finite "9"))]).
  reflexivity.
Defined.
(* ------------------------------------------------------------------ *)
(** ** Further properties of the pull-mode API                          *)
(* ------------------------------------------------------------------ *)

(** X11: on a live stream with [size] bytes at hand (in the buffer, or, on
    an empty buffer of a stream without 'data' listeners, coming as the
    next chunk), [readExactly] resolves with exactly the first [size] of them and leaves
    the others in the buffer, the stream being otherwise as that delivery
    left it; the bytes the stream still delivers are those after the ones
    read. *)
Theorem readExactly_delivers_exactly (size : Z) (source : Readable.t) :
  Readable.consistent source ->
  Readable.destroyed source = false ->
  0 < size ->
  size <= Buffer.length (atHand source) ->
  readExactly size source
  = (Resolved (firstn (Z.to_nat size) (atHand source)),
     Readable.with_buffered (skipn (Z.to_nat size) (atHand source))
                            (arrived source))
  /\ Readable.content
       (Readable.with_buffered (skipn (Z.to_nat size) (atHand source))
                               (arrived source))
     = skipn (Z.to_nat size) (Readable.content source).
Proof.
  intros Hc _ Hs Hl. split; [now apply readExactly_first|].
  apply content_after_read. unfold Buffer.length in Hl. lia.
Qed.

Lemma readExactly_delivers_exactly_witness :
  readExactly 8 helloSource
  = (Resolved (firstn (Z.to_nat 8) (atHand helloSource)),
     Readable.with_buffered (skipn (Z.to_nat 8) (atHand helloSource))
                            (arrived helloSource))
  /\ Readable.content
       (Readable.with_buffered (skipn (Z.to_nat 8) (atHand helloSource))
                               (arrived helloSource))
     = skipn (Z.to_nat 8) (Readable.content helloSource).
Proof.
  apply (readExactly_delivers_exactly 8 helloSource).
  - intros H. discriminate H.
  - reflexivity.
  - reflexivity.
  - vm_compute. discriminate.
Defined.

(** X12: on a live source that brings the reader no further bytes (it has
    ended, or it has 'data' listeners, which take what it holds and
    receives, or it holds nothing and the producer's next act is no
    delivery) and that holds fewer than [size] bytes, [readExactly] rejects
    with [PreludeTruncatedError] when the source ends and with the error of
    the source when it fails; when the producer goes silent, the call stays
    pending. *)
Theorem readExactly_settles_as_the_source_closes (size : Z) (source : Readable.t) :
  Readable.consistent source ->
  Readable.destroyed source = false ->
  0 < size ->
  closedOff source = true ->
  Readable.readableLength source < size ->
  exists s', readExactly size source = (closingOutcome (closing source), s').
Proof. exact (readExactly_closedOff size source). Qed.

Lemma readExactly_settles_as_the_source_closes_witness :
  exists s',
    readExactly 4 truncatedSource = (closingOutcome (closing truncatedSource), s').
Proof.
  apply (readExactly_settles_as_the_source_closes 4 truncatedSource).
  - intros H. discriminate H.
  - reflexivity.
  - reflexivity.
  - reflexivity.
  - reflexivity.
Defined.

(** X14: whenever [decodePrelude] accepts the bytes at hand of a source,
    [parsePrelude] with the same markers and limit, called on that source
    if it may be read, resolves with the same header and a remainder whose
    bytes are those of the stream from the decoded offset on, whether the
    remainder is the source itself or a relay of it. *)
Theorem parsePrelude_agrees_with_decodePrelude (opts : ParsePreludeOptions.t)
        (source : Readable.t) (d : Decoded) :
  readable opts source ->
  decodePrelude (atHand source) (decodeOptionsOf opts) = Ok d ->
  exists r s',
    parsePrelude opts source
    = (Resolved (ParsePreludeResult.make (headers d) r), s')
    /\ remainderBytes r s'
       = Buffer.subarray_from (Readable.content source) (offset d).
Proof.
  exact (parsePrelude_decoded opts source d).
Qed.

Lemma parsePrelude_agrees_with_decodePrelude_witness :
  exists r s',
    parsePrelude ParsePreludeOptions.default helloSource
    = (Resolved (ParsePreludeResult.make (versioned DEFAULT_VERSION textPlain) r), s')
    /\ remainderBytes r s' = Buffer.subarray_from (Readable.content helloSource) 42.
Proof.
  apply (parsePrelude_agrees_with_decodePrelude ParsePreludeOptions.default
           helloSource (mkDecoded (versioned DEFAULT_VERSION textPlain) 42)).
  - split; [intros H; discriminate H|]. split; [reflexivity|left; reflexivity].
  - reflexivity.
Defined.

(** X15: when [decodePrelude] rejects the bytes at hand of a source for
    another reason than a truncated buffer or a marker mismatch (a length
    of zero or above the limit, a payload that is not JSON or not an
    object), [parsePrelude] with the same markers and limit rejects with
    the same error and leaves the source destroyed with it. *)
Theorem parsePrelude_rejects_what_decodePrelude_rejects
        (opts : ParsePreludeOptions.t) (magics : list Buffer.t)
        (source : Readable.t) (e : Error) :
  readable opts source ->
  assertMagicList (ParsePreludeOptions.magic opts) = Ok magics ->
  decodePrelude (atHand source) (decodeOptionsOf opts) = Throw e ->
  e <> newPreludeTruncatedError ->
  e <> newPreludeMagicMismatchError None ->
  exists s',
    parsePrelude opts source = (Rejected e, s')
    /\ Readable.destroyed s' = true
    /\ Readable.errored s' = Some e.
Proof.
  intros (Hc & Hd & Hg) Em H Ht Hmm.
  rewrite (parsePrelude_readable opts magics source Em Hg).
  rewrite (decodePrelude_steps _ (decodeOptionsOf opts) magics Em) in H.
  cbn [decodeOptionsOf DecodeOptions.magic DecodeOptions.maxJsonBytes] in *.
  change (MAGIC_LENGTH + LENGTH_BYTES) with 8 in *. change MAGIC_LENGTH with 4 in *.
  set (max := ParsePreludeOptions.maxJsonBytes opts ?? DEFAULT_MAX_JSON_BYTES) in *.
  destruct (Buffer.length (atHand source) <? 8) eqn:E8;
    [injection H as <-; now destruct Ht|].
  apply Z.ltb_ge in E8.
  destruct (matchesAny magics _) eqn:Hm; cbn [negb] in H;
    [|injection H as <-; now destruct Hmm].
  pose proof (atHand_pause source) as Hh.
  assert (E : parsePrelude_read magics max opts (Readable.pause source)
              = parsePrelude_payload max opts (firstn 4 (skipn 4 (atHand source)))
                  (Readable.with_buffered (skipn 8 (atHand source))
                     (arrived (Readable.pause source)))).
  { rewrite <- Hh. apply parsePrelude_read_held; rewrite ?Hh; [exact Hc|lia|exact Hm]. }
  set (s2 := Readable.with_buffered (skipn 8 (atHand source))
               (arrived (Readable.pause source))) in *.
  assert (Hb2 : Readable.buffered s2 = skipn 8 (atHand source)) by reflexivity.
  assert (Hd2 : Readable.destroyed s2 = false).
  { destruct (arrived_flags (Readable.pause source)) as (_ & _ & _ & Hx & _).
    unfold s2. cbn [Readable.with_buffered Readable.destroyed]. rewrite Hx. exact Hd. }
  destruct (readUInt32BE_within _ E8) as (n & Hrd).
  change MAGIC_LENGTH with 4 in Hrd. rewrite Hrd in H. cbn [bind] in H.
  pose proof (readUInt32BE_range _ _ _ Hrd) as Hn.
  assert (Hr4 : Buffer.readUInt32BE (firstn 4 (skipn 4 (atHand source))) 0 = Ok n)
    by (rewrite readUInt32BE_at_4; exact Hrd).
  assert (Hfin : forall b,
             Readable.destroyed (Readable.destroy e (Readable.with_buffered b s2)) = true
             /\ Readable.errored (Readable.destroy e (Readable.with_buffered b s2))
                = Some e).
  { intros b. split; [apply destroy_destroyed|].
    apply destroy_errored. left. exact Hd2. }
  destruct (validateJsonLength n max) as [[]|e'] eqn:Ev; cbn [bind] in H.
  - destruct (Buffer.length (atHand source) <? 8 + n) eqn:En;
      [injection H as <-; now destruct Ht|].
    apply Z.ltb_ge in En.
    pose proof (parsePrelude_payload_held max opts _ n s2 Hr4 Ev) as Hcase.
    rewrite Hb2, <- subarray_as_firstn in Hcase by lia.
    assert (Hl2 : n <= Readable.readableLength s2).
    { unfold Readable.readableLength. rewrite Hb2, (skipn_length_Z _ 8) by lia. lia. }
    specialize (Hcase Hl2).
    destruct (parsePayload _) as [parsed|e'] eqn:Ep; cbn [bind] in H.
    + destruct (isPlainObject parsed); cbn [negb] in H; [discriminate|].
      injection H as <-. eexists. split; [|apply Hfin].
      apply tryCatch_rejected. rewrite E. exact Hcase.
    + injection H as ->. eexists. split; [|apply Hfin].
      apply tryCatch_rejected. rewrite E. exact Hcase.
  - injection H as ->. exists (Readable.destroy e s2).
    split; [|split; [apply destroy_destroyed|apply destroy_errored; now left]].
    apply tryCatch_rejected. rewrite E.
    now apply (parsePrelude_payload_rejected_length _ _ _ n).
Qed.

Lemma parsePrelude_rejects_what_decodePrelude_rejects_witness :
  exists s',
    parsePrelude ParsePreludeOptions.default
      (Readable.fromChunks [Buffer.from_string "PRE1"; [x00; x00; x40; x01];
                            Buffer.from_string "{}"])
    = (Rejected newPreludeJsonTooLargeError, s')
    /\ Readable.destroyed s' = true
    /\ Readable.errored s' = Some newPreludeJsonTooLargeError.
Proof.
  apply (parsePrelude_rejects_what_decodePrelude_rejects ParsePreludeOptions.default
           [Buffer.from_string "PRE1"]
           (Readable.fromChunks [Buffer.from_string "PRE1"; [x00; x00; x40; x01];
                                 Buffer.from_string "{}"])
           newPreludeJsonTooLargeError).
  - split; [intros H; discriminate H|]. split; [reflexivity|left; reflexivity].
  - reflexivity.
  - reflexivity.
  - discriminate.
  - discriminate.
Defined.

(** X16: a readable source with four bytes at hand that are none of the
    markers.  Without [requirePrelude], [parsePrelude] resolves with the
    empty header and a remainder whose bytes are the whole stream, the four
    probed bytes included.  With [requirePrelude] it rejects with
    [PreludeMagicMismatchError]; the source is destroyed with that error
    and the four bytes read for the probe are not put back. *)
Theorem missing_marker_falls_back_or_rejects (opts : ParsePreludeOptions.t)
        (magics : list Buffer.t) (source : Readable.t) :
  readable opts source ->
  assertMagicList (ParsePreludeOptions.magic opts) = Ok magics ->
  4 <= Buffer.length (atHand source) ->
  matchesAny magics (firstn 4 (atHand source)) = false ->
  if ParsePreludeOptions.requirePrelude opts then
    exists s',
      parsePrelude opts source
      = (Rejected (newPreludeMagicMismatchError
                     (Some "Missing or invalid prelude. Remove requirePrelude or pass correct magic."%string)),
         s')
      /\ Readable.destroyed s' = true
      /\ Readable.errored s'
         = Some (newPreludeMagicMismatchError
                   (Some "Missing or invalid prelude. Remove requirePrelude or pass correct magic."%string))
      /\ Readable.content s' = skipn 4 (Readable.content source)
  else
    exists r s',
      parsePrelude opts source
      = (Resolved (ParsePreludeResult.make (JObject []) r), s')
      /\ remainderBytes r s' = Readable.content source.
Proof.
  intros (Hc & Hd & Hg) Em Hl Hm.
  rewrite (parsePrelude_readable opts magics source Em Hg).
  pose proof (atHand_pause source) as Hh.
  destruct (ParsePreludeOptions.requirePrelude opts) eqn:Hr.
  - eexists. split; [|split; [|split]].
    + apply tryCatch_rejected.
      rewrite parsePrelude_read_first by (rewrite ?Hh; assumption).
      rewrite Hh, Hm, Hr. reflexivity.
    + apply destroy_destroyed.
    + apply destroy_errored. left.
      destruct (arrived_flags (Readable.pause source)) as (_ & _ & _ & Hx & _).
      cbn [Readable.with_buffered Readable.destroyed]. rewrite Hx. exact Hd.
    + rewrite destroy_content. rewrite <- Hh.
      rewrite (content_after_read (Readable.pause source) 4).
      * now rewrite content_pause.
      * rewrite Hh. unfold Buffer.length in Hl. lia.
  - destruct (parsePrelude_read_fallback magics
                (ParsePreludeOptions.maxJsonBytes opts ?? DEFAULT_MAX_JSON_BYTES)
                opts (Readable.pause source))
      as (r & s' & E & Hb); rewrite ?Hh; try assumption.
    exists r, s'. split; [|now rewrite Hb, content_pause].
    apply tryCatch_resolved. exact E.
Qed.

Lemma missing_marker_falls_back_or_rejects_witness :
  (exists r s',
      parsePrelude ParsePreludeOptions.default noPreludeWritten
      = (Resolved (ParsePreludeResult.make (JObject []) r), s')
      /\ remainderBytes r s' = Readable.content noPreludeWritten)
  /\ (exists s',
         parsePrelude (ParsePreludeOptions.make None None true None false)
                      noPreludeWritten
         = (Rejected (newPreludeMagicMismatchError
                        (Some "Missing or invalid prelude. Remove requirePrelude or pass correct magic."%string)),
            s')
         /\ Readable.destroyed s' = true
         /\ Readable.errored s'
            = Some (newPreludeMagicMismatchError
                      (Some "Missing or invalid prelude. Remove requirePrelude or pass correct magic."%string))
         /\ Readable.content s' = skipn 4 (Readable.content noPreludeWritten)).
Proof.
  split.
  - apply (missing_marker_falls_back_or_rejects ParsePreludeOptions.default
             [Buffer.from_string "PRE1"] noPreludeWritten).
    + split; [intros H; discriminate H|]. split; [reflexivity|left; reflexivity].
    + reflexivity.
    + vm_compute. discriminate.
    + reflexivity.
  - apply (missing_marker_falls_back_or_rejects
             (ParsePreludeOptions.make None None true None false)
             [Buffer.from_string "PRE1"] noPreludeWritten).
    + split; [intros H; discriminate H|]. split; [reflexivity|left; reflexivity].
    + reflexivity.
    + vm_compute. discriminate.
    + reflexivity.
Defined.

(** X17: a readable source that brings no further bytes and holds an
    incomplete prelude (fewer than four bytes, or a marker and less than
    the length and the declared payload) makes [parsePrelude] reject with
    [PreludeTruncatedError] when the source ends and with the error of the
    source when it fails; the source is then destroyed, with that error
    unless it has emitted 'end'.  When the producer goes silent instead,
    the call stays pending: there is no timeout. *)
Theorem parsePrelude_on_an_incomplete_prelude (opts : ParsePreludeOptions.t)
        (magics : list Buffer.t) (source : Readable.t) :
  readable opts source ->
  assertMagicList (ParsePreludeOptions.magic opts) = Ok magics ->
  closedOff source = true ->
  decodePrelude (Readable.buffered source) (decodeOptionsOf opts)
  = Throw newPreludeTruncatedError ->
  (4 <= Readable.readableLength source ->
   matchesAny magics (firstn 4 (Readable.buffered source)) = true) ->
  exists s',
    parsePrelude opts source = (settledBy (closing source), s')
    /\ forall e,
        settledBy (A := ParsePreludeResult.t) (closing source) = Rejected e ->
        Readable.destroyed s' = true
        /\ (Readable.errored s' = Some e
            \/ (e = newPreludeTruncatedError /\ Readable.readableEnded s' = true)).
Proof.
  intros (Hc & Hd & Hg) Em Hcl H Hm.
  rewrite (parsePrelude_readable opts magics source Em Hg).
  apply (decodePrelude_truncated_iff _ (decodeOptionsOf opts) magics Em) in H.
  cbn [decodeOptionsOf DecodeOptions.magic DecodeOptions.maxJsonBytes] in *.
  set (max := ParsePreludeOptions.maxJsonBytes opts ?? DEFAULT_MAX_JSON_BYTES) in *.
  set (b := Readable.buffered source) in *.
  fold b in Hm. unfold Readable.readableLength in Hm. fold b in Hm.
  (* the catch block *)
  assert (Hwrap : forall s',
             parsePrelude_read magics max opts (Readable.pause source)
             = (settledBy (closing source), s') ->
             (forall e, settledBy (A := Buffer.t) (closing source) = Rejected e ->
                        accountsFor (@Rejected Buffer.t e, s')) ->
             exists s'',
               tryCatch (parsePrelude_read magics max opts) destroyAndRethrow
                        (Readable.pause source)
               = (settledBy (A := ParsePreludeResult.t) (closing source), s'')
               /\ forall e,
                   settledBy (A := ParsePreludeResult.t) (closing source) = Rejected e ->
                   Readable.destroyed s'' = true
                   /\ (Readable.errored s'' = Some e
                       \/ (e = newPreludeTruncatedError
                           /\ Readable.readableEnded s'' = true))).
  { intros s' Eb Hlive. unfold tryCatch. rewrite Eb.
    destruct (closing source) as [[e|]|]; cbn [settledBy] in *.
    - eexists. split; [reflexivity|]. intros e' He'. injection He' as <-.
      split; [apply destroy_destroyed|].
      apply (destroy_accounted (A := Buffer.t)). now apply Hlive.
    - eexists. split; [reflexivity|]. intros e' He'. injection He' as <-.
      split; [apply destroy_destroyed|].
      apply (destroy_accounted (A := Buffer.t)). now apply Hlive.
    - eexists. split; [reflexivity|]. discriminate. }
  (* a source that holds bytes and brings no more stays so after a read *)
  assert (Hkeep : forall k, 4 <= Buffer.length b ->
             let t := Readable.with_buffered (skipn k b) (Readable.pause source) in
             Readable.consistent t /\ Readable.destroyed t = false
             /\ closedOff t = true /\ closing t = closing source).
  { intros k H4 t.
    assert (Hne : b <> []).
    { intros Eb. rewrite Eb in H4. change (Buffer.length []) with 0 in H4. lia. }
    assert (Hre : Readable.readableEnded source = false).
    { destruct (Readable.readableEnded source) eqn:Er; [|reflexivity].
      destruct (Hc Er) as [_ Hb0]. now destruct Hne. }
    split; [intros Er; unfold t in Er; cbn in Er; congruence|].
    split; [exact Hd|]. split; [|reflexivity].
    unfold closedOff in Hcl |- *. unfold t.
    cbn [Readable.with_buffered Readable.pause Readable.with_flowing Readable.ended
         Readable.dataListeners Readable.buffered Readable.upcoming].
    fold b in Hcl. destruct (Readable.ended source); [reflexivity|].
    destruct (0 <? Readable.dataListeners source)%nat; [reflexivity|].
    cbn [orb] in Hcl |- *. destruct b; [now destruct Hne|discriminate Hcl]. }
  assert (H4case : Buffer.length b < 4 ->
             exists s',
               parsePrelude_read magics max opts (Readable.pause source)
               = (settledBy (closing source), s')
               /\ (forall e, settledBy (A := Buffer.t) (closing source) = Rejected e ->
                             accountsFor (@Rejected Buffer.t e, s'))).
  { intros H4.
    destruct (readExactly_closedOff_settled MAGIC_LENGTH (Readable.pause source))
      as (s' & E & Ha); try assumption; try reflexivity.
    exists s'. split; [|exact Ha]. rewrite parsePrelude_read_unfold.
    unfold bindA. rewrite E. rewrite closing_pause.
    now destruct (closing source) as [[e|]|]. }
  destruct (Z.lt_ge_cases (Buffer.length b) 4) as [H4|H4].
  { destruct (H4case H4) as (s' & E & Ha). now apply (Hwrap s'). }
  assert (Hh : atHand (Readable.pause source) = b).
  { rewrite atHand_pause. apply atHand_buffered. fold b. intros Eb.
    rewrite Eb in H4. change (Buffer.length []) with 0 in H4. lia. }
  assert (Har : arrived (Readable.pause source) = Readable.pause source).
  { apply arrived_buffered. cbn [Readable.pause Readable.with_flowing Readable.buffered].
    fold b. intros Eb. rewrite Eb in H4. change (Buffer.length []) with 0 in H4. lia. }
  destruct H as [H8|(_ & n & Hrd & Hn & Hshort)].
  - (* the stream closes inside the length *)
    destruct (Hkeep 4%nat H4) as (Hc1 & Hd1 & Hcl1 & Hk1).
    destruct (readExactly_closedOff_settled LENGTH_BYTES
                (Readable.with_buffered (skipn 4 b) (Readable.pause source)))
      as (s' & E & Ha); try assumption; try reflexivity.
    { unfold Readable.readableLength. cbn [Readable.with_buffered Readable.buffered].
      change LENGTH_BYTES with 4. rewrite (skipn_length_Z _ 4) by lia. lia. }
    rewrite Hk1 in E, Ha. apply (Hwrap s'); [|exact Ha].
    rewrite parsePrelude_read_first by (rewrite ?Hh; assumption || lia).
    rewrite Hh, Har, (Hm H4). cbn [negb].
    unfold bindA. rewrite E. now destruct (closing source) as [[e|]|].
  - (* the stream closes inside the payload *)
    pose proof (readUInt32BE_Ok_length _ 4 n ltac:(lia) Hrd) as H8.
    destruct (Hkeep 8%nat H4) as (Hc2 & Hd2 & Hcl2 & Hk2).
    destruct (parsePrelude_payload_closes_early max opts (firstn 4 (skipn 4 b)) n
                (Readable.with_buffered (skipn 8 b) (Readable.pause source)))
      as (s' & E & Ha); try assumption.
    + rewrite readUInt32BE_at_4. exact Hrd.
    + now apply validateJsonLength_ok.
    + unfold Readable.readableLength. cbn [Readable.with_buffered Readable.buffered].
      rewrite (skipn_length_Z _ 8) by lia. lia.
    + rewrite Hk2 in E, Ha. apply (Hwrap s'); [|exact Ha].
      rewrite <- E.
      pose proof (parsePrelude_read_held magics max opts (Readable.pause source))
        as Hheld.
      rewrite Hh, Har in Hheld. apply Hheld; [exact Hc|lia|apply Hm; lia].
Qed.

Lemma parsePrelude_on_an_incomplete_prelude_witness :
  exists s',
    parsePrelude ParsePreludeOptions.default truncatedSource
    = (settledBy (closing truncatedSource), s')
    /\ forall e,
        settledBy (A := ParsePreludeResult.t) (closing truncatedSource) = Rejected e ->
        Readable.destroyed s' = true
        /\ (Readable.errored s' = Some e
            \/ (e = newPreludeTruncatedError /\ Readable.readableEnded s' = true)).
Proof.
  apply (parsePrelude_on_an_incomplete_prelude ParsePreludeOptions.default
           [Buffer.from_string "PRE1"] truncatedSource).
  - split; [intros H; discriminate H|]. split; [reflexivity|left; reflexivity].
  - reflexivity.
  - reflexivity.
  - reflexivity.
  - intros H. vm_compute in H. now destruct H.
Defined.

(** X18: [frameStream] accepts and rejects exactly as [encodePrelude] does
    with the first of its markers, with the same errors; the stream it
    returns is new, live and not flowing, and delivers the frame
    [encodePrelude] returns followed by the bytes of the source, closing as
    the source closes. *)
Theorem frameStream_prepends_the_frame (source : Readable.t) (h : JsValue)
        (opts : FrameStreamOptions.t) (m : Buffer.t) (rest : list Buffer.t) :
  assertMagicList (FrameStreamOptions.magic opts) = Ok (m :: rest) ->
  match encodePrelude h (EncodeOptions.make (Some (MagicBuffer m))
                                            (FrameStreamOptions.version opts)
                                            (FrameStreamOptions.maxJsonBytes opts)) with
  | Ok frame =>
      exists framed,
        frameStream source h opts = Ok framed
        /\ Readable.content framed = frame ++ Readable.content source
        /\ closing framed = closing source
        /\ Readable.destroyed framed = false
        /\ activelyFlowing framed = false
  | Throw e => frameStream source h opts = Throw e
  end.
Proof.
  intros Em. rewrite (frameStream_encodePrelude source h opts m rest Em).
  destruct (encodePrelude h _) as [frame|e]; cbn [map_result]; [|reflexivity].
  eexists. split; [reflexivity|]. split; [apply content_framed|].
  repeat split.
Qed.

Lemma frameStream_prepends_the_frame_witness :
  match encodePrelude textPlain
          (EncodeOptions.make (Some (MagicBuffer (Buffer.from_string "PRE1")))
             (FrameStreamOptions.version FrameStreamOptions.default)
             (FrameStreamOptions.maxJsonBytes FrameStreamOptions.default)) with
  | Ok frame =>
      exists framed,
        frameStream noPreludeSource textPlain FrameStreamOptions.default = Ok framed
        /\ Readable.content framed = frame ++ Readable.content noPreludeSource
        /\ closing framed = closing noPreludeSource
        /\ Readable.destroyed framed = false
        /\ activelyFlowing framed = false
  | Throw e =>
      frameStream noPreludeSource textPlain FrameStreamOptions.default = Throw e
  end.
Proof.
  apply (frameStream_prepends_the_frame noPreludeSource textPlain
           FrameStreamOptions.default (Buffer.from_string "PRE1") []).
  reflexivity.
Defined.

(** X19: the stream round trip: a stream framed by [frameStream] with a
    valid header, under any version, and parsed by [parsePrelude] with the
    same markers and limit gives back the header, with [v] set to the
    version (to [null] for a version that is [NaN] or infinite, as
    [JSON.stringify] writes it), and a remainder whose bytes are exactly
    those of the source. *)
Theorem parsePrelude_of_frameStream (source framed : Readable.t) (H : JsValue)
        (fopts : FrameStreamOptions.t) (popts : ParsePreludeOptions.t) :
  validHeader H = true ->
  wellFormedNumber (FrameStreamOptions.version fopts ?? DEFAULT_VERSION) = true ->
  frameStream source H fopts = Ok framed ->
  ParsePreludeOptions.magic popts = FrameStreamOptions.magic fopts ->
  ParsePreludeOptions.maxJsonBytes popts = FrameStreamOptions.maxJsonBytes fopts ->
  exists r s',
    parsePrelude popts framed
    = (Resolved (ParsePreludeResult.make
                   (decodedHeader (FrameStreamOptions.version fopts ?? DEFAULT_VERSION)
                                  H)
                   r), s')
    /\ remainderBytes r s' = Readable.content source.
Proof.
  intros HV Hv Ef Hmagic Hmax.
  destruct (frameStream_Ok_magic _ _ _ _ Ef) as (m & rest & Em).
  rewrite (frameStream_encodePrelude source H fopts m rest Em) in Ef.
  set (eopts := EncodeOptions.make (Some (MagicBuffer m))
                                   (FrameStreamOptions.version fopts)
                                   (FrameStreamOptions.maxJsonBytes fopts)) in *.
  destruct (encodePrelude H eopts) as [frame|e] eqn:Ee; cbn [map_result] in Ef;
    [|discriminate].
  injection Ef as <-.
  destruct (encodePrelude_Ok_inv H eopts frame Ee)
    as (magic & text & Em1 & _ & Hframe & Hlen & Hl8).
  assert (Hm4 : Buffer.length m = MAGIC_LENGTH).
  { pose proof (assertMagicList_lengths _ _ Em) as HF. now inversion HF. }
  assert (magic = m).
  { unfold eopts in Em1. cbn [EncodeOptions.magic option_map] in Em1.
    unfold assertMagicList in Em1. cbn [map_throwing] in Em1.
    unfold assertMagic in Em1. rewrite Hm4, Z.eqb_refl in Em1.
    cbn [negb bind] in Em1. now injection Em1 as <-. }
  subst magic.
  set (framed := Readable.make (frame ++ Readable.buffered source)
                   (Readable.ended source) false None O false None true
                   (Readable.upcoming source)).
  assert (Hne : Readable.buffered framed <> []).
  { unfold framed. cbn [Readable.buffered]. intros E0.
    apply (f_equal Buffer.length) in E0. rewrite Buffer_length_app in E0.
    change (Buffer.length []) with 0 in E0.
    pose proof (Buffer_length_nonneg (Readable.buffered source)). lia. }
  assert (Hd : decodePrelude (atHand framed) (decodeOptionsOf popts)
               = Ok (mkDecoded
                       (decodedHeader
                          (FrameStreamOptions.version fopts ?? DEFAULT_VERSION) H)
                       (Buffer.length frame))).
  { rewrite (atHand_buffered framed Hne). unfold framed. cbn [Readable.buffered].
    rewrite (decodePrelude_written H _ frame eopts (decodeOptionsOf popts) (m :: rest)
               HV Hv Ee)
      by (cbn [decodeOptionsOf DecodeOptions.magic]; rewrite Hmagic; exact Em).
    replace (Buffer.subarray frame 0 4) with m
      by (rewrite Hframe; symmetry; change 4 with MAGIC_LENGTH; rewrite <- Hm4;
          apply subarray_prefix).
    rewrite matchesAny_head. cbn [negb].
    cbn [decodeOptionsOf DecodeOptions.maxJsonBytes]. rewrite Hmax.
    replace (Buffer.length frame - 8 >? _) with false; [reflexivity|].
    symmetry. rewrite Z.gtb_ltb. apply Z.ltb_ge.
    unfold eopts in Hlen. cbn [EncodeOptions.maxJsonBytes] in Hlen. lia. }
  destruct (parsePrelude_decoded popts _ _ (readable_framed popts frame source) Hd)
    as (r & s' & E & Hb).
  exists r, s'. split; [exact E|].
  rewrite Hb. cbn [offset]. fold framed. unfold framed.
  rewrite content_framed. apply subarray_from_suffix.
Qed.

Lemma parsePrelude_of_frameStream_witness :
  exists r s',
    parsePrelude ParsePreludeOptions.default
      (Readable.make (nullVersionFrame ++ Readable.buffered noPreludeSource)
                     (Readable.ended noPreludeSource) false None O false None true
                     (Readable.upcoming noPreludeSource))
    = (Resolved (ParsePreludeResult.make
                   (decodedHeader
                      (FrameStreamOptions.version
                         (FrameStreamOptions.make None (Some NaN) None)
                       ?? DEFAULT_VERSION) textPlain)
                   r), s')
    /\ remainderBytes r s' = Readable.content noPreludeSource.
Proof.
  apply (parsePrelude_of_frameStream noPreludeSource _ textPlain
           (FrameStreamOptions.make None (Some NaN) None)
           ParsePreludeOptions.default).
  - reflexivity.
  - reflexivity.
  - reflexivity.
  - reflexivity.
  - reflexivity.
Defined.

(** X20: probing and then parsing loses the header: on a live source, not
    actively flowing, that has at hand a frame made by [encodePrelude]
    under the default options, [isFramedStream] resolves with [true] and
    takes the marker; [parsePrelude] called next on the same source finds
    the length bytes where it looks for a marker, so it resolves with the
    empty header and a remainder that starts with the length bytes and the
    JSON payload. *)
Theorem parsing_after_a_probe_finds_no_header (H : JsValue) (frame B : Buffer.t)
        (source : Readable.t) :
  encodePrelude H EncodeOptions.default = Ok frame ->
  atHand source = frame ++ B ->
  Readable.consistent source ->
  Readable.destroyed source = false ->
  activelyFlowing source = false ->
  exists s1 r s2,
    isFramedStream None source = (Resolved true, s1)
    /\ parsePrelude ParsePreludeOptions.default s1
       = (Resolved (ParsePreludeResult.make (JObject []) r), s2)
    /\ remainderBytes r s2 = Buffer.subarray_from (Readable.content source) 4.
Proof.
  intros Ee Hhand Hc Hd Hf.
  destruct (encodePrelude_Ok_inv H _ frame Ee)
    as (magic & text & Em & _ & Hframe & Hlen & Hl8).
  cbn in Em. injection Em as <-.
  cbn [EncodeOptions.maxJsonBytes EncodeOptions.default nullish] in Hlen.
  change DEFAULT_MAX_JSON_BYTES with 16384 in Hlen.
  set (len := Buffer.byteLength text) in *.
  set (json := Buffer.from_string text) in *.
  pose proof (atHand_pause source) as Hh.
  assert (H8 : 8 <= Buffer.length (atHand source)).
  { rewrite Hhand, Buffer_length_app. pose proof (Buffer_length_nonneg B). lia. }
  assert (Hhead : firstn 4 (atHand source) = Buffer.from_string "PRE1").
  { rewrite Hhand, Hframe. reflexivity. }
  assert (Hrest : skipn 4 (atHand source) = Buffer.uint32BE len ++ json ++ B).
  { rewrite Hhand, Hframe. cbn [app skipn Buffer.from_string].
    now rewrite <- !app_assoc. }
  set (s1 := Readable.with_buffered (skipn 4 (atHand source))
               (arrived (Readable.pause source))).
  assert (E1 : readExactly MAGIC_LENGTH (Readable.pause source)
               = (Resolved (firstn 4 (atHand source)), s1)).
  { unfold s1. rewrite <- Hh. apply readExactly_first; rewrite ?Hh;
      [exact Hc|reflexivity|change MAGIC_LENGTH with 4; lia]. }
  assert (Hne : Readable.buffered s1 <> []).
  { unfold s1. cbn [Readable.with_buffered Readable.buffered]. intros E0.
    apply (f_equal Buffer.length) in E0. rewrite (skipn_length_Z _ 4) in E0 by lia.
    change (Buffer.length []) with 0 in E0. lia. }
  destruct (arrived_flags (Readable.pause source)) as (He1 & Hre1 & _ & Hd1 & _).
  assert (Hc1 : Readable.consistent (Readable.pause s1)).
  { intros Er. unfold s1 in Er.
    cbn [Readable.pause Readable.with_flowing Readable.with_buffered
         Readable.readableEnded] in Er.
    rewrite Hre1 in Er. cbn [Readable.pause Readable.with_flowing
                             Readable.readableEnded] in Er.
    rewrite (atHand_nonempty_live source Hc) in Er; [discriminate|lia]. }
  assert (Hh1 : atHand (Readable.pause s1) = skipn 4 (atHand source)).
  { rewrite atHand_pause. now rewrite (atHand_buffered s1 Hne). }
  exists s1.
  destruct (parsePrelude_read_fallback [Buffer.from_string "PRE1"]
              (ParsePreludeOptions.maxJsonBytes ParsePreludeOptions.default
               ?? DEFAULT_MAX_JSON_BYTES)
              ParsePreludeOptions.default (Readable.pause s1))
    as (r & s2 & E2 & Hb).
  - exact Hc1.
  - unfold s1. cbn [Readable.pause Readable.with_flowing Readable.with_buffered
                    Readable.destroyed]. rewrite Hd1. exact Hd.
  - reflexivity.
  - rewrite Hh1, (skipn_length_Z _ 4) by lia. lia.
  - rewrite Hh1, Hrest.
    apply (length_bytes_are_no_default_marker len (json ++ B)). lia.
  - exists r, s2. split; [|split].
    + rewrite (isFramedStream_valid None [Buffer.from_string "PRE1"] source eq_refl).
      rewrite Hf. apply tryCatch_resolved.
      rewrite (bindA_resolved _ _ _ _ _ E1), Hhead. reflexivity.
    + rewrite (parsePrelude_readable ParsePreludeOptions.default
                 [Buffer.from_string "PRE1"] s1 eq_refl).
      * apply tryCatch_resolved. exact E2.
      * left. unfold activelyFlowing, s1.
        cbn [Readable.with_buffered Readable.readableFlowing].
        pose proof (arrived_pause_not_flowing source) as Hnf.
        unfold truthy in Hnf.
        destruct (Readable.readableFlowing (arrived (Readable.pause source)))
          as [[|]|]; [discriminate Hnf|reflexivity|reflexivity].
    + rewrite Hb, content_pause. unfold s1. rewrite <- Hh.
      rewrite (content_after_read (Readable.pause source) 4).
      * now rewrite content_pause.
      * rewrite Hh. unfold Buffer.length in H8. lia.
Qed.

Lemma parsing_after_a_probe_finds_no_header_witness :
  exists s1 r s2,
    isFramedStream None helloSource = (Resolved true, s1)
    /\ parsePrelude ParsePreludeOptions.default s1
       = (Resolved (ParsePreludeResult.make (JObject []) r), s2)
    /\ remainderBytes r s2 = Buffer.subarray_from (Readable.content helloSource) 4.
Proof.
  apply (parsing_after_a_probe_finds_no_header textPlain helloFrame [] helloSource).
  - reflexivity.
  - reflexivity.
  - intros H. discriminate H.
  - reflexivity.
  - reflexivity.
Defined.

(** X21: an invalid marker option (a marker that is not exactly four bytes
    long) makes every entry point fail with the same TypeError before
    anything else is looked at; [parsePrelude] and [isFramedStream] reject
    with it and leave the source as it was, not destroyed. *)
Theorem invalid_marker_is_rejected_first (magic : option MultipleMagic) (e : Error) :
  assertMagicList magic = Throw e ->
  e = newTypeError "magic must be exactly 4 bytes"
  /\ (forall buffer max, decodePrelude buffer (DecodeOptions.make magic max) = Throw e)
  /\ (forall source h version max,
         frameStream source h (FrameStreamOptions.make magic version max) = Throw e)
  /\ (forall source max strict observer pause,
         parsePrelude (ParsePreludeOptions.make magic max strict observer pause) source
         = (Rejected e, source))
  /\ (forall source, isFramedStream magic source = (Rejected e, source))
  /\ (forall chunks max strict observer pause,
         runTransform (ParsePreludeOptions.make magic max strict observer pause) chunks
         = Throw e)
  /\ (forall m h version max,
         magic = option_map One m ->
         encodePrelude h (EncodeOptions.make m version max) = Throw e
         /\ getPreludeSize h (EncodeOptions.make m version max) = Throw e).
Proof.
  intros Em. split; [now apply (assertMagicList_throws magic)|].
  split; [intros; unfold decodePrelude; cbn [DecodeOptions.magic]; now rewrite Em|].
  split; [intros; unfold frameStream; cbn [FrameStreamOptions.magic]; now rewrite Em|].
  split; [intros; apply parsePrelude_invalid_magic; exact Em|].
  split; [intros; unfold isFramedStream; now rewrite Em|].
  split.
  - intros. unfold runTransform, parsePreludeTransform.
    cbn [ParsePreludeOptions.magic]. now rewrite Em.
  - intros m h version max ->. unfold encodePrelude, getPreludeSize.
    cbn [EncodeOptions.magic]. now rewrite Em.
Qed.

Lemma invalid_marker_is_rejected_first_witness :
  newTypeError "magic must be exactly 4 bytes"
  = newTypeError "magic must be exactly 4 bytes"
  /\ (forall buffer max,
         decodePrelude buffer (DecodeOptions.make (Some (One (MagicString "TOOLONG"))) max)
         = Throw (newTypeError "magic must be exactly 4 bytes"))
  /\ (forall source h version max,
         frameStream source h
           (FrameStreamOptions.make (Some (One (MagicString "TOOLONG"))) version max)
         = Throw (newTypeError "magic must be exactly 4 bytes"))
  /\ (forall source max strict observer pause,
         parsePrelude
           (ParsePreludeOptions.make (Some (One (MagicString "TOOLONG"))) max strict
                                     observer pause) source
         = (Rejected (newTypeError "magic must be exactly 4 bytes"), source))
  /\ (forall source,
         isFramedStream (Some (One (MagicString "TOOLONG"))) source
         = (Rejected (newTypeError "magic must be exactly 4 bytes"), source))
  /\ (forall chunks max strict observer pause,
         runTransform
           (ParsePreludeOptions.make (Some (One (MagicString "TOOLONG"))) max strict
                                     observer pause) chunks
         = Throw (newTypeError "magic must be exactly 4 bytes"))
  /\ (forall m h version max,
         Some (One (MagicString "TOOLONG")) = option_map One m ->
         encodePrelude h (EncodeOptions.make m version max)
         = Throw (newTypeError "magic must be exactly 4 bytes")
         /\ getPreludeSize h (EncodeOptions.make m version max)
            = Throw (newTypeError "magic must be exactly 4 bytes")).
Proof.
  apply (invalid_marker_is_rejected_first (Some (One (MagicString "TOOLONG")))).
  reflexivity.
Defined.

(** X29: [getPreludeSize] is the number of bytes [frameStream] adds: the
    stream framed with a header delivers as many bytes as the source plus
    the size [getPreludeSize] returns for that header under the first
    marker, the version and the limit of the framing options. *)
Theorem getPreludeSize_is_the_framing_overhead (source framed : Readable.t)
        (h : JsValue) (opts : FrameStreamOptions.t) (m : Buffer.t)
        (rest : list Buffer.t) :
  assertMagicList (FrameStreamOptions.magic opts) = Ok (m :: rest) ->
  frameStream source h opts = Ok framed ->
  getPreludeSize h (EncodeOptions.make (Some (MagicBuffer m))
                                       (FrameStreamOptions.version opts)
                                       (FrameStreamOptions.maxJsonBytes opts))
  = Ok (Buffer.length (Readable.content framed)
        - Buffer.length (Readable.content source)).
Proof.
  intros Em Ef.
  rewrite (frameStream_encodePrelude source h opts m rest Em) in Ef.
  set (eopts := EncodeOptions.make (Some (MagicBuffer m))
                                   (FrameStreamOptions.version opts)
                                   (FrameStreamOptions.maxJsonBytes opts)) in *.
  destruct (encodePrelude h eopts) as [frame|e] eqn:Ee; cbn [map_result] in Ef;
    [|discriminate].
  injection Ef as <-. rewrite content_framed, Buffer_length_app.
  replace (Buffer.length frame + Buffer.length (Readable.content source)
           - Buffer.length (Readable.content source))
    with (Buffer.length frame) by lia.
  destruct (encodePrelude_Ok_inv h eopts frame Ee)
    as (magic & text & Em1 & Hs & Hframe & Hlen & Hl8).
  pose proof (assertMagicList_lengths _ _ Em1) as HF.
  assert (Hm4 : Buffer.length magic = 4) by (now inversion HF).
  unfold getPreludeSize. rewrite Em1. cbn [bind].
  unfold encodePrelude in Ee. rewrite Em1 in Ee. cbn [bind] in Ee.
  destruct (validateHeaders h) as [[]|e]; cbn [bind] in Ee |- *; [|discriminate].
  rewrite Hs in Ee |- *. cbn [bind] in Ee |- *.
  fold (Buffer.byteLength text) in Ee.
  destruct (validateJsonLength (Buffer.byteLength text) _) as [[]|e];
    cbn [bind] in Ee |- *; [|discriminate].
  cbn [firstMagic bind]. rewrite Hm4, Hl8. change LENGTH_BYTES with 4.
  f_equal; lia.
Qed.

Lemma getPreludeSize_is_the_framing_overhead_witness :
  getPreludeSize textPlain
    (EncodeOptions.make (Some (MagicBuffer (Buffer.from_string "PRE1")))
       (FrameStreamOptions.version FrameStreamOptions.default)
       (FrameStreamOptions.maxJsonBytes FrameStreamOptions.default))
  = Ok (Buffer.length
          (Readable.content
             (Readable.make (helloFrame ++ Readable.buffered noPreludeSource)
                (Readable.ended noPreludeSource) false None O false None true
                (Readable.upcoming noPreludeSource)))
        - Buffer.length (Readable.content noPreludeSource)).
Proof.
  apply (getPreludeSize_is_the_framing_overhead noPreludeSource _ textPlain
           FrameStreamOptions.default (Buffer.from_string "PRE1") []).
  - reflexivity.
  - reflexivity.
Defined.

(** X30: a reader that is never served: on a live source that has not
    ended and has no 'data' listener, with some bytes at hand but fewer
    than [size], the loop of [readExactly] does not return within any
    number of turns (every 'readable' event wakes it with the same bytes in
    the buffer), so [readExactly] never settles; [parsePrelude] and
    [isFramedStream], whose first read asks for four bytes, never settle
    on a source with one to three bytes at hand, whatever the producer
    delivers later. *)
Theorem partial_delivery_is_never_settled (size : Z) (source : Readable.t) :
  Readable.consistent source ->
  starving size source ->
  (forall fuel, readExactly_loop fuel source size [] 0 = None)
  /\ readExactly size source = (Pending, source)
  /\ (size = MAGIC_LENGTH ->
      forall magic magics,
        assertMagicList magic = Ok magics ->
        isFramedStream magic source = (Pending, Readable.pause source)
        /\ forall max strict observer pause,
            parsePrelude (ParsePreludeOptions.make magic max strict observer pause)
                         source
            = (Pending, Readable.pause source)).
Proof.
  intros Hc Hs. split; [now apply readExactly_loop_starving|].
  split; [now apply readExactly_starving|].
  intros -> magic magics Em.
  assert (Hp : starving MAGIC_LENGTH (Readable.pause source)).
  { destruct Hs as (Hd & He & Hre & Hn & Hl). unfold starving.
    rewrite atHand_pause. repeat split; try assumption; lia. }
  assert (E : readExactly MAGIC_LENGTH (Readable.pause source)
              = (Pending, Readable.pause source))
    by (now apply readExactly_starving).
  assert (Hf : activelyFlowing source = false).
  { destruct Hs as (_ & _ & _ & Hn & _). unfold activelyFlowing. rewrite Hn.
    now destruct (Readable.readableFlowing source) as [[|]|]. }
  split.
  - rewrite (isFramedStream_valid magic magics source Em), Hf.
    apply tryCatch_pending. now rewrite (bindA_pending _ _ _ _ E).
  - intros max strict observer pause.
    rewrite (parsePrelude_readable
               (ParsePreludeOptions.make magic max strict observer pause)
               magics source Em) by (left; exact Hf).
    apply tryCatch_pending. rewrite parsePrelude_read_unfold.
    now rewrite (bindA_pending _ _ _ _ E).
Qed.

Lemma partial_delivery_is_never_settled_witness :
  (forall fuel,
      readExactly_loop fuel (Readable.arriving (everyByte helloFrame)) 4 [] 0 = None)
  /\ readExactly 4 (Readable.arriving (everyByte helloFrame))
     = (Pending, Readable.arriving (everyByte helloFrame))
  /\ (4 = MAGIC_LENGTH ->
      forall magic magics,
        assertMagicList magic = Ok magics ->
        isFramedStream magic (Readable.arriving (everyByte helloFrame))
        = (Pending, Readable.pause (Readable.arriving (everyByte helloFrame)))
        /\ forall max strict observer pause,
            parsePrelude (ParsePreludeOptions.make magic max strict observer pause)
                         (Readable.arriving (everyByte helloFrame))
            = (Pending, Readable.pause (Readable.arriving (everyByte helloFrame)))).
Proof.
  apply (partial_delivery_is_never_settled 4
           (Readable.arriving (everyByte helloFrame))).
  - intros H. discriminate H.
  - repeat split; try reflexivity.
Defined.

(** X31: [isFramedStream] with a valid marker option.  A source that is
    actively flowing is answered [false] and left as it is.  On any other
    live source with four bytes at hand it resolves with whether these are one
    of the markers and leaves the source positioned after them, whatever
    the answer: nothing is put back.  On a live source that brings no
    further bytes, holds fewer than four and is closed by its producer, it
    resolves with [false].  It never rejects. *)
Theorem isFramedStream_takes_the_probe (magic : option MultipleMagic)
        (magics : list Buffer.t) (source : Readable.t) :
  assertMagicList magic = Ok magics ->
  Readable.consistent source ->
  (activelyFlowing source = true ->
   isFramedStream magic source = (Resolved false, source))
  /\ (activelyFlowing source = false ->
      Readable.destroyed source = false ->
      4 <= Buffer.length (atHand source) ->
      exists s',
        isFramedStream magic source
        = (Resolved (matchesAny magics (firstn 4 (atHand source))), s')
        /\ Readable.buffered s' = skipn 4 (atHand source)
        /\ Readable.content s' = skipn 4 (Readable.content source))
  /\ (activelyFlowing source = false ->
      Readable.destroyed source = false ->
      closedOff source = true ->
      Readable.readableLength source < 4 ->
      closing source <> None ->
      exists s', isFramedStream magic source = (Resolved false, s'))
  /\ (forall e s', isFramedStream magic source <> (Rejected e, s')).
Proof.
  intros Em Hc. rewrite (isFramedStream_valid magic magics source Em).
  split; [|split; [|split]].
  - intros Ef. now rewrite Ef.
  - intros Ef _ Hl. rewrite Ef.
    pose proof (atHand_pause source) as Hh.
    eexists. split; [|split].
    + apply tryCatch_resolved.
      rewrite (bindA_resolved _ _ _ _ _
                 (readExactly_first MAGIC_LENGTH (Readable.pause source) Hc eq_refl
                    ltac:(rewrite Hh; exact Hl))).
      rewrite Hh. reflexivity.
    + reflexivity.
    + change (Z.to_nat MAGIC_LENGTH) with 4%nat. rewrite <- Hh.
      rewrite (content_after_read (Readable.pause source) 4).
      * now rewrite content_pause.
      * rewrite Hh. unfold Buffer.length in Hl. lia.
  - intros Ef Hd Hcl Hl Hclose. rewrite Ef.
    destruct (readExactly_closedOff MAGIC_LENGTH (Readable.pause source))
      as (s1 & E); try assumption; try reflexivity.
    rewrite closing_pause in E. exists s1. unfold tryCatch.
    destruct (closing source) as [[e|]|]; [| |congruence]; cbn in E;
      rewrite (bindA_rejected _ _ _ _ _ E); reflexivity.
  - intros e s'. destruct (activelyFlowing source); [discriminate|].
    unfold tryCatch, bindA, resolve.
    destruct (readExactly MAGIC_LENGTH (Readable.pause source)) as [[a|e1|] s1];
      discriminate.
Qed.

Lemma isFramedStream_takes_the_probe_witness :
  (activelyFlowing helloSource = true ->
   isFramedStream None helloSource = (Resolved false, helloSource))
  /\ (activelyFlowing helloSource = false ->
      Readable.destroyed helloSource = false ->
      4 <= Buffer.length (atHand helloSource) ->
      exists s',
        isFramedStream None helloSource
        = (Resolved (matchesAny [Buffer.from_string "PRE1"]
                       (firstn 4 (atHand helloSource))), s')
        /\ Readable.buffered s' = skipn 4 (atHand helloSource)
        /\ Readable.content s' = skipn 4 (Readable.content helloSource))
  /\ (activelyFlowing helloSource = false ->
      Readable.destroyed helloSource = false ->
      closedOff helloSource = true ->
      Readable.readableLength helloSource < 4 ->
      closing helloSource <> None ->
      exists s', isFramedStream None helloSource = (Resolved false, s'))
  /\ (forall e s', isFramedStream None helloSource <> (Rejected e, s')).
Proof.
  apply (isFramedStream_takes_the_probe None [Buffer.from_string "PRE1"] helloSource).
  - reflexivity.
  - intros H. discriminate H.
Defined.

(* ------------------------------------------------------------------ *)
(** ** Further properties of the push-mode adapter                      *)
(* ------------------------------------------------------------------ *)

(** X22: what the stream made by [parsePreludeTransform] does depends on
    the bytes written to it and not on how they are cut into chunks: two
    chunk lists with the same concatenation give the same header events,
    the same forwarded bytes and the same final state or error, whether
    the bytes are a valid frame or not. *)
Theorem transform_depends_on_the_bytes_only (opts : ParsePreludeOptions.t)
        (chunks chunks' : list Buffer.t) :
  Buffer.concat chunks = Buffer.concat chunks' ->
  match runTransform opts chunks, runTransform opts chunks' with
  | Ok x, Ok y => sameOutcome x y
  | Throw e, Throw e' => e = e'
  | _, _ => False
  end.
Proof.
  intros Hc. unfold runTransform.
  destruct (parsePreludeTransform opts) as [cfg|e]; cbn [bind]; [|reflexivity].
  eapply sameOutcome_trans; [apply feed_initial_after|].
  rewrite Hc. apply sameOutcome_sym, feed_initial_after.
Qed.

Lemma transform_depends_on_the_bytes_only_witness :
  match runTransform ParsePreludeOptions.default (everyByte (helloFrame ++ helloBody)),
        runTransform ParsePreludeOptions.default [helloFrame; helloBody] with
  | Ok x, Ok y => sameOutcome x y
  | Throw e, Throw e' => e = e'
  | _, _ => False
  end.
Proof.
  apply (transform_depends_on_the_bytes_only ParsePreludeOptions.default
           (everyByte (helloFrame ++ helloBody)) [helloFrame; helloBody]).
  reflexivity.
Defined.

(** X23: bytes that do not start with a marker pass through the stream
    unchanged, whatever the options ([requirePrelude] included, which the
    adapter does not read): as soon as four bytes have come, the empty
    header is emitted, and all the bytes written, the four probed ones
    first, are forwarded. *)
Theorem transform_passes_unframed_bytes_through (opts : ParsePreludeOptions.t)
        (magics : list Buffer.t) (chunks : list Buffer.t) :
  assertMagicList (ParsePreludeOptions.magic opts) = Ok magics ->
  4 <= Buffer.length (Buffer.concat chunks) ->
  matchesAny magics (Buffer.subarray (Buffer.concat chunks) 0 4) = false ->
  exists out st,
    runTransform opts chunks = Ok (out, Ok st)
    /\ Transform.is_body (Transform.stage st) = true
    /\ Transform.emitted out = [JObject []]
    /\ Transform.pushed out = Buffer.concat chunks.
Proof.
  intros Em Hl Hm. rewrite (runTransform_feed opts magics chunks Em).
  set (cfg := Transform.mkConfig magics _).
  pose proof (feed_initial_after cfg chunks) as (Hs & He & Hp).
  destruct (Transform.feed cfg Transform.initial chunks) as [out r].
  cbn [fst snd] in *.
  unfold after_magic in Hs, He, Hp. cbn [Transform.magics cfg] in Hs, He, Hp.
  change MAGIC_LENGTH with 4 in Hs, He, Hp.
  replace (4 <=? Buffer.length (Buffer.concat chunks)) with true in Hs, He, Hp
    by (symmetry; apply Z.leb_le; lia).
  rewrite Hm in Hs, He, Hp. cbn [negb fst snd] in Hs, He, Hp. subst r.
  eexists out, _. split; [reflexivity|]. split; [reflexivity|].
  split.
  - rewrite He. cbn [app].
    rewrite emitted_Emit, emitted_Push, emitted_pushNonEmpty. reflexivity.
  - rewrite Hp. cbn [app].
    rewrite pushed_Emit, pushed_Push, pushed_pushNonEmpty. apply (firstn_skipn 4).
Qed.

Lemma transform_passes_unframed_bytes_through_witness :
  exists out st,
    runTransform (ParsePreludeOptions.make None None true None false)
                 (everyByte noPrelude)
    = Ok (out, Ok st)
    /\ Transform.is_body (Transform.stage st) = true
    /\ Transform.emitted out = [JObject []]
    /\ Transform.pushed out = Buffer.concat (everyByte noPrelude).
Proof.
  apply (transform_passes_unframed_bytes_through
           (ParsePreludeOptions.make None None true None false)
           [Buffer.from_string "PRE1"] (everyByte noPrelude)).
  - reflexivity.
  - vm_compute. discriminate.
  - reflexivity.
Defined.

(** X24: when [decodePrelude] rejects the bytes written to the stream for
    another reason than a truncated buffer or a marker mismatch, the stream
    fails with the same error, however the bytes were cut into chunks, and
    has emitted no header and forwarded no byte. *)
Theorem transform_rejects_what_decodePrelude_rejects (opts : ParsePreludeOptions.t)
        (magics : list Buffer.t) (chunks : list Buffer.t) (e : Error) :
  assertMagicList (ParsePreludeOptions.magic opts) = Ok magics ->
  decodePrelude (Buffer.concat chunks) (decodeOptionsOf opts) = Throw e ->
  e <> newPreludeTruncatedError ->
  e <> newPreludeMagicMismatchError None ->
  exists out,
    runTransform opts chunks = Ok (out, Throw e)
    /\ Transform.emitted out = []
    /\ Transform.pushed out = [].
Proof.
  intros Em H Ht Hmm. rewrite (runTransform_feed opts magics chunks Em).
  set (cfg := Transform.mkConfig magics _).
  pose proof (feed_initial_after cfg chunks) as (Hs & He & Hp).
  assert (Ha : after_magic cfg 0 (Buffer.concat chunks) = ([], Throw e))
    by exact (after_magic_rejected (Buffer.concat chunks) (decodeOptionsOf opts)
                magics e 0 Em H Ht Hmm).
  rewrite Ha in Hs, He, Hp.
  destruct (Transform.feed cfg Transform.initial chunks) as [out r].
  cbn [fst snd] in *. subst r. exists out. auto.
Qed.

Lemma transform_rejects_what_decodePrelude_rejects_witness :
  exists out,
    runTransform ParsePreludeOptions.default
      [Buffer.from_string "PRE1"; [x00; x00; x40; x01]; Buffer.from_string "{}"]
    = Ok (out, Throw newPreludeJsonTooLargeError)
    /\ Transform.emitted out = []
    /\ Transform.pushed out = [].
Proof.
  apply (transform_rejects_what_decodePrelude_rejects ParsePreludeOptions.default
           [Buffer.from_string "PRE1"]
           [Buffer.from_string "PRE1"; [x00; x00; x40; x01]; Buffer.from_string "{}"]
           newPreludeJsonTooLargeError).
  - reflexivity.
  - reflexivity.
  - discriminate.
  - discriminate.
Defined.

(** X25: between two writes the stream holds fewer than four bytes or
    fewer bytes than the payload length it has accepted, which is at most
    [maxJsonBytes]: whatever is written, it never buffers [max 4
    maxJsonBytes] bytes or more. *)
Theorem transform_buffers_less_than_the_limit (opts : ParsePreludeOptions.t)
        (chunks : list Buffer.t) (out : list Transform.Output)
        (st : Transform.State) :
  runTransform opts chunks = Ok (out, Ok st) ->
  Buffer.length (Transform.buffer st)
  < Z.max 4 (ParsePreludeOptions.maxJsonBytes opts ?? DEFAULT_MAX_JSON_BYTES).
Proof.
  unfold runTransform, parsePreludeTransform.
  destruct (assertMagicList _) as [magics|e]; cbn [bind]; [|discriminate].
  set (cfg := Transform.mkConfig magics _).
  intros H. injection H as H.
  pose proof (feed_initial_after cfg chunks) as (Hs & _).
  rewrite H in Hs. cbn [snd] in Hs.
  destruct (after_magic cfg 0 (Buffer.concat chunks)) as [out2 r] eqn:Ea.
  cbn [snd] in Hs. subst r.
  exact (after_magic_bound cfg 0 _ _ _ Ea).
Qed.

Lemma transform_buffers_less_than_the_limit_witness :
  Buffer.length
    (Transform.buffer
       (Transform.mkState Transform.json 34 (Buffer.from_string "{") 34))
  < Z.max 4 (ParsePreludeOptions.maxJsonBytes ParsePreludeOptions.default
             ?? DEFAULT_MAX_JSON_BYTES).
Proof.
  apply (transform_buffers_less_than_the_limit ParsePreludeOptions.default
           [Buffer.from_string "PRE1"; [x00; x00; x00; x22; x7b]] []).
  reflexivity.
Defined.

(** X26: once the stream has reached the body stage, every chunk written
    to it is forwarded as it is: no further header event, no byte added,
    dropped or reordered, and the state does not change. *)
Theorem transform_forwards_the_body_unchanged (opts : ParsePreludeOptions.t)
        (chunks more : list Buffer.t) (out : list Transform.Output)
        (st : Transform.State) :
  runTransform opts chunks = Ok (out, Ok st) ->
  Transform.is_body (Transform.stage st) = true ->
  exists out',
    runTransform opts (chunks ++ more) = Ok (out ++ out', Ok st)
    /\ Transform.emitted out' = []
    /\ Transform.pushed out' = Buffer.concat more.
Proof.
  unfold runTransform, parsePreludeTransform.
  destruct (assertMagicList _) as [magics|e]; cbn [bind]; [|discriminate].
  set (cfg := Transform.mkConfig magics _).
  intros H Hb. injection H as H.
  pose proof (feed_resting cfg chunks _ _ _ resting_initial H) as R.
  rewrite feed_app, H.
  destruct (feed_body cfg more st R Hb) as (pushes & E).
  pose proof (feed_after cfg more st R) as (_ & He & Hp).
  rewrite E in He, Hp |- *. cbn [fst] in He, Hp.
  exists (map Transform.Push pushes). split; [reflexivity|].
  split; [apply emitted_pushes|].
  destruct st as [sg nd bf jl]. cbn [Transform.stage] in Hb.
  destruct sg; try discriminate Hb.
  destruct R as [_ Hbf]. cbn [Transform.buffer] in Hbf. subst bf.
  rewrite Hp. unfold after. cbn [Transform.stage Transform.buffer fst app].
  apply pushed_pushNonEmpty.
Qed.

Lemma transform_forwards_the_body_unchanged_witness :
  exists out',
    runTransform ParsePreludeOptions.default ([helloFrame] ++ everyByte helloBody)
    = Ok ([Transform.Emit (versioned DEFAULT_VERSION textPlain)] ++ out',
          Ok (Transform.mkState Transform.body 0 [] 34))
    /\ Transform.emitted out' = []
    /\ Transform.pushed out' = Buffer.concat (everyByte helloBody).
Proof.
  apply (transform_forwards_the_body_unchanged ParsePreludeOptions.default
           [helloFrame] (everyByte helloBody)).
  - reflexivity.
  - reflexivity.
Defined.

(** X27: whenever [decodePrelude] accepts the bytes written to the stream
    (a frame made by any encoder, under any markers and limit), the stream
    emits exactly the header [decodePrelude] returns, once, and forwards
    exactly the bytes from the decoded offset on, however the bytes are cut
    into chunks. *)
Theorem transform_agrees_with_decodePrelude (opts : ParsePreludeOptions.t)
        (chunks : list Buffer.t) (d : Decoded) :
  decodePrelude (Buffer.concat chunks) (decodeOptionsOf opts) = Ok d ->
  exists out st,
    runTransform opts chunks = Ok (out, Ok st)
    /\ Transform.is_body (Transform.stage st) = true
    /\ Transform.emitted out = [headers d]
    /\ Transform.pushed out = Buffer.subarray_from (Buffer.concat chunks) (offset d).
Proof.
  destruct opts as [magic max strict observer pause]. intros H.
  exact (feed_decoded (Buffer.concat chunks) chunks magic max d strict observer pause
           eq_refl H).
Qed.

Lemma transform_agrees_with_decodePrelude_witness :
  exists out st,
    runTransform (ParsePreludeOptions.make
                    (Some (Many [MagicString "TEST"; MagicString "PRE1"])) (Some 64)
                    false None false)
                 (everyByte (helloFrame ++ helloBody))
    = Ok (out, Ok st)
    /\ Transform.is_body (Transform.stage st) = true
    /\ Transform.emitted out = [versioned DEFAULT_VERSION textPlain]
    /\ Transform.pushed out
       = Buffer.subarray_from (Buffer.concat (everyByte (helloFrame ++ helloBody))) 42.
Proof.
  apply (transform_agrees_with_decodePrelude
           (ParsePreludeOptions.make
              (Some (Many [MagicString "TEST"; MagicString "PRE1"])) (Some 64)
              false None false)
           (everyByte (helloFrame ++ helloBody))
           (mkDecoded (versioned DEFAULT_VERSION textPlain) 42)).
  reflexivity.
Defined.
